(** * Embedding-bag segmented gradient reduction and elementwise reductions

    A shallow embedding of the device kernels of
    [csrc/aten/operators/EmbeddingBag.cpp], [ReduceOpAminmax.cpp] and
    [ReduceOpLogical.cpp], and the properties their specification states.

    Conventions of the embedding.
    - An [int64_t] value is a [Z]; buffers of [int64_t] are [list Z].  Sizes
      and offsets of buffers that fit in memory stay far below [2^63], so
      64-bit arithmetic is written without wrap-around.  Every variable the
      source declares as [int] goes through [to_int], the conversion to a
      32-bit two's complement integer.
    - A device buffer is a list; [ld] reads a cell and [st] stores one.  Reads
      and writes outside the buffer are undefined behaviour in the source; the
      embedding makes them total ([ld] yields a filler, [st] does nothing) and
      the theorems carry the bounds that keep every access inside.
    - A kernel submitted with [parallel_for] is the list of stores of its work
      items, taken in increasing global id, applied to the output buffer.
    - Gradient and weight elements belong to a type of class [Scalar]; sums are
      exact (a commutative monoid), rounding is outside this development. *)

From Stdlib Require Import ZArith Lia Floats Sorting.Sorted Sorting.Permutation.
From Stdlib Require Import Strings.String.
From stdpp Require Import base tactics option list list_numbers.

Local Open Scope Z_scope.

(** ** Machine integers and buffers *)

Module Mach.

(** Conversion of a 64-bit value to [int] (32 bits, two's complement). *)
Definition to_int (x : Z) : Z := (x + 2 ^ 31) mod 2 ^ 32 - 2 ^ 31.

Definition INT_MAX : Z := 2 ^ 31 - 1.

(** C++ [/] and [%] on signed integers truncate toward zero. *)
Definition cdiv (a b : Z) : Z := Z.quot a b.
Definition cmod (a b : Z) : Z := Z.rem a b.

(** Modelled from the spec: [CeilDiv] is declared in a header that is not among the
    files embedded here; the specification reads it as the ceiling of the
    quotient, which for the usual [(a + b - 1) / b] is what C++ computes on
    non-negative operands. *)
Definition CeilDiv (a b : Z) : Z := cdiv (a + b - 1) b.

(** Reading cell [i] of a buffer; [d] stands for whatever an out-of-bounds
    read would find. *)
Definition ld {A} (d : A) (buf : list A) (i : Z) : A :=
  if decide (0 ≤ i) then default d (buf !! Z.to_nat i) else d.

(** Storing [v] in cell [i]. *)
Definition st {A} (buf : list A) (i : Z) (v : A) : list A :=
  if decide (0 ≤ i) then <[Z.to_nat i := v]> buf else buf.

Definition store {A} (buf : list A) (w : Z * A) : list A := st buf w.1 w.2.

(** The stores of a kernel, applied in order. *)
Definition apply_writes {A} (ws : list (Z * A)) (buf : list A) : list A :=
  fold_left store ws buf.

(** [parallel_for] over a one-dimensional range of [total_items] work items:
    [kfn gid] is the list of stores work item [gid] performs. *)
Definition parallel_for {A} (total_items : Z) (kfn : Z → list (Z * A))
    (buf : list A) : list A :=
  apply_writes (seqZ 0 total_items ≫= kfn) buf.

(** A [for (i = lo; i < hi; i += step)] loop, as the list of values [i]
    takes; the fuel [hi - lo] is enough for any [step >= 1]. *)
Fixpoint for_range_fuel (fuel : nat) (i hi step : Z) : list Z :=
  match fuel with
  | O => []
  | S n => if decide (i < hi) then i :: for_range_fuel n (i + step) hi step else []
  end.

Definition for_range (lo hi step : Z) : list Z :=
  for_range_fuel (Z.to_nat (hi - lo)) lo hi step.

(** The unit-step loop [for (i = lo; i < hi; ++i)]. *)
Definition for_each (lo hi : Z) : list Z := seqZ lo (hi - lo).

(** What a work item of a two-dimensional [nd_range] can ask its [nd_item]. *)
Record nd_item2 : Type := mkItem {
  get_group0 : Z;
  get_group1 : Z;
  get_local_id0 : Z;
  get_local_id1 : Z;
  get_local_range0 : Z;
  get_local_range1 : Z;
  get_group_range0 : Z;
  get_group_range1 : Z;
  get_global_range0 : Z;
  get_global_range1 : Z
}.

(** The work items of [nd_range<2>(range(G0, G1), range(L0, L1))], group by
    group. *)
Definition nd_range2 (G0 G1 L0 L1 : Z) : list nd_item2 :=
  g0 ← seqZ 0 (cdiv G0 L0);
  g1 ← seqZ 0 (cdiv G1 L1);
  l0 ← seqZ 0 L0;
  l1 ← seqZ 0 L1;
  [mkItem g0 g1 l0 l1 L0 L1 (cdiv G0 L0) (cdiv G1 L1) G0 G1].

(** [atomicAdd(&buf[i], v)]. *)
Definition atomic_add {A} (add : A → A → A) (d : A) (buf : list A) (w : Z * A)
    : list A :=
  st buf w.1 (add (ld d buf w.1) w.2).

End Mach.
Export Mach.

(** ** Host-side effects: errors and kernel submissions *)

Inductive ScalarType : Type :=
  | Byte | Char | Short | Int | Long
  | Half | Float | Double | BFloat16 | Bool
  | ComplexFloat | ComplexDouble.

Global Instance ScalarType_eq_dec : EqDecision ScalarType.
Proof. solve_decision. Defined.

Inductive error : Type :=
  | TorchCheck (msg : string) (arg : Z)  (* TORCH_CHECK(false, msg, arg) *)
  | RuntimeError (msg : string)          (* throw std::runtime_error(msg) *)
  | InternalAssert                       (* TORCH_INTERNAL_ASSERT failed *)
  | IndexError                           (* tensor[i] outside its dimension *)
  | DataPtrType (want got : ScalarType)  (* data_ptr<T>() on another dtype *)
  | NotImplemented (name : string) (got : ScalarType). (* dtype dispatch *)

Inductive kernel : Type :=
  | K_partials_per_segment
  | K_partial_segment_offset
  | K_compute_grad_weight_bags
  | K_compute_grad_weight
  | K_sum_and_scatter
  | K_updateOutput
  | K_accGradParameters_max
  | K_reduce_and
  | K_reduce_or
  | K_reduce_minmax.

(** A host function yields the kernels it submitted, in order, and either an
    error or a value. *)
Definition M (A : Type) : Type := list kernel * (error + A).

Definition ret {A} (x : A) : M A := ([], inr x).
Definition throw {A} (e : error) : M A := ([], inl e).
Definition submit (k : kernel) : M unit := ([k], inr tt).

Global Instance M_ret : MRet M := @ret.
Global Instance M_bind : MBind M := λ A B (f : A → M B) (m : M A),
  match m with
  | (t, inl e) => (t, inl e)
  | (t, inr x) => let '(t', r) := f x in (t ++ t', r)
  end.

Global Instance M_fmap : FMap M := λ A B (f : A → B) (m : M A),
  match m with
  | (t, inl e) => (t, inl e)
  | (t, inr x) => (t, inr (f x))
  end.

Definition trace {A} (m : M A) : list kernel := m.1.
Definition outcome {A} (m : M A) : error + A := m.2.

(** ** Element types *)

(** The operations the kernels use on [scalar_t] and [acc_type<scalar_t>]. *)
Class Scalar (T : Type) : Type := {
  szero : T;
  sone : T;
  sadd : T → T → T;
  smul : T → T → T;
  sdiv : T → T → T;
  of_int : Z → T;        (* conversion of an int64 count *)
  sgtb : T → T → bool    (* operator> *)
}.

(** Exact arithmetic: what the sums of the backward pass rely on. *)
Class ScalarLaws (T : Type) `{Scalar T} : Prop := {
  sadd_assoc : ∀ a b c : T, sadd a (sadd b c) = sadd (sadd a b) c;
  sadd_comm : ∀ a b : T, sadd a b = sadd b a;
  sadd_0_l : ∀ a : T, sadd szero a = a;
  smul_1_r : ∀ a : T, smul a sone = a
}.

(** [operator>] as a strict weak order (no NaN among the compared values). *)
Class ScalarOrder (T : Type) `{Scalar T} : Prop := {
  sgtb_irrefl : ∀ a : T, sgtb a a = false;
  sgtb_trans : ∀ a b c : T, sgtb a b = true → sgtb b c = true → sgtb a c = true;
  sgtb_cotrans : ∀ a b c : T, sgtb a b = true → sgtb a c = true ∨ sgtb c b = true
}.

Global Instance Z_Scalar : Scalar Z := {|
  szero := 0; sone := 1; sadd := Z.add; smul := Z.mul; sdiv := Z.quot;
  of_int := id; sgtb := Z.gtb |}.

(** ** Tensors *)

(** A two-dimensional floating tensor: declared element type, sizes, strides
    and storage.  Index tensors ([int64_t]) are plain [list Z]; an undefined
    optional tensor is [None]. *)
Record Tensor (T : Type) : Type := mkTensor {
  dtype : ScalarType;
  size0 : Z;
  size1 : Z;
  tstride0 : Z;
  tstride1 : Z;
  data : list T
}.
Arguments mkTensor {T}.
Arguments dtype {T}.
Arguments size0 {T}.
Arguments size1 {T}.
Arguments tstride0 {T}.
Arguments tstride1 {T}.
Arguments data {T}.

Module ATen.
Section ATen.
Context {T : Type} `{Scalar T}.

(** Strides of a freshly allocated row-major tensor: a dimension of size 0
    counts as 1. *)
Definition contiguous_stride0 (n1 : Z) : Z := Z.max n1 1.

Definition is_contiguous (t : Tensor T) : bool :=
  bool_decide (tstride0 t = contiguous_stride0 (size1 t) ∧ tstride1 t = 1).

(** [at::zeros({n0, n1}, options)]. *)
Definition zeros (dt : ScalarType) (n0 n1 : Z) : Tensor T :=
  mkTensor dt n0 n1 (contiguous_stride0 n1) 1
    (replicate (Z.to_nat (n0 * n1)) szero).

(** [at::empty({n0, n1}, options)]: [junk] is what the fresh storage holds. *)
Definition empty2 (junk : nat → T) (dt : ScalarType) (n0 n1 : Z) : Tensor T :=
  mkTensor dt n0 n1 (contiguous_stride0 n1) 1
    (junk <$> seq 0 (Z.to_nat (n0 * n1))).

(** [at::empty({n}, options)] for an index tensor. *)
Definition empty1 (junk : nat → Z) (n : Z) : list Z :=
  junk <$> seq 0 (Z.to_nat n).

(** [t.contiguous()]: [t] itself when it is row-major, a row-major copy
    otherwise. *)
Definition contiguous (t : Tensor T) : Tensor T :=
  if is_contiguous t then t
  else mkTensor (dtype t) (size0 t) (size1 t) (contiguous_stride0 (size1 t)) 1
         (i ← seqZ 0 (size0 t);
          (λ j, ld szero (data t) (i * tstride0 t + j * tstride1 t))
            <$> seqZ 0 (size1 t)).

(** [t.data_ptr<want>()] checks the declared element type. *)
Definition data_ptr (want : ScalarType) (t : Tensor T) : M (list T) :=
  if decide (dtype t = want) then mret (data t)
  else throw (DataPtrType want (dtype t)).

(** [t[i]] on a one-dimensional tensor: [i] in [-size, size), a negative
    index counting from the end. *)
Definition select1 (t : list Z) (i : Z) : M Z :=
  let n := Z.of_nat (length t) in
  if decide (- n ≤ i < n) then mret (ld 0 t (if decide (i < 0) then i + n else i))
  else throw IndexError.

(** [t[i] = v]. *)
Definition assign1 (t : list Z) (i v : Z) : M (list Z) :=
  let n := Z.of_nat (length t) in
  if decide (- n ≤ i < n) then mret (st t (if decide (i < 0) then i + n else i) v)
  else throw IndexError.

End ATen.
End ATen.

(** ** Parallel-algorithm primitives *)

Module PSTL.

(** [std::adjacent_difference(first, last, out, op)]: the first output is the
    first input, every later one is [op cur prev]. *)
Fixpoint adjacent_difference_from (op : Z → Z → Z) (prev : Z) (l : list Z) : list Z :=
  match l with
  | [] => []
  | x :: l' => op x prev :: adjacent_difference_from op x l'
  end.

Definition adjacent_difference (op : Z → Z → Z) (l : list Z) : list Z :=
  match l with
  | [] => []
  | x :: l' => x :: adjacent_difference_from op x l'
  end.

(** Modelled from the spec: [iota], [transform], [copy_if] and
    [exclusive_scan] live in comm/PSTLFunctions.h, which is not embedded
    here; the specification lists them as the usual sequence fill, zip-map,
    compaction and exclusive prefix-sum primitives. *)
Definition iota (n : Z) (start : Z) : list Z := seqZ start n.

Definition transform (f : Z → Z → Z) (a b : list Z) : list Z :=
  zip_with f a b.

(** Returns the destination with the kept elements written at its start, and
    how many were written. *)
Definition copy_if (P : Z → Prop) `{!∀ x, Decision (P x)} (src dst : list Z)
    : list Z * Z :=
  let kept := filter P src in
  (kept ++ drop (length kept) dst, Z.of_nat (length kept)).

Fixpoint exclusive_scan (l : list Z) (init : Z) : list Z :=
  match l with
  | [] => []
  | x :: l' => init :: exclusive_scan l' (init + x)
  end.

(** [oneapi::dpl::inclusive_scan_by_segment(keys, vals, out, pred, op)]: a
    running [op] restarted wherever the key changes. *)
Fixpoint inclusive_scan_by_segment_from (eqk : Z → Z → bool) (op : Z → Z → Z)
    (k0 acc : Z) (kvs : list (Z * Z)) : list Z :=
  match kvs with
  | [] => []
  | (k, v) :: rest =>
      let acc' := if eqk k0 k then op acc v else v in
      acc' :: inclusive_scan_by_segment_from eqk op k acc' rest
  end.

Definition inclusive_scan_by_segment (eqk : Z → Z → bool) (op : Z → Z → Z)
    (keys vals : list Z) : list Z :=
  match zip keys vals with
  | [] => []
  | (k, v) :: rest => v :: inclusive_scan_by_segment_from eqk op k v rest
  end.

End PSTL.

(** ** EmbeddingBag.cpp *)

Module EmbeddingBag.

Import ATen PSTL.

Definition MODE_SUM : Z := 0.
Definition MODE_MEAN : Z := 1.
Definition MODE_MAX : Z := 2.

Definition NROWS_PER_THREAD : Z := 10.
Definition WARP_SIZE : Z := 64.

(** One work item per segment: the number of partial segments of segment [id]. *)
Definition krn_partials_per_segment (ret segment_offsets : list Z)
    (num_of_segments numel : Z) : M (list Z) :=
  let group_size := 32 in
  let num_groups := CeilDiv num_of_segments group_size in
  let total_items := num_groups * group_size in
  let kfn (id : Z) : list (Z * Z) :=
    if decide (id < num_of_segments) then
      let idx_start := ld 0 segment_offsets id in
      let idx_end :=
        if decide (id = num_of_segments - 1) then numel
        else ld 0 segment_offsets (id + 1) in
      let size := idx_end - idx_start in
      [(id, CeilDiv size NROWS_PER_THREAD)]
    else [] in
  submit K_partials_per_segment;;
  mret (parallel_for total_items kfn ret).

(** One work item per segment: the start offsets of its partial segments,
    written from [partials_per_segment_offset[id]] on. *)
Definition krn_partial_segment_offset
    (ret partials_per_segment partials_per_segment_offset segment_offsets : list Z)
    (num_of_segments : Z) : M (list Z) :=
  let group_size := 32 in
  let num_groups := CeilDiv num_of_segments group_size in
  let total_items := num_groups * group_size in
  let kfn (id : Z) : list (Z * Z) :=
    if decide (id < num_of_segments) then
      let idx := ld 0 partials_per_segment_offset id in
      let num_partials := ld 0 partials_per_segment id in
      let segment_offset := ld 0 segment_offsets id in
      (λ i, (idx + i, segment_offset + i * NROWS_PER_THREAD))
        <$> for_each 0 num_partials
    else [] in
  submit K_partial_segment_offset;;
  mret (parallel_for total_items kfn ret).

Section Kernels.
Context {T : Type} `{Scalar T}.

(** [dpcppMaxWorkGroupSize(dev_id)], a property of the device. *)
Variable dpcppMaxWorkGroupSize : Z.

(** Modelled from the spec: [acc_type] comes from comm/AccumulateType.h, which
    is not embedded here; the specification gives it as the single-precision
    accumulator of the reduced-precision types and the type itself otherwise. *)
Definition acc_type (scalar_t : ScalarType) : ScalarType :=
  match scalar_t with
  | Half | BFloat16 => Float
  | t => t
  end.

Definition set_data (t : Tensor T) (d : list T) : Tensor T :=
  mkTensor (dtype t) (size0 t) (size1 t) (tstride0 t) (tstride1 t) d.

(** The launch geometry shared by the three gradient kernels. *)
Definition stride_warped_of (stride : Z) : Z :=
  let work_group_size := dpcppMaxWorkGroupSize in
  CeilDiv stride work_group_size * work_group_size.

Definition total_items_of (stride num_of_segments : Z) : Z :=
  let stride_warped := stride_warped_of stride in
  let group_size := Z.min stride_warped dpcppMaxWorkGroupSize in
  let num_groups := CeilDiv (num_of_segments * stride_warped) group_size in
  num_groups * group_size.

(** The stores of work item [gid0] of [compute_grad_weight_bags]. *)
Definition compute_grad_weight_bags_kfn
    (indices : list Z) (gradOutput : list T) (offset2bag : list Z)
    (count : option (list Z)) (numel stride : Z) (mode_mean : bool)
    (bag_size : list Z) (per_sample_weights : option (list T))
    (per_sample_weights_stride : Z)
    (segment_offsets : list Z) (num_of_segments : Z) (gid0 : Z) : list (Z * T) :=
  let stride_warped := stride_warped_of stride in
  let gid := to_int gid0 in
  let id := to_int (cdiv gid stride_warped) in
  let startFeature := to_int (cmod gid stride_warped) in
  if decide (startFeature >= stride) then []
  else if decide (id >= num_of_segments) then []
  else
    let idx_begin := to_int (ld 0 segment_offsets id) in
    let idx_end :=
      to_int (if decide (id = num_of_segments - 1) then numel
              else ld 0 segment_offsets (id + 1)) in
    let weight :=
      fold_left (λ weight idx,
          let orig_row := to_int (ld 0 indices idx) in
          let seq_number := to_int (ld 0 offset2bag orig_row) in
          let grad_output_row := to_int (seq_number * stride) in
          let scale :=
            match count with
            | Some c => sdiv sone (of_int (ld 0 c idx))
            | None => sone
            end in
          let scale :=
            match per_sample_weights with
            | Some w => smul scale (ld szero w (idx * per_sample_weights_stride))
            | None => scale
            end in
          let gradient := ld szero gradOutput (grad_output_row + startFeature) in
          let gradient :=
            if mode_mean then sdiv gradient (of_int (ld 0 bag_size seq_number))
            else gradient in
          sadd weight (smul gradient scale))
        (for_each idx_begin idx_end) szero in
    [(id * stride + startFeature, weight)].

Definition compute_grad_weight_bags (scalar_t : ScalarType)
    (indices : list Z) (gradOutput : Tensor T) (offset2bag : list Z)
    (count : option (list Z)) (numel stride : Z) (mode_mean : bool)
    (bag_size : list Z) (per_sample_weights : option (Tensor T))
    (segment_offsets : list Z) (num_of_segments : Z)
    (grad_weight_per_segment : Tensor T) : M (Tensor T) :=
  let per_sample_weights_stride :=
    match per_sample_weights with Some w => tstride0 w | None => 0 end in
  grad_weight_per_segment_data ←
    data_ptr (acc_type scalar_t) grad_weight_per_segment;
  gradOutput_data ← data_ptr scalar_t gradOutput;
  per_sample_weights_data ←
    match per_sample_weights with
    | Some w => Some <$> data_ptr scalar_t w
    | None => mret None
    end;
  submit K_compute_grad_weight_bags;;
  mret (set_data grad_weight_per_segment
          (parallel_for (total_items_of stride num_of_segments)
             (compute_grad_weight_bags_kfn indices gradOutput_data offset2bag
                count numel stride mode_mean bag_size per_sample_weights_data
                per_sample_weights_stride segment_offsets num_of_segments)
             grad_weight_per_segment_data)).

(** The stores of work item [gid0] of [compute_grad_weight]. *)
Definition compute_grad_weight_kfn
    (indices : list Z) (grad_output : list T) (count : option (list Z))
    (numel stride : Z) (segment_offsets : list Z) (num_of_segments : Z)
    (gid0 : Z) : list (Z * T) :=
  let stride_warped := stride_warped_of stride in
  let gid := to_int gid0 in
  let id := to_int (cdiv gid stride_warped) in
  let startFeature := to_int (cmod gid stride_warped) in
  if decide (startFeature >= stride) then []
  else if decide (id >= num_of_segments) then []
  else
    let idx_begin := to_int (ld 0 segment_offsets id) in
    let idx_end :=
      to_int (if decide (id = num_of_segments - 1) then numel
              else ld 0 segment_offsets (id + 1)) in
    let weight :=
      fold_left (λ weight idx,
          let target_row := ld 0 indices idx in
          let scale :=
            match count with
            | Some c => sdiv sone (of_int (ld 0 c idx))
            | None => sone
            end in
          sadd weight
            (smul (ld szero grad_output (target_row * stride + startFeature)) scale))
        (for_each idx_begin idx_end) szero in
    [(id * stride + startFeature, weight)].

Definition compute_grad_weight (scalar_t : ScalarType)
    (indices : list Z) (grad_output : Tensor T) (count : option (list Z))
    (numel stride : Z) (segment_offsets : list Z) (num_of_segments : Z)
    (grad_weight_per_segment : Tensor T) : M (Tensor T) :=
  grad_weight_per_segment_data ←
    data_ptr (acc_type scalar_t) grad_weight_per_segment;
  grad_output_data ← data_ptr scalar_t grad_output;
  submit K_compute_grad_weight;;
  mret (set_data grad_weight_per_segment
          (parallel_for (total_items_of stride num_of_segments)
             (compute_grad_weight_kfn indices grad_output_data count numel
                stride segment_offsets num_of_segments)
             grad_weight_per_segment_data)).

(** The stores of work item [gid0] of [sum_and_scatter]: at most one, into the
    row of the segment's index unless that index is [padding_idx]. *)
Definition sum_and_scatter_kfn
    (input : list Z) (stride : Z) (segment_offsets : list Z)
    (num_of_segments : Z) (grad_weight_per_segment : list T)
    (segment_sizes_offsets : list Z) (num_of_partial_segments : Z)
    (padding_idx : Z) (gid0 : Z) : list (Z * T) :=
  let stride_warped := stride_warped_of stride in
  let gid := to_int gid0 in
  let id := to_int (cdiv gid stride_warped) in
  let startFeature := to_int (cmod gid stride_warped) in
  if decide (startFeature >= stride) then []
  else if decide (id >= num_of_segments) then []
  else
    let idx_begin := to_int (ld 0 segment_sizes_offsets id) in
    let idx_end :=
      to_int (if decide (id = num_of_segments - 1) then num_of_partial_segments
              else ld 0 segment_sizes_offsets (id + 1)) in
    let weight :=
      fold_left (λ weight idx,
          sadd weight (ld szero grad_weight_per_segment (idx * stride + startFeature)))
        (for_each idx_begin idx_end) szero in
    let target_row := ld 0 input (ld 0 segment_offsets id) in
    if decide (target_row ≠ padding_idx) then
      [(target_row * stride + startFeature, weight)]
    else [].

(** Every store of the kernel, in the order of the global ids. *)
Definition sum_and_scatter_stores
    (input : list Z) (stride : Z) (segment_offsets : list Z)
    (num_of_segments : Z) (grad_weight_per_segment : list T)
    (segment_sizes_offsets : list Z) (num_of_partial_segments : Z)
    (padding_idx : Z) : list (Z * T) :=
  seqZ 0 (total_items_of stride num_of_segments) ≫=
    sum_and_scatter_kfn input stride segment_offsets num_of_segments
      grad_weight_per_segment segment_sizes_offsets num_of_partial_segments
      padding_idx.

Definition sum_and_scatter (scalar_t : ScalarType)
    (input : list Z) (grad_weight : Tensor T) (stride : Z)
    (segment_offsets : list Z) (num_of_segments : Z)
    (grad_weight_per_segment : Tensor T) (segment_sizes_offsets : list Z)
    (num_of_partial_segments : Z) (padding_idx : Z) : M (Tensor T) :=
  grad_weight_data ← data_ptr scalar_t grad_weight;
  grad_weight_per_segment_data ←
    data_ptr (acc_type scalar_t) grad_weight_per_segment;
  submit K_sum_and_scatter;;
  mret (set_data grad_weight
          (apply_writes
             (sum_and_scatter_stores input stride segment_offsets
                num_of_segments grad_weight_per_segment_data
                segment_sizes_offsets num_of_partial_segments padding_idx)
             grad_weight_data)).

(** Modelled from the spec: the dispatch macros come from comm/ATDispatch.h,
    which is not embedded here; a dispatch over the floating types and the
    named extra types runs its body for those element types and fails for
    every other one. *)
Definition IPEX_DISPATCH_FLOATING_TYPES_AND (extra : ScalarType)
    (dt : ScalarType) (name : string) : M ScalarType :=
  if decide (dt = Float ∨ dt = Double ∨ dt = extra) then mret dt
  else throw (NotImplemented name dt).

Definition IPEX_DISPATCH_FLOATING_TYPES_AND2 (extra1 extra2 : ScalarType)
    (dt : ScalarType) (name : string) : M ScalarType :=
  if decide (dt = Float ∨ dt = Double ∨ dt = extra1 ∨ dt = extra2) then mret dt
  else throw (NotImplemented name dt).

(** Whether the build has oneDPL ([USE_ONEDPL]). *)
Variable USE_ONEDPL : bool.

(** What freshly allocated ([at::empty]) index and gradient storage holds. *)
Variable uninit : nat → Z.
Variable uninit_s : nat → T.

Definition no_onedpl : error :=
  RuntimeError "no oneDPL found when compile. USM embedding not supported".

(** The segment-discovery block of [embedding_bag_backward_dpcpp_kernel]:
<<
    sorted:          2 5 5 5 7 7 8 9 9
    dummy:           1 1 0 0 1 0 1 1 0
    segment_offsets: 0 1 - - 4 - 6 7 -
>>
    It yields [segment_offsets] and [num_of_segments]. *)
Definition segment_discovery (sorted_indices segment_offsets : list Z)
    : M (list Z * Z) :=
  let numel := Z.of_nat (length sorted_indices) in
  let dummy :=
    adjacent_difference (λ lhs rhs, if decide (lhs ≠ rhs) then 1 else 0)
      sorted_indices in
  dummy ← assign1 dummy 0 1;
  let count_tensor := iota numel 0 in
  let idx :=
    transform (λ d idx, if decide (d ≠ 0) then idx else -1) dummy count_tensor in
  mret (copy_if (λ x, x ≠ -1) idx segment_offsets).

(** The partial-segment splitting of [embedding_bag_backward_dpcpp_kernel]:
    counts per segment, their exclusive scan, the total, and the flattened
    start offsets. *)
Record partials : Type := mkPartials {
  partials_per_segment : list Z;
  partials_per_segment_offset : list Z;
  num_of_partial_segments : Z;
  partial_segment_offset : list Z
}.

Definition partial_segments (segment_offsets : list Z)
    (num_of_segments numel : Z) : M partials :=
  pps ← krn_partials_per_segment (empty1 uninit num_of_segments)
         segment_offsets num_of_segments numel;
  let ppso := exclusive_scan (take (Z.to_nat num_of_segments) pps) 0 in
  a ← select1 pps (num_of_segments - 1);
  b ← select1 ppso (num_of_segments - 1);
  let num_of_partial_segments := to_int (a + b) in
  pso ← krn_partial_segment_offset (empty1 uninit num_of_partial_segments)
         pps ppso segment_offsets num_of_segments;
  mret (mkPartials pps ppso num_of_partial_segments pso).

(** Everything one call of [embedding_bag_backward_dpcpp_kernel] computes. *)
Record backward_run : Type := mkRun {
  run_segment_offsets : list Z;
  run_num_of_segments : Z;
  run_partials : partials;
  run_grad_weight_per_segment : Tensor T;
  run_stores : list (Z * T);     (* the stores of sum_and_scatter *)
  run_grad_weight : Tensor T
}.

Definition embedding_bag_backward_dpcpp_run
    (grad : Tensor T) (orig_indices sorted_indices : list Z)
    (count : option (list Z)) (num_weights : Z) (padding_idx : Z)
    (scale_grad_by_freq mode_mean : bool) (offset2bag : option (list Z))
    (bag_size : list Z) (per_sample_weights : option (Tensor T))
    : M backward_run :=
  if negb USE_ONEDPL then throw no_onedpl
  else
    let numel := Z.of_nat (length sorted_indices) in
    let grad_weight : Tensor T := zeros (dtype grad) num_weights (size1 grad) in
    let stride := tstride0 grad_weight in
    '(segment_offsets, num_of_segments) ←
      segment_discovery sorted_indices (empty1 uninit numel);
    p ← partial_segments segment_offsets num_of_segments numel;
    scalar_t ← IPEX_DISPATCH_FLOATING_TYPES_AND BFloat16 (dtype grad)
      "embedding_bag_backward_dpcpp_compute_grad_weight";
    let op := if decide (dtype grad = BFloat16) then Float else dtype grad in
    let grad_weight_per_segment :=
      empty2 uninit_s op (num_of_partial_segments p) stride in
    grad_weight_per_segment ←
      match offset2bag with
      | Some offset2bag =>
          compute_grad_weight_bags scalar_t orig_indices grad offset2bag count
            numel stride mode_mean bag_size per_sample_weights
            (partial_segment_offset p) (num_of_partial_segments p)
            grad_weight_per_segment
      | None =>
          compute_grad_weight scalar_t orig_indices grad count numel stride
            (partial_segment_offset p) (num_of_partial_segments p)
            grad_weight_per_segment
      end;
    grad_weight' ←
      sum_and_scatter scalar_t sorted_indices grad_weight stride segment_offsets
        num_of_segments grad_weight_per_segment (partials_per_segment_offset p)
        (num_of_partial_segments p) padding_idx;
    mret (mkRun segment_offsets num_of_segments p grad_weight_per_segment
            (sum_and_scatter_stores sorted_indices stride segment_offsets
               num_of_segments (data grad_weight_per_segment)
               (partials_per_segment_offset p) (num_of_partial_segments p)
               padding_idx)
            grad_weight').

Definition embedding_bag_backward_dpcpp_kernel
    (grad : Tensor T) (orig_indices sorted_indices : list Z)
    (count : option (list Z)) (num_weights : Z) (padding_idx : Z)
    (scale_grad_by_freq mode_mean : bool) (offset2bag : option (list Z))
    (bag_size : list Z) (per_sample_weights : option (Tensor T))
    : M (Tensor T) :=
  run_grad_weight <$>
    embedding_bag_backward_dpcpp_run grad orig_indices sorted_indices count
      num_weights padding_idx scale_grad_by_freq mode_mean offset2bag bag_size
      per_sample_weights.

(** *** Forward pooling *)

Inductive fwd_store : Type :=
  | St_output (i : Z) (v : T)
  | St_offset2bag (i v : Z)
  | St_bag_size (i v : Z)
  | St_max_indices_ptr (i v : Z).

Record fwd_state : Type := mkFwd {
  fwd_output : list T;
  fwd_offset2bag : list Z;
  fwd_bag_size : list Z;
  fwd_max_indices : option (list Z)   (* [None]: the null pointer *)
}.

(** [max_indices_ptr] is [max_indices] in max mode and the [offset2bag]
    buffer, as a placeholder, otherwise. *)
Definition fwd_apply (mode : Z) (s : fwd_state) (w : fwd_store) : fwd_state :=
  match w with
  | St_output i v =>
      mkFwd (st (fwd_output s) i v) (fwd_offset2bag s) (fwd_bag_size s)
        (fwd_max_indices s)
  | St_offset2bag i v =>
      mkFwd (fwd_output s) (st (fwd_offset2bag s) i v) (fwd_bag_size s)
        (fwd_max_indices s)
  | St_bag_size i v =>
      mkFwd (fwd_output s) (fwd_offset2bag s) (st (fwd_bag_size s) i v)
        (fwd_max_indices s)
  | St_max_indices_ptr i v =>
      if decide (mode = MODE_MAX) then
        mkFwd (fwd_output s) (fwd_offset2bag s) (fwd_bag_size s)
          ((λ b, st b i v) <$> fwd_max_indices s)
      else
        mkFwd (fwd_output s) (st (fwd_offset2bag s) i v) (fwd_bag_size s)
          (fwd_max_indices s)
  end.

(** The locals of the loop over one bag. *)
Record bag_acc : Type := mkAcc {
  weightFeatSum : T;
  weightFeatMax : T;
  bag_size_ : Z;
  maxWord : Z
}.

(** What the declaration [scalar_t weightFeatMax;] leaves in the variable. *)
Variable uninit_max : T.

Definition bag_step (input : list Z) (weight : list T) (weightFeat : Z)
    (weight_stide0 : Z) (mode : Z) (per_sample_weights : option (list T))
    (per_sample_weights_stride : Z) (begin : Z)
    (acc : bag_acc) (emb : Z) : bag_acc :=
  let weightRow := ld 0 input emb * weight_stide0 in
  let weightValue := ld szero weight (weightFeat + weightRow) in
  let acc :=
    if decide (mode = MODE_MAX) then
      if bool_decide (emb = begin) || sgtb weightValue (weightFeatMax acc) then
        mkAcc (weightFeatSum acc) weightValue (bag_size_ acc) (ld 0 input emb)
      else acc
    else
      match per_sample_weights with
      | Some w =>
          let scaleWeightBy := ld szero w (emb * per_sample_weights_stride) in
          mkAcc (sadd (weightFeatSum acc) (smul scaleWeightBy weightValue))
            (weightFeatMax acc) (bag_size_ acc) (maxWord acc)
      | None =>
          mkAcc (sadd (weightFeatSum acc) weightValue)
            (weightFeatMax acc) (bag_size_ acc) (maxWord acc)
      end in
  mkAcc (weightFeatSum acc) (weightFeatMax acc) (bag_size_ acc + 1) (maxWord acc).

(** The body of the chunk loop of [EmbeddingBag_updateOutputKernel]: the
    stores for chunk [chunk] by work item [item]. *)
Definition updateOutput_chunk
    (input offsets : list Z) (weight : list T)
    (numIndices numBags featureSize weight_stide0 weight_stride1 mode : Z)
    (per_sample_weights : option (list T)) (per_sample_weights_stride : Z)
    (chunksPerBag : Z) (item : nd_item2) (chunk : Z) : list fwd_store :=
  let featureDim :=
    cmod chunk chunksPerBag * get_local_range0 item + get_local_id0 item in
  if decide (featureDim < featureSize) then
    let bag := cdiv chunk chunksPerBag in
    let weightFeat := featureDim * weight_stride1 in
    let begin := ld 0 offsets bag in
    let end_ :=
      if decide (bag < numBags - 1) then ld 0 offsets (bag + 1) else numIndices in
    let acc :=
      fold_left
        (bag_step input weight weightFeat weight_stide0 mode per_sample_weights
           per_sample_weights_stride begin)
        (for_each begin end_) (mkAcc szero uninit_max 0 (-1)) in
    let in_loop :=
      if decide (featureDim = 0) then
        (λ emb, St_offset2bag emb bag) <$> for_each begin end_
      else [] in
    let '(weightFeatSum, mean_stores) :=
      if decide (mode = MODE_MEAN) then
        if decide (end_ = begin) then (weightFeatSum acc, [St_bag_size bag 0])
        else (sdiv (weightFeatSum acc) (of_int (bag_size_ acc)),
              [St_bag_size bag (bag_size_ acc)])
      else (weightFeatSum acc, []) in
    let out_stores :=
      if decide (mode = MODE_MEAN ∨ mode = MODE_SUM) then
        [St_output (bag * featureSize + featureDim) weightFeatSum]
      else if decide (mode = MODE_MAX) then
        let weightFeatMax :=
          if decide (end_ = begin) then szero else weightFeatMax acc in
        [St_max_indices_ptr (bag * featureSize + featureDim) (maxWord acc);
         St_output (bag * featureSize + featureDim) weightFeatMax]
      else [] in
    in_loop ++ mean_stores ++ out_stores
  else [].

Definition workersPerChunk_of (featureSize : Z) : Z :=
  if decide (featureSize < 64 ∧ featureSize >= 32) then 32
  else if decide (featureSize < 32) then 16
  else 64.

(** The stores of the whole kernel, work item after work item. *)
Definition updateOutput_stores
    (input offsets : list Z) (weight : list T)
    (numIndices numBags featureSize weight_stide0 weight_stride1 mode : Z)
    (per_sample_weights : option (list T)) (per_sample_weights_stride : Z)
    : list fwd_store :=
  let workersPerChunk := workersPerChunk_of featureSize in
  let chunksPerBag := CeilDiv featureSize workersPerChunk in
  let numChunks := numBags * chunksPerBag in
  let kernel_range := 1024 * workersPerChunk in
  let chunksPerWorkGroup := cdiv 256 workersPerChunk in
  item ← nd_range2 kernel_range chunksPerWorkGroup workersPerChunk chunksPerWorkGroup;
  let chunkOffset :=
    get_group0 item * get_local_range1 item + get_local_id1 item in
  chunk ← for_range chunkOffset numChunks
             (get_group_range0 item * get_global_range1 item);
  updateOutput_chunk input offsets weight numIndices numBags featureSize
    weight_stide0 weight_stride1 mode per_sample_weights
    per_sample_weights_stride chunksPerBag item chunk.

Definition EmbeddingBag_updateOutputKernel
    (input offsets : list Z) (weight : list T) (output : list T)
    (offset2bag : list Z)
    (numIndices numBags featureSize weight_stide0 weight_stride1 mode : Z)
    (bag_size : list Z) (max_indices : option (list Z))
    (per_sample_weights : option (list T)) (per_sample_weights_stride : Z)
    : M fwd_state :=
  submit K_updateOutput;;
  mret (fold_left (fwd_apply mode)
          (updateOutput_stores input offsets weight numIndices numBags
             featureSize weight_stide0 weight_stride1 mode per_sample_weights
             per_sample_weights_stride)
          (mkFwd output offset2bag bag_size max_indices)).

(** *** Sum and mean backward *)

(** [std::sort] of the zipped (index, position) pairs, comparing the index
    only; which of the equal-index pairs comes first is up to the library. *)
Variable sort_by_key : list (Z * Z) → list (Z * Z).

(** The occurrence count of each sorted index:
<<
    sorted: 2 5 5 5 7 7 8 9 9
     count: 1 3 3 3 2 2 1 2 2
>> *)
Definition frequency_count (sorted_indices : list Z) : list Z :=
  let count := replicate (length sorted_indices) 1 in
  let count := inclusive_scan_by_segment Z.eqb Z.add sorted_indices count in
  reverse
    (inclusive_scan_by_segment Z.eqb Z.max (reverse sorted_indices)
       (reverse count)).

Definition embedding_bag_backward_dpcpp_sum_avg
    (grad : Tensor T) (indices offsets : list Z) (offset2bag : option (list Z))
    (bag_size : list Z) (num_weights : Z) (scale_grad_by_freq : bool)
    (mode : Z) (per_sample_weights : option (Tensor T)) : M (Tensor T) :=
  if negb USE_ONEDPL then throw no_onedpl
  else
    let numel := Z.of_nat (length indices) in
    if decide (numel = 0) then
      (* all empty bags *)
      mret (zeros (dtype grad) num_weights (size1 grad))
    else
      let zipped := sort_by_key (zip indices (iota numel 0)) in
      let sorted_indices := zipped.*1 in
      let orig_indices := zipped.*2 in
      let count :=
        if scale_grad_by_freq then Some (frequency_count sorted_indices)
        else None in
      embedding_bag_backward_dpcpp_kernel grad orig_indices sorted_indices
        count num_weights (* padding_idx = *) (-1) scale_grad_by_freq
        (bool_decide (mode = MODE_MEAN)) offset2bag bag_size per_sample_weights.

(** *** Max backward *)

(** The atomic additions of work item [item] of
    [EmbeddingBag_accGradParametersKernel_max]. *)
Definition accGradParameters_max_kfn
    (max_indices : list Z) (gradOutput : list T) (stride numChunks chunksPerBag : Z)
    (item : nd_item2) : list (Z * T) :=
  let chunkOffset :=
    get_group0 item * get_local_range1 item + get_local_id1 item in
  chunk ← for_range chunkOffset numChunks
             (get_group_range0 item * get_global_range1 item);
  let featureDim :=
    cmod chunk chunksPerBag * get_local_range0 item + get_local_id0 item in
  if decide (featureDim < stride) then
    let bag := cdiv chunk chunksPerBag in
    let word_idx := ld 0 max_indices (bag * stride + featureDim) in
    if decide (word_idx >= 0) then
      (* If bag is empty, we have max_indices[idx] set to -1 in forward. *)
      [(word_idx * stride + featureDim,
        ld szero gradOutput (bag * stride + featureDim))]
    else []
  else [].

(** Every atomic addition of the kernel, work item after work item. *)
Definition accGradParameters_max_adds
    (max_indices : list Z) (gradOutput : list T) (stride numBags : Z)
    : list (Z * T) :=
  let chunksPerBag := CeilDiv stride 64 in
  let numChunks := numBags * chunksPerBag in
  let kernel_range := 1024 * 64 in
  item ← nd_range2 kernel_range 4 64 4;
  accGradParameters_max_kfn max_indices gradOutput stride numChunks
    chunksPerBag item.

Definition EmbeddingBag_accGradParametersKernel_max
    (max_indices : list Z) (gradOutput gradWeight : list T)
    (stride numBags : Z) : M (list T) :=
  submit K_accGradParameters_max;;
  mret (fold_left (atomic_add sadd szero)
          (accGradParameters_max_adds max_indices gradOutput stride numBags)
          gradWeight).

Definition embedding_bag_backward_dpcpp_max
    (grad : Tensor T) (max_indices : list Z) (num_weights : Z) : M (Tensor T) :=
  let grad_weight : Tensor T := zeros (dtype grad) num_weights (size1 grad) in
  let stride := tstride0 grad_weight in
  let numBags := size0 grad in
  (* for atomicAdd, only support float datatype. *)
  grad_data ← data_ptr Float grad;
  grad_weight_data ← data_ptr Float grad_weight;
  r ← EmbeddingBag_accGradParametersKernel_max max_indices grad_data
        grad_weight_data stride numBags;
  mret (set_data grad_weight r).

(** *** Host entry points *)

Definition _embedding_bag_dpcpp
    (weight : Tensor T) (indices offsets : list Z) (scale_grad_by_freq : bool)
    (mode : Z) (sparse : bool) (per_sample_weights : option (Tensor T))
    : M (Tensor T * list Z * list Z * list Z) :=
  let numIndices := Z.of_nat (length indices) in
  let numBags := Z.of_nat (length offsets) in
  let featureSize := size1 weight in
  let bag_size := empty1 uninit numBags in
  let offset2bag := empty1 uninit numIndices in
  let output := empty2 uninit_s (dtype weight) numBags featureSize in
  (* [if (MODE_MAX)] tests the constant 2: always taken *)
  let max_indices :=
    if decide (MODE_MAX ≠ 0) then empty1 uninit (numBags * featureSize) else [] in
  scalar_t ← IPEX_DISPATCH_FLOATING_TYPES_AND2 Half BFloat16 (dtype weight)
    "embedding_bag_dpcpp";
  weight_data ← data_ptr scalar_t weight;
  output_data ← data_ptr scalar_t output;
  per_sample_weights_data ←
    match per_sample_weights with
    | Some w => Some <$> data_ptr scalar_t w
    | None => mret None
    end;
  s ← EmbeddingBag_updateOutputKernel indices offsets weight_data output_data
        offset2bag numIndices numBags featureSize (tstride0 weight)
        (tstride1 weight) mode bag_size
        (if decide (mode = MODE_MAX) then Some max_indices else None)
        per_sample_weights_data
        (match per_sample_weights with Some w => tstride0 w | None => 0 end);
  mret (set_data output (fwd_output s), fwd_offset2bag s, fwd_bag_size s,
        default max_indices (fwd_max_indices s)).

Definition unknown_mode (mode : Z) : error :=
  TorchCheck "Unknown mode for embedding_bag_backward_dpcpp " mode.

Definition _embedding_bag_dense_backward_dpcpp
    (grad_ : Tensor T) (indices offsets : list Z) (offset2bag : option (list Z))
    (bag_size_ : list Z) (max_indices : list Z) (num_weights : Z)
    (scale_grad_by_freq : bool) (mode : Z)
    (per_sample_weights : option (Tensor T)) : M (Tensor T) :=
  let grad := contiguous grad_ in
  if decide (mode = MODE_SUM ∨ mode = MODE_MEAN) then
    (if decide (mode = MODE_MEAN ∧ is_Some per_sample_weights)
     then throw InternalAssert else mret tt);;
    embedding_bag_backward_dpcpp_sum_avg grad indices offsets offset2bag
      bag_size_ num_weights scale_grad_by_freq mode per_sample_weights
  else if decide (mode = MODE_MAX) then
    (if decide (is_Some per_sample_weights)
     then throw InternalAssert else mret tt);;
    embedding_bag_backward_dpcpp_max grad max_indices num_weights
  else throw (unknown_mode mode).



End Kernels.

Arguments fwd_store T : clear implicits.
Arguments fwd_state T : clear implicits.
Arguments bag_acc T : clear implicits.

End EmbeddingBag.

(** ** Reductions *)

(** Modelled from the spec: [dpcpp_reduce_kernel] is defined in Reduce.h, which
    is not embedded here.  The specification describes it as a generic
    reduction that feeds every element of the iteration to the operation
    exactly once, by [reduce] into an accumulator started at the identity and
    by [combine] of partial accumulators, in an order of its own choosing.  A
    [plan] is one such order. *)
Module Reduce.

Inductive plan (A : Type) : Type :=
  | Ident                                  (* the identity value *)
  | Step (p : plan A) (idx : Z) (x : A)    (* reduce(acc, x, idx) *)
  | Merge (p q : plan A).                  (* combine(acc1, acc2) *)
Arguments Ident {A}.
Arguments Step {A}.
Arguments Merge {A}.

Fixpoint elements {A} (p : plan A) : list A :=
  match p with
  | Ident => []
  | Step p _ x => elements p ++ [x]
  | Merge p q => elements p ++ elements q
  end.

Fixpoint run {A Acc} (reduce : Acc → A → Z → Acc) (combine : Acc → Acc → Acc)
    (ident : Acc) (p : plan A) : Acc :=
  match p with
  | Ident => ident
  | Step p idx x => reduce (run reduce combine ident p) x idx
  | Merge p q =>
      combine (run reduce combine ident p) (run reduce combine ident q)
  end.

(** The plan of a single work item going through the elements in order. *)
Fixpoint sequential_from {A} (p : plan A) (idx : Z) (l : list A) : plan A :=
  match l with
  | [] => p
  | x :: l' => sequential_from (Step p idx x) (idx + 1) l'
  end.

Definition sequential {A} (l : list A) : plan A := sequential_from Ident 0 l.

(** Two work items, one half of the elements each, then a combine. *)
Definition two_halves {A} (l : list A) : plan A :=
  let n := (length l / 2)%nat in
  Merge (sequential (take n l)) (sequential_from Ident (Z.of_nat n) (drop n l)).

(** What the code hands to [dpcpp_reduce_kernel]. *)
Record ops (A Acc : Type) : Type := mkOps {
  op_reduce : Acc → A → Z → Acc;
  op_combine : Acc → Acc → Acc;
  op_project : Acc → Acc
}.
Arguments mkOps {A Acc}.
Arguments op_reduce {A Acc}.
Arguments op_combine {A Acc}.
Arguments op_project {A Acc}.

Definition dpcpp_reduce_kernel {A Acc} (schedule : list A → plan A)
    (input : list A) (o : ops A Acc) (ident : Acc) : Acc :=
  op_project o (run (op_reduce o) (op_combine o) ident (schedule input)).

(** [func_wrapper<acc_t>(f)]: a binary functor used for both [reduce] and
    [combine]. *)
Definition func_wrapper {A} (f : A → A → A) : ops A A :=
  mkOps (λ acc x _, f acc x) f (λ acc, acc).

End Reduce.

(** *** ReduceOpAminmax.cpp *)

Module ReduceOpAminmax.
Import Reduce.

(** The part of [Numerics<T>] and of [std::numeric_limits<T>] the min/max
    reduction uses. *)
Class Numerics (T : Type) : Type := {
  isnan : T → bool;
  less : T → T → bool;     (* operator< *)
  greater : T → T → bool;  (* operator> *)
  numeric_max : T;         (* std::numeric_limits<T>::max() *)
  numeric_lowest : T       (* std::numeric_limits<T>::lowest() *)
}.

(** IEEE comparison: anything compared with a NaN is false. *)
Class NumericsNaN (T : Type) `{Numerics T} : Prop := {
  less_nan_r : ∀ a b : T, isnan b = true → less a b = false;
  greater_nan_r : ∀ a b : T, isnan b = true → greater a b = false
}.

Section MinMaxOps.
Context {acc_scalar_t : Type} `{Numerics acc_scalar_t}.

Definition acc_t : Type := acc_scalar_t * acc_scalar_t.

Definition combine (a b : acc_t) : acc_t :=
  let min_val := if isnan a.1 || less a.1 b.1 then a.1 else b.1 in
  let max_val := if isnan a.2 || greater a.2 b.2 then a.2 else b.2 in
  (min_val, max_val).

Definition reduce (acc : acc_t) (data : acc_scalar_t) (idx : Z) : acc_t :=
  combine acc (data, data).

Definition project (acc : acc_t) : acc_t := acc.

Definition sg_shfl_down (arg : acc_t) (offset : Z) : acc_t :=
  (* FIXME: *)
  arg.

Definition translate_idx (acc : acc_t) (idx : Z) : acc_t := acc.

Definition MinMaxOps : ops acc_scalar_t acc_t := mkOps reduce combine project.

(** The order in which the reduction framework consumes its input. *)
Variable schedule : list acc_scalar_t → plan acc_scalar_t.

Definition _min_max_values_kernel_dpcpp_impl (iter : list acc_scalar_t) : acc_t :=
  dpcpp_reduce_kernel schedule iter MinMaxOps (numeric_max, numeric_lowest).

(** Modelled from the spec: [IPEX_DISPATCH_ALL_TYPES_AND2] comes from
    comm/ATDispatch.h, which is not embedded here; it runs its body for the
    integral and floating element types and the two named extra ones. *)
Definition IPEX_DISPATCH_ALL_TYPES_AND2 (extra1 extra2 : ScalarType)
    (dt : ScalarType) (name : string) : M ScalarType :=
  if decide (dt ∈ [Byte; Char; Short; Int; Long; Float; Double; extra1; extra2])
  then mret dt else throw (NotImplemented name dt).

Definition aminmax_kernel (dt : ScalarType) (iter : list acc_scalar_t) : M acc_t :=
  IPEX_DISPATCH_ALL_TYPES_AND2 Half BFloat16 dt "aminmax_elementwise_dpcpp";;
  submit K_reduce_minmax;;
  mret (_min_max_values_kernel_dpcpp_impl iter).

Definition is_complex (dt : ScalarType) : bool :=
  bool_decide (dt = ComplexFloat ∨ dt = ComplexDouble).

(** [_aminmax(self)], the reduction over the whole tensor; [self] is given by
    its element type and its elements. *)
Definition _aminmax (dt : ScalarType) (self : list acc_scalar_t) : M acc_t :=
  if is_complex dt then
    throw (TorchCheck "max is not yet implemented for complex tensors." 0)
  else if decide (length self = 0%nat) then
    throw (TorchCheck "operation does not have an identity." 0)
  else aminmax_kernel dt self.

End MinMaxOps.

(** Double-precision floats. *)
Global Instance float_Numerics : Numerics float := {|
  isnan := PrimFloat.is_nan;
  less := PrimFloat.ltb;
  greater := λ a b, PrimFloat.ltb b a;
  numeric_max := 0x1.fffffffffffffp+1023%float;
  numeric_lowest := (-0x1.fffffffffffffp+1023)%float
|}.

(** A type without NaN. *)
Global Instance Z_Numerics : Numerics Z := {|
  isnan := λ _, false;
  less := Z.ltb;
  greater := Z.gtb;
  numeric_max := 2 ^ 63 - 1;
  numeric_lowest := - 2 ^ 63
|}.

End ReduceOpAminmax.

(** *** ReduceOpLogical.cpp *)

Module ReduceOpLogical.
Import Reduce.

(** [static_cast<bool>(a)] of a numeric element, and a [bool] stored back as
    a number. *)
Definition to_bool (a : Z) : bool := negb (a =? 0).
Definition of_bool (b : bool) : Z := if b then 1 else 0.

Definition ReduceAndOps (a b : Z) : Z := of_bool (to_bool a && to_bool b).
Definition ReduceOrOps (a b : Z) : Z := of_bool (to_bool a || to_bool b).

(** A reduction iterator: the element type and, for every cell of the result,
    the input elements reduced into it. *)
Record TensorIterator : Type := mkIter {
  iter_dtype : ScalarType;
  iter_slices : list (list Z)
}.

Definition numel (iter : TensorIterator) : Z :=
  Z.of_nat (length (concat (iter_slices iter))).

Section Logical.

(** The order in which the reduction framework consumes its input. *)
Variable schedule : list Z → plan Z.

Definition and_kernel (iter : TensorIterator) : list Z :=
  (λ slice, dpcpp_reduce_kernel schedule slice (func_wrapper ReduceAndOps)
              (of_bool true)) <$> iter_slices iter.

Definition or_kernel (iter : TensorIterator) : list Z :=
  (λ slice, dpcpp_reduce_kernel schedule slice (func_wrapper ReduceOrOps)
              (of_bool false)) <$> iter_slices iter.

(** Modelled from the spec: [IPEX_DISPATCH_ALL_TYPES_AND_COMPLEX_AND3] comes
    from comm/ATDispatch.h, which is not embedded here; it accepts the
    integral, floating and complex element types and the three named ones. *)
Definition IPEX_DISPATCH_ALL_TYPES_AND_COMPLEX_AND3 (e1 e2 e3 : ScalarType)
    (dt : ScalarType) (name : string) : M ScalarType :=
  if decide (dt ∈ [Byte; Char; Short; Int; Long; Float; Double;
                   ComplexFloat; ComplexDouble; e1; e2; e3])
  then mret dt else throw (NotImplemented name dt).

(** [result.fill_(v)]. *)
Definition fill_ (result : list Z) (v : Z) : list Z :=
  replicate (length result) v.

Definition _all (result : list Z) (iter : TensorIterator) : M (list Z) :=
  if decide (numel iter = 0) then mret (fill_ result 1)
  else
    IPEX_DISPATCH_ALL_TYPES_AND_COMPLEX_AND3 Half BFloat16 Bool (iter_dtype iter)
      "all";;
    submit K_reduce_and;;
    mret (and_kernel iter).

Definition _any (result : list Z) (iter : TensorIterator) : M (list Z) :=
  if decide (numel iter = 0) then mret (fill_ result 0)
  else
    IPEX_DISPATCH_ALL_TYPES_AND_COMPLEX_AND3 Half BFloat16 Bool (iter_dtype iter)
      "any";;
    submit K_reduce_or;;
    mret (or_kernel iter).

(** [all(self)] and [any(self)], the reductions over the whole tensor: the
    result has one cell, allocated uninitialised, and the iterator one slice
    holding every element of [self]. *)
Definition all (junk : Z) (dt : ScalarType) (self : list Z) : M (list Z) :=
  _all [junk] (mkIter dt [self]).

Definition any (junk : Z) (dt : ScalarType) (self : list Z) : M (list Z) :=
  _any [junk] (mkIter dt [self]).

End Logical.
End ReduceOpLogical.

(** ** Vocabulary of the properties *)

Module Segments.

(** The delimiters of segment [k]: its start offset and the next segment's,
    or the stream length for the last one. *)
Definition seg_begin (offs : list Z) (k : Z) : Z := ld 0 offs k.
Definition seg_end (offs : list Z) (n numel : Z) (k : Z) : Z :=
  if decide (k = n - 1) then numel else ld 0 offs (k + 1).

(** Position [p] of the stream starts a run. *)
Definition is_boundary (l : list Z) (p : Z) : Prop :=
  p = 0 ∨ ld 0 l p ≠ ld 0 l (p - 1).

Global Instance is_boundary_dec l p : Decision (is_boundary l p).
Proof. unfold is_boundary. apply _. Defined.

(** The positions where a run starts, in increasing order. *)
Definition boundaries (l : list Z) : list Z :=
  filter (is_boundary l) (seqZ 0 (Z.of_nat (length l))).

(** [offs] holds [n] strictly increasing segment starts of a stream of
    [numel] positions, the first at 0. *)
Record segmentation (offs : list Z) (n numel : Z) : Prop := mkSegmentation {
  seg_count : 1 ≤ n;
  seg_fits : n ≤ Z.of_nat (length offs);
  seg_first : ld 0 offs 0 = 0;
  seg_step : ∀ k, 0 ≤ k < n - 1 → ld 0 offs k < ld 0 offs (k + 1);
  seg_last : ld 0 offs (n - 1) < numel
}.

(** A list whose entries grow strictly with the position. *)
Definition increasing (L : list Z) : Prop :=
  ∀ (i j : nat) a b, L !! i = Some a → L !! j = Some b → (i < j)%nat → a < b.

(** The splitting of a segmentation into partial segments: the count of
    every segment, the scanned counts as a segmentation of the flattened
    array, and the start offsets laid out in it. *)
Record splitting (offs : list Z) (n numel : Z) (p : EmbeddingBag.partials)
    : Prop := mkSplitting {
  sp_len_pps : Z.of_nat (length (EmbeddingBag.partials_per_segment p)) = n;
  sp_count : ∀ k, 0 ≤ k < n →
    ld 0 (EmbeddingBag.partials_per_segment p) k
    = CeilDiv (seg_end offs n numel k - seg_begin offs k)
        EmbeddingBag.NROWS_PER_THREAD;
  sp_scan :
    segmentation (EmbeddingBag.partials_per_segment_offset p) n
      (EmbeddingBag.num_of_partial_segments p);
  sp_scan_end : ∀ k, 0 ≤ k < n →
    seg_end (EmbeddingBag.partials_per_segment_offset p) n
      (EmbeddingBag.num_of_partial_segments p) k
    = ld 0 (EmbeddingBag.partials_per_segment_offset p) k
      + ld 0 (EmbeddingBag.partials_per_segment p) k;
  sp_total : EmbeddingBag.num_of_partial_segments p ≤ numel;
  sp_len_pso :
    Z.of_nat (length (EmbeddingBag.partial_segment_offset p))
    = EmbeddingBag.num_of_partial_segments p;
  sp_start : ∀ k i, 0 ≤ k < n → 0 ≤ i < ld 0 (EmbeddingBag.partials_per_segment p) k →
    ld 0 (EmbeddingBag.partial_segment_offset p)
      (ld 0 (EmbeddingBag.partials_per_segment_offset p) k + i)
    = ld 0 offs k + i * EmbeddingBag.NROWS_PER_THREAD
}.

End Segments.

Module Sums.
Section Sums.
Context {T : Type} `{Scalar T}.

(** The sum of a list of scalars. *)
Definition ssum (l : list T) : T := foldr sadd szero l.

(** The accumulation loop
    [weight = 0; for (i = lo; i < hi; ++i) weight += term(i);]. *)
Definition accumulate (term : Z → T) (lo hi : Z) : T :=
  fold_left (λ weight i, sadd weight (term i)) (for_each lo hi) szero.

End Sums.
End Sums.

Module Terms.
Import EmbeddingBag Sums Segments.
Section Terms.
Context {T : Type} `{Scalar T}.

(** What one lookup contributes to feature [f] in [compute_grad_weight_bags]. *)
Definition bags_term (indices : list Z) (gradOutput : list T) (offset2bag : list Z)
    (count : option (list Z)) (stride : Z) (mode_mean : bool) (bag_size : list Z)
    (per_sample_weights : option (list T)) (per_sample_weights_stride : Z)
    (f idx : Z) : T :=
  let orig_row := ld 0 indices idx in
  let seq_number := ld 0 offset2bag orig_row in
  let scale :=
    match count with
    | Some c => sdiv sone (of_int (ld 0 c idx))
    | None => sone
    end in
  let scale :=
    match per_sample_weights with
    | Some w => smul scale (ld szero w (idx * per_sample_weights_stride))
    | None => scale
    end in
  let gradient := ld szero gradOutput (seq_number * stride + f) in
  let gradient :=
    if mode_mean then sdiv gradient (of_int (ld 0 bag_size seq_number))
    else gradient in
  smul gradient scale.

(** What one lookup contributes to feature [f] in [compute_grad_weight]. *)
Definition plain_term (indices : list Z) (grad_output : list T)
    (count : option (list Z)) (stride : Z) (f idx : Z) : T :=
  let target_row := ld 0 indices idx in
  let scale :=
    match count with
    | Some c => sdiv sone (of_int (ld 0 c idx))
    | None => sone
    end in
  smul (ld szero grad_output (target_row * stride + f)) scale.

(** The common head of the three gradient kernels: from the global id to the
    segment [id] and the feature [startFeature], or nothing to do. *)
Definition grid_kfn {A} (wg stride ns : Z) (body : Z → Z → list A) (gid0 : Z)
    : list A :=
  let stride_warped := stride_warped_of wg stride in
  let gid := to_int gid0 in
  let id := to_int (cdiv gid stride_warped) in
  let startFeature := to_int (cmod gid stride_warped) in
  if decide (startFeature >= stride) then []
  else if decide (id >= ns) then []
  else body id startFeature.

(** The store of the [sum_and_scatter] work item of segment [id] and
    feature [f]. *)
Definition scatter_body (stride : Z) (input : list Z) (offs : list Z)
    (gwps : list T) (ppso : list Z) (n nps padding_idx : Z) (id f : Z)
    : list (Z * T) :=
  let target_row := ld 0 input (seg_begin offs id) in
  if decide (target_row ≠ padding_idx) then
    [(target_row * stride + f,
      accumulate (λ j, ld szero gwps (j * stride + f))
        (seg_begin ppso id) (seg_end ppso n nps id))]
  else [].

(** The element types the sum and mean backward is instantiated for. *)
Definition backward_dtype (dt : ScalarType) : Prop :=
  dt = Float ∨ dt = Double ∨ dt = BFloat16.

(** The gradient row a lookup at position [q] of the stream is routed from:
    the row of its bag when [offset2bag] is given, row [q] otherwise. *)
Definition route (offset2bag : option (list Z)) (q : Z) : Z :=
  match offset2bag with Some o => ld 0 o q | None => q end.

(** [n] copies of [v] added up. *)
Definition times (n : nat) (v : T) : T := ssum (replicate n v).

(** [compute_grad_weight_bags] reads the per-sample weights, when given,
    through a pointer of the gradient's element type. *)
Definition weights_dtype_ok (dt : ScalarType) (offset2bag : option (list Z))
    (per_sample_weights : option (Tensor T)) : Prop :=
  match offset2bag with
  | Some _ =>
      match per_sample_weights with
      | Some w => dtype w = dt
      | None => True
      end
  | None => True
  end.

(** The partial sums [grad_weight_per_segment] of a run. *)
Definition partial_sums (wg : Z) (uninit_s : nat → T)
    (grad : Tensor T) (orig_indices : list Z)
    (count : option (list Z)) (numel stride : Z) (mode_mean : bool)
    (offset2bag : option (list Z)) (bag_size : list Z)
    (per_sample_weights : option (Tensor T)) (p : partials) : list T :=
  let buf := uninit_s <$> seq 0 (Z.to_nat (num_of_partial_segments p * stride)) in
  match offset2bag with
  | Some offset2bag =>
      parallel_for (total_items_of wg stride (num_of_partial_segments p))
        (compute_grad_weight_bags_kfn wg orig_indices (data grad) offset2bag
           count numel stride mode_mean bag_size (data <$> per_sample_weights)
           (match per_sample_weights with Some w => tstride0 w | None => 0 end)
           (partial_segment_offset p) (num_of_partial_segments p))
        buf
  | None =>
      parallel_for (total_items_of wg stride (num_of_partial_segments p))
        (compute_grad_weight_kfn wg orig_indices (data grad) count numel stride
           (partial_segment_offset p) (num_of_partial_segments p))
        buf
  end.

End Terms.
End Terms.

Module Pooling.
Import EmbeddingBag Sums.

(** Both pooling kernels run 1024 work groups of [L0 x L1] work items; work
    item [(g0, l0, l1)] goes through the chunks [g0 * L1 + l1],
    [g0 * L1 + l1 + 1024 * L1], ... below [numChunks], and works on feature
    [(chunk % chunksPerBag) * L0 + l0] of bag [chunk / chunksPerBag]. *)
Definition chunks_of (numChunks : Z) (item : nd_item2) : list Z :=
  for_range (get_group0 item * get_local_range1 item + get_local_id1 item)
    numChunks (get_group_range0 item * get_global_range1 item).

(** The pairs (chunk, local id 0) such a kernel works on, work item after
    work item. *)
Definition chunk_pairs (L0 L1 numChunks : Z) : list (Z * Z) :=
  nd_range2 (1024 * L0) L1 L0 L1
  ≫= (λ item, chunks_of numChunks item
              ≫= (λ chunk, [(chunk, get_local_id0 item)])).

(** What is done for chunk [c] by a work item of local id [l], when [body]
    is what is done for a bag and a feature. *)
Definition chunk_cell {A} (body : Z → Z → list A) (size L0 chunksPerBag : Z)
    (c l : Z) : list A :=
  let featureDim := cmod c chunksPerBag * L0 + l in
  if decide (featureDim < size) then body (cdiv c chunksPerBag) featureDim
  else [].

Section Pooling.
Context {T : Type} `{Scalar T}.

(** The lookups of bag [bag] are the positions [bag_begin .. bag_end - 1] of
    the index stream. *)
Definition bag_begin (offsets : list Z) (bag : Z) : Z := ld 0 offsets bag.
Definition bag_end (offsets : list Z) (numIndices numBags bag : Z) : Z :=
  if decide (bag < numBags - 1) then ld 0 offsets (bag + 1) else numIndices.

(** The weight value the lookup at position [emb] reads for feature [f]. *)
Definition lookup_value (input : list Z) (weight : list T)
    (weight_stide0 weight_stride1 f emb : Z) : T :=
  ld szero weight (f * weight_stride1 + ld 0 input emb * weight_stide0).

(** [e] is the first position of [lo .. hi - 1] that attains the maximum of
    [W]: no position has a greater value, and every earlier position has a
    smaller one. *)
Definition first_argmax (W : Z → T) (lo hi e : Z) : Prop :=
  lo ≤ e < hi
  ∧ (∀ e', lo ≤ e' < hi → sgtb (W e') (W e) = false)
  ∧ (∀ e', lo ≤ e' < e → sgtb (W e) (W e') = true).

(** The element types the forward pass is instantiated for. *)
Definition forward_dtype (dt : ScalarType) : Prop :=
  dt = Float ∨ dt = Double ∨ dt = Half ∨ dt = BFloat16.

(** The forward pass reads the per-sample weights, when given, through a
    pointer of the weight's element type. *)
Definition per_sample_weights_ok (dt : ScalarType)
    (per_sample_weights : option (Tensor T)) : Prop :=
  match per_sample_weights with
  | Some w => dtype w = dt
  | None => True
  end.

(** What the loop over bag [bag] for feature [f] leaves in [maxWord], in max
    mode. *)
Definition recorded (uninit_max : T) (input offsets : list Z) (weight : list T)
    (numIndices numBags weight_stide0 weight_stride1 : Z)
    (per_sample_weights : option (list T)) (per_sample_weights_stride : Z)
    (bag f : Z) : Z :=
  maxWord
    (fold_left
       (bag_step input weight (f * weight_stride1) weight_stide0 MODE_MAX
          per_sample_weights per_sample_weights_stride (bag_begin offsets bag))
       (for_each (bag_begin offsets bag) (bag_end offsets numIndices numBags bag))
       (mkAcc szero uninit_max 0 (-1))).

(** The addition of the max backward for bag [bag] and feature [f]. *)
Definition add_of (max_indices : list Z) (gradOutput : list T) (stride : Z)
    (bag f : Z) : list (Z * T) :=
  let word_idx := ld 0 max_indices (bag * stride + f) in
  if decide (word_idx >= 0) then
    [(word_idx * stride + f, ld szero gradOutput (bag * stride + f))]
  else [].

(** What the lookup at position [emb] adds to feature [f] of its bag in sum
    and mean mode: the weight value, times the per-sample weight when
    given. *)
Definition pooled_term (input : list Z) (weight : list T)
    (weight_stide0 weight_stride1 : Z) (per_sample_weights : option (list T))
    (per_sample_weights_stride : Z) (f emb : Z) : T :=
  let weightValue := lookup_value input weight weight_stide0 weight_stride1 f emb in
  match per_sample_weights with
  | Some w => smul (ld szero w (emb * per_sample_weights_stride)) weightValue
  | None => weightValue
  end.

(** The stores of the forward kernel for bag [bag] and feature [featureDim]:
    the body of its chunk loop under [if (featureDim < featureSize)]. *)
Definition bag_stores (uninit_max : T) (input offsets : list Z) (weight : list T)
    (numIndices numBags featureSize weight_stide0 weight_stride1 mode : Z)
    (per_sample_weights : option (list T)) (per_sample_weights_stride : Z)
    (bag featureDim : Z) : list (fwd_store T) :=
  let weightFeat := featureDim * weight_stride1 in
  let begin := ld 0 offsets bag in
  let end_ :=
    if decide (bag < numBags - 1) then ld 0 offsets (bag + 1) else numIndices in
  let acc :=
    fold_left
      (bag_step input weight weightFeat weight_stide0 mode per_sample_weights
         per_sample_weights_stride begin)
      (for_each begin end_) (mkAcc szero uninit_max 0 (-1)) in
  let in_loop :=
    if decide (featureDim = 0) then
      (λ emb, St_offset2bag emb bag) <$> for_each begin end_
    else [] in
  let '(weightFeatSum, mean_stores) :=
    if decide (mode = MODE_MEAN) then
      if decide (end_ = begin) then (weightFeatSum acc, [St_bag_size bag 0])
      else (sdiv (weightFeatSum acc) (of_int (bag_size_ acc)),
            [St_bag_size bag (bag_size_ acc)])
    else (weightFeatSum acc, []) in
  let out_stores :=
    if decide (mode = MODE_MEAN ∨ mode = MODE_SUM) then
      [St_output (bag * featureSize + featureDim) weightFeatSum]
    else if decide (mode = MODE_MAX) then
      let weightFeatMax :=
        if decide (end_ = begin) then szero else weightFeatMax acc in
      [St_max_indices_ptr (bag * featureSize + featureDim) (maxWord acc);
       St_output (bag * featureSize + featureDim) weightFeatMax]
    else [] in
  in_loop ++ mean_stores ++ out_stores.

(** The parts of a store of the forward kernel that go to [output], to
    [bag_size] and to [offset2bag]; outside max mode the placeholder of
    [max_indices_ptr] is the [offset2bag] buffer. *)
Definition output_store (w : fwd_store T) : list (Z * T) :=
  match w with
  | St_output i v => [(i, v)]
  | _ => []
  end.

Definition bag_size_store (w : fwd_store T) : list (Z * Z) :=
  match w with
  | St_bag_size i v => [(i, v)]
  | _ => []
  end.

Definition offset2bag_store (mode : Z) (w : fwd_store T) : list (Z * Z) :=
  match w with
  | St_offset2bag i v => [(i, v)]
  | St_max_indices_ptr i v => if decide (mode = MODE_MAX) then [] else [(i, v)]
  | _ => []
  end.

(** The part of a store of the forward kernel that goes to [max_indices]. *)
Definition max_store (w : fwd_store T) : list (Z * Z) :=
  match w with
  | St_max_indices_ptr i v => [(i, v)]
  | _ => []
  end.

(** One addition for every bag and feature with a recorded row: the gradient
    of the bag, to the recorded row. *)
Definition recorded_adds (max_indices : list Z) (gradOutput : list T)
    (stride numBags : Z) : list (Z * T) :=
  bag ← seqZ 0 numBags;
  f ← seqZ 0 stride;
  let word_idx := ld 0 max_indices (bag * stride + f) in
  if decide (word_idx >= 0) then
    [(word_idx * stride + f, ld szero gradOutput (bag * stride + f))]
  else [].

End Pooling.
End Pooling.

Module MinMaxTerms.
Import Reduce ReduceOpAminmax.

(** Both components of a (min, max) pair are NaN. *)
Definition both_nan {T} `{Numerics T} (acc : acc_t) : Prop :=
  isnan acc.1 = true ∧ isnan acc.2 = true.

(** The element types the min/max reduction is dispatched for. *)
Definition aminmax_dtype (dt : ScalarType) : Prop :=
  dt ∈ [Byte; Char; Short; Int; Long; Float; Double; Half; BFloat16].

(** The reduction framework feeds every element of its input to the
    operation once. *)
Definition feeds_all {A} (schedule : list A → plan A) : Prop :=
  ∀ l, elements (schedule l) ≡ₚ l.

End MinMaxTerms.

(** One sort that [std::sort] may be: insertion by key. *)
Module InsertionSort.

Fixpoint insert_by_key (x : Z * Z) (l : list (Z * Z)) : list (Z * Z) :=
  match l with
  | [] => [x]
  | y :: l' =>
      if decide (x.1 ≤ y.1) then x :: y :: l' else y :: insert_by_key x l'
  end.

Definition sort_by_key (l : list (Z * Z)) : list (Z * Z) :=
  foldr insert_by_key [] l.

End InsertionSort.

Module LogicalTerms.
Import ReduceOpLogical.

(** Every element converts to [true]; some element converts to [true]. *)
Definition all_true (l : list Z) : bool := forallb to_bool l.
Definition any_true (l : list Z) : bool := existsb to_bool l.

End LogicalTerms.

Module Frequency.

(** How often [x] occurs in [l]. *)
Definition occurrences (l : list Z) (x : Z) : Z :=
  Z.of_nat (length (filter (λ y, y = x) l)).

End Frequency.

Module Scaling.
Import EmbeddingBag Sums Terms Frequency.
Section Scaling.
Context {T : Type} `{Scalar T}.

(** The scale of the contributions to the row of index [r]: one over the
    number of its occurrences with frequency scaling, one without. *)
Definition freq_scale (scale_grad_by_freq : bool) (indices : list Z) (r : Z) : T :=
  if scale_grad_by_freq then sdiv sone (of_int (occurrences indices r))
  else sone.

(** What the lookup at position [q] of the stream contributes to feature [f]
    of the row of its index: the gradient of its row, divided by the size of
    its bag in mean mode when the bags are given, times the scale. *)
Definition contribution (grad : Tensor T) (offset2bag : option (list Z))
    (bag_size : list Z) (mode_mean : bool) (scale : T) (f q : Z) : T :=
  let gradient := ld szero (data grad) (route offset2bag q * size1 grad + f) in
  let gradient :=
    match offset2bag with
    | Some _ =>
        if mode_mean
        then sdiv gradient (of_int (ld 0 bag_size (route offset2bag q)))
        else gradient
    | None => gradient
    end in
  smul gradient scale.

(** What the lookup at position [idx] of the sorted stream adds to its
    partial sum, without per-sample weights. *)
Definition sorted_term (orig_indices : list Z) (grad : Tensor T)
    (offset2bag : option (list Z)) (count : option (list Z)) (mode_mean : bool)
    (bag_size : list Z) (f idx : Z) : T :=
  match offset2bag with
  | Some o =>
      bags_term orig_indices (data grad) o count (size1 grad) mode_mean bag_size
        None 0 f idx
  | None => plain_term orig_indices (data grad) count (size1 grad) f idx
  end.


End Scaling.
End Scaling.

(** * Properties *)

(** ** Machine integers, buffers and stores *)

Module MachFacts.

Lemma to_int_small x : - 2 ^ 31 ≤ x < 2 ^ 31 → to_int x = x.
Proof.
  intros Hx. unfold to_int.
  rewrite Z.mod_small; lia.
Qed.

Lemma cdiv_nonneg a b : 0 ≤ a → 0 < b → cdiv a b = a / b.
Proof. intros. unfold cdiv. apply Z.quot_div_nonneg; lia. Qed.

Lemma cmod_nonneg a b : 0 ≤ a → 0 < b → cmod a b = a mod b.
Proof. intros. unfold cmod. apply Z.rem_mod_nonneg; lia. Qed.

(** [CeilDiv] is the ceiling of the quotient. *)
Lemma CeilDiv_spec a b :
  0 ≤ a → 0 < b → b * (CeilDiv a b - 1) < a ≤ b * CeilDiv a b.
Proof.
  intros Ha Hb. unfold CeilDiv. rewrite cdiv_nonneg by lia.
  pose proof (Z.div_mod (a + b - 1) b ltac:(lia)).
  pose proof (Z.mod_pos_bound (a + b - 1) b Hb). lia.
Qed.

Lemma CeilDiv_unique a b q :
  0 ≤ a → 0 < b → b * (q - 1) < a ≤ b * q → CeilDiv a b = q.
Proof.
  intros Ha Hb Hq. pose proof (CeilDiv_spec a b Ha Hb). nia.
Qed.

Lemma CeilDiv_mul a b : 0 ≤ a → 0 < b → CeilDiv (a * b) b = a.
Proof. intros. apply CeilDiv_unique; nia. Qed.

Lemma ld_lookup {A} (d : A) buf i v :
  0 ≤ i → buf !! Z.to_nat i = Some v → ld d buf i = v.
Proof. intros Hi Hv. unfold ld. rewrite decide_True, Hv; done. Qed.

Lemma ld_lookup_nat {A} (d : A) buf (n : nat) v :
  buf !! n = Some v → ld d buf (Z.of_nat n) = v.
Proof. intros Hv. apply ld_lookup; [lia|]. by rewrite Nat2Z.id. Qed.

Lemma lookup_ld {A} (d : A) buf i :
  0 ≤ i < Z.of_nat (length buf) → buf !! Z.to_nat i = Some (ld d buf i).
Proof.
  intros Hi. destruct (lookup_lt_is_Some_2 buf (Z.to_nat i)) as [v Hv]; [lia|].
  rewrite Hv. f_equal. symmetry. apply ld_lookup; [lia | done].
Qed.

Lemma ld_app_l {A} (d : A) l1 l2 i :
  0 ≤ i < Z.of_nat (length l1) → ld d (l1 ++ l2) i = ld d l1 i.
Proof.
  intros Hi. unfold ld. rewrite !decide_True by lia.
  rewrite lookup_app_l by lia. done.
Qed.

Lemma ld_fmap_seqZ {A} (d : A) (f : Z → A) lo n i :
  0 ≤ i < n → ld d (f <$> seqZ lo n) i = f (lo + i).
Proof.
  intros Hi. apply ld_lookup; [lia|].
  rewrite list_lookup_fmap, lookup_seqZ_lt by lia.
  simpl. by rewrite Z2Nat.id by lia.
Qed.

Lemma ld_replicate {A} (d : A) n x i :
  0 ≤ i < Z.of_nat n → ld d (replicate n x) i = x.
Proof.
  intros Hi. apply ld_lookup; [lia|]. apply lookup_replicate_2. lia.
Qed.

Lemma length_st {A} (buf : list A) i v : length (st buf i v) = length buf.
Proof. unfold st. case_decide; [apply length_insert | done]. Qed.

Lemma ld_st_eq {A} (d : A) buf i v :
  0 ≤ i < Z.of_nat (length buf) → ld d (st buf i v) i = v.
Proof.
  intros Hi. unfold st. rewrite decide_True by lia.
  apply ld_lookup; [lia|]. apply list_lookup_insert_eq. lia.
Qed.

Lemma ld_st_ne {A} (d : A) buf i j v : i ≠ j → ld d (st buf i v) j = ld d buf j.
Proof.
  intros Hne. unfold st, ld. case_decide; [|done].
  case_decide; [|done]. rewrite list_lookup_insert_ne; [done | lia].
Qed.

Lemma length_apply_writes {A} (ws : list (Z * A)) buf :
  length (apply_writes ws buf) = length buf.
Proof.
  revert buf. induction ws as [|w ws IH]; intros buf; [done|].
  unfold apply_writes in *. simpl. rewrite IH. apply length_st.
Qed.

Lemma apply_writes_snoc {A} (ws : list (Z * A)) w buf :
  apply_writes (ws ++ [w]) buf = store (apply_writes ws buf) w.
Proof. unfold apply_writes. by rewrite fold_left_app. Qed.

(** A cell no store addresses keeps its content. *)
Lemma ld_apply_writes_other {A} (d : A) ws buf i :
  (∀ w, w ∈ ws → w.1 ≠ i) → ld d (apply_writes ws buf) i = ld d buf i.
Proof.
  induction ws as [|w ws IH] using rev_ind; intros Hws; [done|].
  rewrite apply_writes_snoc. unfold store.
  rewrite ld_st_ne by (apply Hws, elem_of_app; right; by apply list_elem_of_singleton).
  apply IH. intros w' Hw'. apply Hws, elem_of_app. by left.
Qed.

(** A cell whose stores all carry [v] holds [v] in the end. *)
Lemma ld_apply_writes_same {A} (d : A) ws buf i v :
  0 ≤ i < Z.of_nat (length buf) →
  (∃ w, w ∈ ws ∧ w.1 = i) →
  (∀ w, w ∈ ws → w.1 = i → w.2 = v) →
  ld d (apply_writes ws buf) i = v.
Proof.
  intros Hi. induction ws as [|w ws IH] using rev_ind; intros [w0 [Hw0 Hw0i]] Hall.
  { by apply elem_of_nil in Hw0. }
  rewrite apply_writes_snoc. unfold store.
  destruct (decide (w.1 = i)) as [Heq|Hne].
  - rewrite Heq, ld_st_eq by (rewrite length_apply_writes; lia).
    apply Hall; [|done]. apply elem_of_app; right. by apply list_elem_of_singleton.
  - rewrite ld_st_ne by done. apply IH.
    + exists w0. split; [|done]. apply elem_of_app in Hw0 as [?|Hl]; [done|].
      apply list_elem_of_singleton in Hl. congruence.
    + intros w' Hw'. apply Hall, elem_of_app. by left.
Qed.

Lemma elem_of_for_each lo hi i : i ∈ for_each lo hi ↔ lo ≤ i < hi.
Proof. unfold for_each. rewrite elem_of_seqZ. lia. Qed.

Lemma for_each_nil lo hi : hi ≤ lo → for_each lo hi = [].
Proof. intros. unfold for_each. apply seqZ_nil. lia. Qed.

Lemma for_each_split lo mid hi :
  lo ≤ mid ≤ hi → for_each lo hi = for_each lo mid ++ for_each mid hi.
Proof.
  intros Hm. unfold for_each.
  replace (hi - lo) with ((mid - lo) + (hi - mid)) by lia.
  rewrite seqZ_app by lia. do 2 f_equal; lia.
Qed.

Lemma for_each_cons lo hi : lo < hi → for_each lo hi = lo :: for_each (lo + 1) hi.
Proof.
  intros. unfold for_each. rewrite seqZ_cons by lia. do 2 f_equal; lia.
Qed.

End MachFacts.

Import MachFacts Segments.

Module SegmentFacts.
Import Segments PSTL.

Lemma filter_ext_in {A} (P Q : A → Prop) `{!∀ x, Decision (P x)} `{!∀ x, Decision (Q x)}
    (l : list A) :
  (∀ x, x ∈ l → P x ↔ Q x) → filter P l = filter Q l.
Proof.
  induction l as [|x l IH]; intros Hl; [done|].
  rewrite !filter_cons.
  rewrite IH by (intros y Hy; apply Hl; by right).
  destruct (decide (P x)) as [HP|HP], (decide (Q x)) as [HQ|HQ]; try done;
    exfalso; apply (Hl x) in HP || apply (Hl x) in HQ; try done; by left.
Qed.

Lemma increasing_cons a L :
  (∀ x, x ∈ L → a < x) → increasing L → increasing (a :: L).
Proof.
  intros Ha HL i j x y Hi Hj Hij.
  destruct j as [|j]; [lia|]. simpl in Hj.
  destruct i as [|i]; simpl in Hi.
  - injection Hi as <-. apply Ha. by eapply list_elem_of_lookup_2.
  - eapply HL; eauto. lia.
Qed.

Lemma increasing_filter_seqZ (P : Z → Prop) `{!∀ x, Decision (P x)} s (n : nat) :
  increasing (filter P (seqZ s (Z.of_nat n))).
Proof.
  revert s. induction n as [|n IH]; intros s.
  { intros i j a b Hi. by destruct i. }
  rewrite seqZ_cons by lia. rewrite filter_cons.
  replace (Z.pred (Z.of_nat (S n))) with (Z.of_nat n) by lia.
  destruct (decide (P s)); [|apply IH].
  apply increasing_cons; [|apply IH].
  intros x Hx. apply list_elem_of_filter in Hx as [_ Hx].
  apply elem_of_seqZ in Hx. lia.
Qed.

Lemma increasing_le L (i j : nat) a b :
  increasing L → L !! i = Some a → L !! j = Some b → a < b → (i < j)%nat.
Proof.
  intros HL Hi Hj Hab. destruct (decide (i < j)%nat) as [|Hge]; [done|].
  destruct (decide (i = j)) as [->|Hne]; [rewrite Hi in Hj; injection Hj; lia|].
  pose proof (HL j i b a Hj Hi ltac:(lia)). lia.
Qed.

(** The mask of [adjacent_difference], zipped with the positions and
    compacted, is the list of the positions where the value changes. *)
Lemma compaction_from prev (l : list Z) s :
  0 ≤ s →
  filter (λ x, x ≠ -1)
    (transform (λ d idx, if decide (d ≠ 0) then idx else -1)
       (adjacent_difference_from (λ lhs rhs, if decide (lhs ≠ rhs) then 1 else 0) prev l)
       (seqZ s (Z.of_nat (length l))))
  = filter (λ p, ld 0 (prev :: l) (p - s + 1) ≠ ld 0 (prev :: l) (p - s))
      (seqZ s (Z.of_nat (length l))).
Proof.
  revert prev s. induction l as [|y r IH]; intros prev s Hs; [done|].
  cbn [length adjacent_difference_from].
  rewrite seqZ_cons by lia.
  replace (Z.pred (Z.of_nat (S (length r)))) with (Z.of_nat (length r)) by lia.
  unfold transform in *. cbn [zip_with]. rewrite !filter_cons.
  rewrite (IH y (Z.succ s)) by lia.
  replace (s - s + 1) with 1 by lia. replace (s - s) with 0 by lia.
  change (ld 0 (prev :: y :: r) 1) with y. change (ld 0 (prev :: y :: r) 0) with prev.
  assert (Htail : filter (λ p, ld 0 (y :: r) (p - Z.succ s + 1) ≠ ld 0 (y :: r) (p - Z.succ s))
                    (seqZ (Z.succ s) (Z.of_nat (length r)))
                = filter (λ p, ld 0 (prev :: y :: r) (p - s + 1) ≠ ld 0 (prev :: y :: r) (p - s))
                    (seqZ (Z.succ s) (Z.of_nat (length r)))).
  { apply filter_ext_in. intros p Hp. apply elem_of_seqZ in Hp.
    assert (Hshift : ∀ i, 0 ≤ i → ld 0 (prev :: y :: r) (i + 1) = ld 0 (y :: r) i).
    { intros i Hi. unfold ld. rewrite !decide_True by lia.
      replace (Z.to_nat (i + 1)) with (S (Z.to_nat i)) by lia. done. }
    replace (p - s + 1) with ((p - Z.succ s + 1) + 1) by lia.
    replace (p - s) with ((p - Z.succ s) + 1) by lia.
    rewrite !Hshift by lia. done. }
  rewrite Htail.
  destruct (decide (y ≠ prev)) as [Hne|Heq].
  - rewrite !(decide_True (P := 1 ≠ 0)) by done.
    rewrite decide_True by lia. done.
  - rewrite !(decide_False (P := 0 ≠ 0)) by (intros Hc; by apply Hc).
    rewrite decide_False by (intros Hc; by apply Hc). done.
Qed.

Lemma segment_discovery_eq (l dst : list Z) :
  l ≠ [] →
  EmbeddingBag.segment_discovery l dst
  = mret (boundaries l ++ drop (length (boundaries l)) dst,
          Z.of_nat (length (boundaries l))).
Proof.
  intros Hl. destruct l as [|x r]; [done|].
  unfold EmbeddingBag.segment_discovery, ATen.assign1, adjacent_difference, iota, copy_if.
  cbn [length]. rewrite decide_True by lia. rewrite decide_False by lia.
  assert (Hkept :
    filter (λ x0, x0 ≠ -1)
      (transform (λ d idx, if decide (d ≠ 0) then idx else -1)
         (st (x :: adjacent_difference_from (λ lhs rhs, if decide (lhs ≠ rhs) then 1 else 0) x r) 0 1)
         (seqZ 0 (Z.of_nat (S (length r)))))
    = boundaries (x :: r)).
  { unfold st. rewrite decide_True by lia.
    change (Z.to_nat 0) with 0%nat. simpl (<[_:=_]> _).
    unfold boundaries. cbn [length].
    rewrite seqZ_cons by lia.
    replace (Z.pred (Z.of_nat (S (length r)))) with (Z.of_nat (length r)) by lia.
    unfold transform. cbn [zip_with]. rewrite !filter_cons.
    rewrite !(decide_True (P := 1 ≠ 0)) by done.
    rewrite (decide_True (P := 0 ≠ -1)) by done.
    rewrite (decide_True (P := is_boundary (x :: r) 0)) by (by left).
    f_equal. change (Z.succ 0) with 1.
    pose proof (compaction_from x r 1 ltac:(lia)) as Hc. unfold transform in Hc.
    rewrite Hc. apply filter_ext_in. intros p Hp. apply elem_of_seqZ in Hp.
    unfold is_boundary. replace (p - 1 + 1) with p by lia.
    split; [by right | intros [?|?]; [lia | done]]. }
  cbv [mbind M_bind mret M_ret ret].
  rewrite Hkept. done.
Qed.

(** *** What follows from a segmentation *)

Section Segmentation.
Variables (offs : list Z) (n numel : Z).
Hypothesis Hseg : segmentation offs n numel.

Lemma seg_mono k k' : 0 ≤ k → k < k' → k' < n → ld 0 offs k < ld 0 offs k'.
Proof.
  intros Hk Hlt Hk'.
  assert (H : ∀ d, 0 ≤ d → k + 1 + d < n → ld 0 offs k < ld 0 offs (k + 1 + d)).
  { apply (natlike_ind (λ d, k + 1 + d < n → ld 0 offs k < ld 0 offs (k + 1 + d))).
    - intros Hd. replace (k + 1 + 0) with (k + 1) by lia.
      apply (seg_step _ _ _ Hseg). lia.
    - intros d Hd IH Hn.
      pose proof (seg_step _ _ _ Hseg (k + 1 + d) ltac:(lia)) as Hs.
      replace (k + 1 + Z.succ d) with (k + 1 + d + 1) by lia. lia. }
  replace k' with (k + 1 + (k' - k - 1)) by lia. apply H; lia.
Qed.

Lemma seg_begin_nonneg k : 0 ≤ k < n → 0 ≤ seg_begin offs k.
Proof.
  intros Hk. unfold seg_begin. destruct (decide (k = 0)) as [->|Hne].
  - by rewrite (seg_first _ _ _ Hseg).
  - pose proof (seg_mono 0 k ltac:(lia) ltac:(lia) ltac:(lia)).
    rewrite (seg_first _ _ _ Hseg) in *. lia.
Qed.

Lemma seg_end_next k : 0 ≤ k < n - 1 → seg_end offs n numel k = seg_begin offs (k + 1).
Proof. intros Hk. unfold seg_end, seg_begin. by rewrite decide_False by lia. Qed.

Lemma seg_end_last : seg_end offs n numel (n - 1) = numel.
Proof. unfold seg_end. by rewrite decide_True. Qed.

Lemma seg_nonempty k : 0 ≤ k < n → seg_begin offs k < seg_end offs n numel k.
Proof.
  intros Hk. unfold seg_end, seg_begin. case_decide as Hlast.
  - subst k. apply (seg_last _ _ _ Hseg).
  - apply (seg_step _ _ _ Hseg). lia.
Qed.

Lemma seg_end_le k : 0 ≤ k < n → seg_end offs n numel k ≤ numel.
Proof.
  intros Hk. unfold seg_end. case_decide as Hlast; [lia|].
  destruct (decide (k + 1 = n - 1)) as [Heq|Hne].
  - rewrite Heq. pose proof (seg_last _ _ _ Hseg). lia.
  - pose proof (seg_mono (k + 1) (n - 1) ltac:(lia) ltac:(lia) ltac:(lia)).
    pose proof (seg_last _ _ _ Hseg). lia.
Qed.

Lemma seg_end_mono k k' :
  0 ≤ k → k < k' → k' < n → seg_end offs n numel k ≤ seg_begin offs k'.
Proof.
  intros Hk Hlt Hk'. rewrite seg_end_next by lia. unfold seg_begin.
  destruct (decide (k + 1 = k')) as [->|Hne]; [lia|].
  pose proof (seg_mono (k + 1) k' ltac:(lia) ltac:(lia) ltac:(lia)). lia.
Qed.

(** Every position lies in a segment... *)
Lemma seg_cover p :
  0 ≤ p < numel → ∃ k, 0 ≤ k < n ∧ seg_begin offs k ≤ p < seg_end offs n numel k.
Proof.
  intros Hp.
  assert (H : ∀ m, 0 ≤ m → m < n → p < seg_end offs n numel m →
              ∃ k, 0 ≤ k ≤ m ∧ seg_begin offs k ≤ p < seg_end offs n numel k).
  { apply (natlike_ind (λ m, m < n → p < seg_end offs n numel m →
              ∃ k, 0 ≤ k ≤ m ∧ seg_begin offs k ≤ p < seg_end offs n numel k)).
    - intros Hn Hlt. exists 0. unfold seg_begin.
      rewrite (seg_first _ _ _ Hseg). lia.
    - intros m Hm IH Hn Hlt.
      destruct (decide (p < seg_end offs n numel m)) as [Hin|Hout].
      + destruct (IH ltac:(lia) Hin) as [k [Hk Hr]]. exists k. split; [lia | done].
      + exists (Z.succ m). rewrite seg_end_next in Hout by lia.
        replace (m + 1) with (Z.succ m) in Hout by lia. lia. }
  pose proof (seg_count _ _ _ Hseg).
  destruct (H (n - 1) ltac:(lia) ltac:(lia)) as [k [Hk Hr]].
  { rewrite seg_end_last. lia. }
  exists k. split; [lia | done].
Qed.

(** ... and in one only. *)
Lemma seg_disjoint p k k' :
  0 ≤ k < n → 0 ≤ k' < n →
  seg_begin offs k ≤ p < seg_end offs n numel k →
  seg_begin offs k' ≤ p < seg_end offs n numel k' →
  k = k'.
Proof.
  intros Hk Hk' Hp Hp'.
  destruct (Z.lt_trichotomy k k') as [Hlt|[Heq|Hgt]]; [|done|].
  - pose proof (seg_end_mono k k' ltac:(lia) Hlt ltac:(lia)). lia.
  - pose proof (seg_end_mono k' k ltac:(lia) ltac:(lia) ltac:(lia)). lia.
Qed.

End Segmentation.

(** *** The segmentation the discovery block computes *)

Lemma boundaries_cons x r :
  boundaries (x :: r)
  = 0 :: filter (is_boundary (x :: r)) (seqZ 1 (Z.of_nat (length r))).
Proof.
  unfold boundaries. cbn [length]. rewrite seqZ_cons by lia.
  replace (Z.pred (Z.of_nat (S (length r)))) with (Z.of_nat (length r)) by lia.
  rewrite filter_cons. rewrite decide_True by (by left). done.
Qed.

Lemma elem_of_boundaries l p :
  p ∈ boundaries l ↔ 0 ≤ p < Z.of_nat (length l) ∧ is_boundary l p.
Proof.
  unfold boundaries. rewrite list_elem_of_filter, elem_of_seqZ.
  split; intros [? ?]; split; try done; lia.
Qed.

Lemma boundaries_increasing l : increasing (boundaries l).
Proof. apply increasing_filter_seqZ. Qed.

Lemma length_boundaries l : (length (boundaries l) ≤ length l)%nat.
Proof.
  unfold boundaries. etrans; [apply length_filter|].
  rewrite length_seqZ. lia.
Qed.

Lemma ld_boundaries l dst k :
  0 ≤ k < Z.of_nat (length (boundaries l)) →
  ld 0 (boundaries l ++ dst) k = ld 0 (boundaries l) k
  ∧ boundaries l !! Z.to_nat k = Some (ld 0 (boundaries l) k).
Proof.
  intros Hk. split; [by apply ld_app_l | by apply lookup_ld].
Qed.

Lemma boundaries_segmentation l dst :
  l ≠ [] →
  segmentation (boundaries l ++ dst) (Z.of_nat (length (boundaries l)))
    (Z.of_nat (length l)).
Proof.
  intros Hl. destruct l as [|x r]; [done|].
  pose proof (boundaries_cons x r) as Hc.
  assert (Hlen : (1 ≤ length (boundaries (x :: r)))%nat) by (rewrite Hc; simpl; lia).
  split.
  - lia.
  - rewrite length_app. lia.
  - rewrite Hc. done.
  - intros k Hk.
    destruct (ld_boundaries (x :: r) dst k ltac:(lia)) as [-> H1].
    destruct (ld_boundaries (x :: r) dst (k + 1) ltac:(lia)) as [-> H2].
    eapply boundaries_increasing; eauto. lia.
  - destruct (ld_boundaries (x :: r) dst (Z.of_nat (length (boundaries (x :: r))) - 1)
                ltac:(lia)) as [-> H1].
    apply list_elem_of_lookup_2, elem_of_boundaries in H1. lia.
Qed.

(** Inside a segment the stream is constant. *)
Lemma boundaries_const l dst k p :
  l ≠ [] →
  let offs := boundaries l ++ dst in
  let n := Z.of_nat (length (boundaries l)) in
  0 ≤ k < n →
  seg_begin offs k ≤ p < seg_end offs n (Z.of_nat (length l)) k →
  ld 0 l p = ld 0 l (seg_begin offs k).
Proof.
  intros Hl offs n Hk Hp.
  pose proof (boundaries_segmentation l dst Hl) as Hseg. fold offs n in Hseg.
  pose proof (seg_begin_nonneg _ _ _ Hseg k Hk) as H0.
  pose proof (seg_end_le _ _ _ Hseg k Hk) as HN.
  assert (H : ∀ d, 0 ≤ d → seg_begin offs k + d < seg_end offs n (Z.of_nat (length l)) k →
              ld 0 l (seg_begin offs k + d) = ld 0 l (seg_begin offs k)).
  { apply (natlike_ind (λ d, seg_begin offs k + d < seg_end offs n (Z.of_nat (length l)) k →
              ld 0 l (seg_begin offs k + d) = ld 0 l (seg_begin offs k))).
    - intros _. f_equal. lia.
    - intros d Hd IH Hlt. rewrite <- IH by lia.
      set (q := seg_begin offs k + Z.succ d).
      replace (seg_begin offs k + d) with (q - 1) by (unfold q; lia).
      destruct (decide (is_boundary l q)) as [Hb|Hnb].
      + exfalso.
        assert (Hq : q ∈ boundaries l) by (apply elem_of_boundaries; split; [lia | done]).
        apply list_elem_of_lookup_1 in Hq as [j Hj].
        pose proof (lookup_lt_Some _ _ _ Hj) as Hjn.
        destruct (ld_boundaries l dst k Hk) as [Hk1 Hk2].
        assert (Hkj : (Z.to_nat k < j)%nat).
        { eapply (increasing_le (boundaries l)); eauto using boundaries_increasing.
          unfold q, seg_begin, offs. rewrite Hk1. lia. }
        assert (Hend : seg_end offs n (Z.of_nat (length l)) k ≤ q).
        { pose proof (seg_end_mono _ _ _ Hseg k (Z.of_nat j) ltac:(lia) ltac:(lia) ltac:(lia)) as Hm.
          unfold seg_begin in Hm at 1. unfold offs in Hm at 2.
          rewrite (ld_app_l 0 _ dst (Z.of_nat j)) in Hm by lia.
          rewrite (ld_lookup_nat 0 _ j q Hj) in Hm. done. }
        unfold q in Hend. lia.
      + unfold is_boundary in Hnb.
        destruct (decide (ld 0 l q = ld 0 l (q - 1))) as [|Hne]; [done|].
        exfalso. apply Hnb. by right. }
  replace p with (seg_begin offs k + (p - seg_begin offs k)) by lia.
  apply H; lia.
Qed.

Lemma Sorted_adjacent (l : list Z) p :
  Sorted Z.le l → 0 ≤ p → p + 1 < Z.of_nat (length l) → ld 0 l p ≤ ld 0 l (p + 1).
Proof.
  intros Hs. revert p. induction Hs as [|x l Hs IH Hhd]; intros p Hp Hlen.
  { simpl in Hlen. lia. }
  destruct (decide (p = 0)) as [->|Hne].
  - destruct Hhd as [|y l' Hxy]; [simpl in Hlen; lia|]. done.
  - assert (Hshift : ∀ i, 0 ≤ i → ld 0 (x :: l) (i + 1) = ld 0 l i).
    { intros i Hi. unfold ld. rewrite !decide_True by lia.
      replace (Z.to_nat (i + 1)) with (S (Z.to_nat i)) by lia. done. }
    replace p with ((p - 1) + 1) at 1 by lia. rewrite !Hshift by lia.
    replace p with ((p - 1) + 1) at 2 by lia.
    apply IH; [lia|]. simpl in Hlen. lia.
Qed.

(** In a sorted stream the values of successive segments grow strictly. *)
Lemma boundaries_value_step l dst k :
  l ≠ [] → Sorted Z.le l →
  let offs := boundaries l ++ dst in
  let n := Z.of_nat (length (boundaries l)) in
  0 ≤ k < n - 1 →
  ld 0 l (seg_begin offs k) < ld 0 l (seg_begin offs (k + 1)).
Proof.
  intros Hl Hs offs n Hk.
  pose proof (boundaries_segmentation l dst Hl) as Hseg. fold offs n in Hseg.
  set (b := seg_begin offs (k + 1)).
  pose proof (seg_step _ _ _ Hseg k Hk) as Hstep. fold (seg_begin offs k) in Hstep.
  fold (seg_begin offs (k + 1)) in Hstep. fold b in Hstep.
  pose proof (seg_begin_nonneg _ _ _ Hseg k ltac:(lia)) as H0.
  destruct (ld_boundaries l dst (k + 1) ltac:(lia)) as [Hb1 Hb2].
  assert (Hb : b ∈ boundaries l).
  { eapply list_elem_of_lookup_2. unfold b, seg_begin, offs. rewrite Hb1. exact Hb2. }
  apply elem_of_boundaries in Hb as [HbN [Hb0|Hbne]]; [lia|].
  assert (Hprev : ld 0 l (b - 1) = ld 0 l (seg_begin offs k)).
  { apply (boundaries_const l dst k (b - 1) Hl); [lia|].
    rewrite (seg_end_next offs n) by lia.
    change (seg_begin offs k ≤ b - 1 < b). lia. }
  pose proof (Sorted_adjacent l (b - 1) Hs ltac:(lia) ltac:(lia)) as Hle.
  replace (b - 1 + 1) with b in Hle by lia. lia.
Qed.

Lemma boundaries_value_mono l dst k k' :
  l ≠ [] → Sorted Z.le l →
  let offs := boundaries l ++ dst in
  let n := Z.of_nat (length (boundaries l)) in
  0 ≤ k → k < k' → k' < n →
  ld 0 l (seg_begin offs k) < ld 0 l (seg_begin offs k').
Proof.
  intros Hl Hs offs n Hk Hlt Hk'.
  assert (H : ∀ d, 0 ≤ d → k + 1 + d < n →
              ld 0 l (seg_begin offs k) < ld 0 l (seg_begin offs (k + 1 + d))).
  { apply (natlike_ind (λ d, k + 1 + d < n →
              ld 0 l (seg_begin offs k) < ld 0 l (seg_begin offs (k + 1 + d)))).
    - intros Hd. replace (k + 1 + 0) with (k + 1) by lia.
      apply (boundaries_value_step l dst k Hl Hs). fold n. lia.
    - intros d Hd IH Hn.
      pose proof (boundaries_value_step l dst (k + 1 + d) Hl Hs ltac:(fold n; lia)) as Hst.
      fold offs in Hst.
      replace (k + 1 + Z.succ d) with (k + 1 + d + 1) by lia.
      specialize (IH ltac:(lia)). lia. }
  replace k' with (k + 1 + (k' - k - 1)) by lia. apply H; lia.
Qed.

End SegmentFacts.

Import SegmentFacts.

Module HostFacts.

Lemma bind_ok {A B} (m : M A) (f : A → M B) t x :
  m = (t, inr x) → (m ≫= f) = (t ++ (f x).1, (f x).2).
Proof. intros ->. cbv [mbind M_bind]. by destruct (f x). Qed.

Lemma bind_error {A B} (m : M A) (f : A → M B) t e :
  m = (t, inl e) → (m ≫= f) = (t, inl e).
Proof. by intros ->. Qed.

Lemma fmap_ok {A B} (m : M A) (f : A → B) t x :
  m = (t, inr x) → (f <$> m) = (t, inr (f x)).
Proof. by intros ->. Qed.

Lemma bind_mret {A B} (x : A) (f : A → M B) : (mret x ≫= f) = f x.
Proof. cbv [mbind M_bind mret M_ret ret]. by destruct (f x). Qed.

Lemma bind_submit {B} k (f : unit → M B) :
  (submit k ≫= f) = (k :: (f tt).1, (f tt).2).
Proof. cbv [mbind M_bind submit]. by destruct (f tt). Qed.

Lemma bind_pair {A B} t (x : A) (f : A → M B) :
  ((t, inr x) : M A) ≫= f = (t ++ (f x).1, (f x).2).
Proof. cbv [mbind M_bind]. by destruct (f x). Qed.

Ltac host_simpl :=
  cbv beta; unfold mret, M_ret, ret; cbn [fst snd app].

(** Runs a host function whose calls have been rewritten to their results. *)
Ltac host_run :=
  repeat first
    [ rewrite bind_pair
    | progress (unfold mret, M_ret, ret, submit; cbv beta;
                cbn [fst snd app]) ].

Lemma elem_of_parallel_stores {A} total (kfn : Z → list (Z * A)) w :
  w ∈ (seqZ 0 total ≫= kfn) ↔ ∃ gid, 0 ≤ gid < total ∧ w ∈ kfn gid.
Proof.
  rewrite list_elem_of_bind. split.
  - intros [gid [Hw Hg]]. exists gid. apply elem_of_seqZ in Hg. split; [lia | done].
  - intros [gid [Hg Hw]]. exists gid. split; [done|]. apply elem_of_seqZ. lia.
Qed.

Lemma length_parallel_for {A} total (kfn : Z → list (Z * A)) buf :
  length (parallel_for total kfn buf) = length buf.
Proof. apply length_apply_writes. Qed.

End HostFacts.

Module PartialFacts.
Import EmbeddingBag PSTL HostFacts.

Lemma groups_cover n : 0 ≤ n → n ≤ CeilDiv n 32 * 32.
Proof. intros Hn. pose proof (CeilDiv_spec n 32 Hn ltac:(lia)). lia. Qed.

(** What [krn_partials_per_segment] leaves in [ret]. *)
Lemma krn_partials_per_segment_spec ret offs n numel :
  0 ≤ n → Z.of_nat (length ret) = n →
  ∃ pps,
    krn_partials_per_segment ret offs n numel = ([K_partials_per_segment], inr pps)
    ∧ Z.of_nat (length pps) = n
    ∧ ∀ k, 0 ≤ k < n →
        ld 0 pps k
        = CeilDiv (seg_end offs n numel k - seg_begin offs k) NROWS_PER_THREAD.
Proof.
  intros Hn Hlen. unfold krn_partials_per_segment.
  rewrite bind_submit. host_simpl.
  eexists. split; [reflexivity|].
  split; [by rewrite length_parallel_for|].
  intros k Hk. unfold parallel_for. apply ld_apply_writes_same; [lia| |].
  - exists (k, CeilDiv (seg_end offs n numel k - seg_begin offs k) NROWS_PER_THREAD).
    split; [|done]. apply elem_of_parallel_stores. exists k. split.
    + pose proof (groups_cover n Hn). lia.
    + rewrite decide_True by lia. apply list_elem_of_singleton. done.
  - intros w Hw Hwk. apply elem_of_parallel_stores in Hw as [gid [Hg Hw]].
    case_decide; [|by apply elem_of_nil in Hw].
    apply list_elem_of_singleton in Hw. subst w. simpl in Hwk. subst gid. done.
Qed.

Lemma length_exclusive_scan l init : length (exclusive_scan l init) = length l.
Proof. revert init. induction l as [|x l IH]; intros init; simpl; [done|]. by rewrite IH. Qed.

Lemma ld_cons_succ {A} (d : A) x l i : 0 ≤ i → ld d (x :: l) (i + 1) = ld d l i.
Proof.
  intros Hi. unfold ld. rewrite !decide_True by lia.
  replace (Z.to_nat (i + 1)) with (S (Z.to_nat i)) by lia. done.
Qed.

Lemma exclusive_scan_first l init : l ≠ [] → ld 0 (exclusive_scan l init) 0 = init.
Proof. by destruct l. Qed.

Lemma exclusive_scan_step l init k :
  0 ≤ k → k + 1 < Z.of_nat (length l) →
  ld 0 (exclusive_scan l init) (k + 1) = ld 0 (exclusive_scan l init) k + ld 0 l k.
Proof.
  revert init k. induction l as [|x l IH]; intros init k Hk Hlen.
  { simpl in Hlen. lia. }
  cbn [exclusive_scan]. rewrite ld_cons_succ by lia.
  destruct (decide (k = 0)) as [->|Hne].
  - destruct l as [|y l]; [simpl in Hlen; lia|]. done.
  - replace k with ((k - 1) + 1) at 2 3 by lia. rewrite !ld_cons_succ by lia.
    replace k with ((k - 1) + 1) at 1 by lia.
    apply IH; [lia|]. simpl in Hlen. lia.
Qed.

(** What [krn_partial_segment_offset] leaves in [ret], when the scanned
    counts [ppso] segment the [nps] cells of [ret]. *)
Lemma krn_partial_segment_offset_spec ret pps ppso offs n nps :
  segmentation ppso n nps →
  (∀ k, 0 ≤ k < n → seg_end ppso n nps k = ld 0 ppso k + ld 0 pps k) →
  Z.of_nat (length ret) = nps →
  ∃ pso,
    krn_partial_segment_offset ret pps ppso offs n
    = ([K_partial_segment_offset], inr pso)
    ∧ Z.of_nat (length pso) = nps
    ∧ ∀ k i, 0 ≤ k < n → 0 ≤ i < ld 0 pps k →
        ld 0 pso (ld 0 ppso k + i) = ld 0 offs k + i * NROWS_PER_THREAD.
Proof.
  intros Hseg Hend Hlen. unfold krn_partial_segment_offset.
  rewrite bind_submit. host_simpl.
  eexists. split; [reflexivity|].
  split; [by rewrite length_parallel_for|].
  pose proof (seg_count _ _ _ Hseg) as Hn.
  intros k i Hk Hi. unfold parallel_for.
  pose proof (seg_begin_nonneg _ _ _ Hseg k Hk) as Hb0.
  pose proof (seg_end_le _ _ _ Hseg k Hk) as Hbe.
  rewrite Hend in Hbe by done. unfold seg_begin in Hb0.
  apply ld_apply_writes_same; [lia| |].
  - exists (ld 0 ppso k + i, ld 0 offs k + i * NROWS_PER_THREAD).
    split; [|done]. apply elem_of_parallel_stores. exists k. split.
    + pose proof (groups_cover n ltac:(lia)). lia.
    + rewrite decide_True by lia. apply list_elem_of_fmap. exists i.
      split; [done|]. apply elem_of_for_each. lia.
  - intros w Hw Hwk. apply elem_of_parallel_stores in Hw as [gid [Hg Hw]].
    case_decide as Hgn; [|by apply elem_of_nil in Hw].
    apply list_elem_of_fmap in Hw as [i' [-> Hi']].
    apply elem_of_for_each in Hi'. simpl in Hwk. simpl.
    assert (gid = k) as ->.
    { apply (seg_disjoint _ _ _ Hseg (ld 0 ppso k + i)); [lia | lia | |].
      - rewrite Hend by lia. unfold seg_begin. lia.
      - rewrite Hend by lia. unfold seg_begin. lia. }
    assert (i' = i) as -> by lia. done.
Qed.

Section Splitting.
Variables (uninit : nat → Z) (offs : list Z) (n numel : Z).
Hypothesis Hseg : segmentation offs n numel.
Hypothesis Hsmall : numel ≤ INT_MAX.

Let len (k : Z) : Z := seg_end offs n numel k - seg_begin offs k.

Lemma count_bounds k :
  0 ≤ k < n → 1 ≤ CeilDiv (len k) NROWS_PER_THREAD ≤ len k.
Proof.
  intros Hk. pose proof (seg_nonempty _ _ _ Hseg k Hk) as Hne.
  pose proof (CeilDiv_spec (len k) NROWS_PER_THREAD) as Hc.
  unfold len, NROWS_PER_THREAD in *. lia.
Qed.

Lemma partial_segments_spec :
  ∃ p, partial_segments uninit offs n numel
       = ([K_partials_per_segment; K_partial_segment_offset], inr p)
     ∧ splitting offs n numel p.
Proof.
  pose proof (seg_count _ _ _ Hseg) as Hn.
  unfold partial_segments.
  destruct (krn_partials_per_segment_spec (ATen.empty1 uninit n) offs n numel)
    as (pps & Hpps & Hlpps & Hcount); [lia | |].
  { unfold ATen.empty1. rewrite length_fmap, length_seq. lia. }
  rewrite (bind_ok _ _ _ _ Hpps).
  rewrite (take_ge pps) by lia.
  set (ppso := exclusive_scan pps 0).
  assert (Hlppso : Z.of_nat (length ppso) = n)
    by (unfold ppso; rewrite length_exclusive_scan; lia).
  assert (Hstep : ∀ k, 0 ≤ k → k + 1 < n →
            ld 0 ppso (k + 1) = ld 0 ppso k + ld 0 pps k).
  { intros k Hk Hk1. apply exclusive_scan_step; lia. }
  assert (Hfirst : ld 0 ppso 0 = 0).
  { apply exclusive_scan_first. intros ->. simpl in Hlpps. lia. }
  assert (Hsel1 : ATen.select1 pps (n - 1) = mret (ld 0 pps (n - 1))).
  { unfold ATen.select1. rewrite decide_True by lia. by rewrite decide_False by lia. }
  assert (Hsel2 : ATen.select1 ppso (n - 1) = mret (ld 0 ppso (n - 1))).
  { unfold ATen.select1. rewrite decide_True by lia. by rewrite decide_False by lia. }
  set (nps := ld 0 pps (n - 1) + ld 0 ppso (n - 1)).
  assert (Hsegp : segmentation ppso n nps).
  { split; [lia | lia | done | |].
    - intros k Hk. rewrite Hstep by lia. rewrite Hcount by lia.
      pose proof (count_bounds k ltac:(lia)). unfold len in *. lia.
    - unfold nps. rewrite Hcount by lia.
      pose proof (count_bounds (n - 1) ltac:(lia)). unfold len in *. lia. }
  assert (Hendp : ∀ k, 0 ≤ k < n → seg_end ppso n nps k = ld 0 ppso k + ld 0 pps k).
  { intros k Hk. unfold seg_end. case_decide as Hl.
    - subst k. unfold nps. lia.
    - apply Hstep; lia. }
  assert (Hle : ∀ k, 0 ≤ k → k < n → ld 0 ppso k ≤ ld 0 offs k).
  { apply (natlike_ind (λ k, k < n → ld 0 ppso k ≤ ld 0 offs k)).
    - intros _. rewrite Hfirst, (seg_first _ _ _ Hseg). lia.
    - intros k Hk IH Hk1. replace (Z.succ k) with (k + 1) by lia.
      rewrite Hstep by lia. rewrite Hcount by lia.
      pose proof (count_bounds k ltac:(lia)) as Hc. unfold len in Hc.
      rewrite (seg_end_next offs n) in Hc |- * by lia. unfold seg_begin in *.
      specialize (IH ltac:(lia)). lia. }
  assert (Hnps : 1 ≤ nps ≤ numel).
  { unfold nps. rewrite Hcount by lia.
    pose proof (count_bounds (n - 1) ltac:(lia)) as Hc. unfold len in Hc.
    rewrite (seg_end_last offs n) in Hc |- *. unfold seg_begin in Hc |- *.
    pose proof (Hle (n - 1) ltac:(lia) ltac:(lia)).
    pose proof (seg_begin_nonneg _ _ _ Hsegp (n - 1) ltac:(lia)) as Hp0.
    unfold seg_begin in Hp0. lia. }
  rewrite Hsel1, bind_mret, Hsel2, bind_mret.
  fold nps. rewrite to_int_small by (unfold INT_MAX in Hsmall; lia).
  destruct (krn_partial_segment_offset_spec (ATen.empty1 uninit nps) pps ppso offs n nps)
    as (pso & Hpso & Hlpso & Hstart); [done | done | |].
  { unfold ATen.empty1. rewrite length_fmap, length_seq. lia. }
  rewrite (bind_ok _ _ _ _ Hpso). host_simpl.
  eexists. split; [reflexivity|].
  split; simpl; try done. lia.
Qed.

End Splitting.

Section SplittingFacts.
Variables (offs : list Z) (n numel : Z) (p : partials).
Hypothesis Hseg : segmentation offs n numel.
Hypothesis Hsp : splitting offs n numel p.

Let pps := partials_per_segment p.
Let ppso := partials_per_segment_offset p.
Let nps := num_of_partial_segments p.
Let pso := partial_segment_offset p.

(** The flattened index of partial segment [i] of segment [k]. *)
Lemma flat_index_range k i :
  0 ≤ k < n → 0 ≤ i < ld 0 pps k → 0 ≤ ld 0 ppso k + i < nps.
Proof.
  intros Hk Hi.
  pose proof (seg_begin_nonneg _ _ _ (sp_scan _ _ _ _ Hsp) k Hk) as Hb0.
  pose proof (seg_end_le _ _ _ (sp_scan _ _ _ _ Hsp) k Hk) as Hbe.
  rewrite (sp_scan_end _ _ _ _ Hsp) in Hbe by done.
  unfold seg_begin in Hb0. unfold pps, ppso, nps in *. lia.
Qed.

(** Every flattened index is partial segment [i] of one segment [k]. *)
Lemma flat_index_inv j :
  0 ≤ j < nps → ∃ k i, 0 ≤ k < n ∧ 0 ≤ i < ld 0 pps k ∧ j = ld 0 ppso k + i.
Proof.
  intros Hj.
  destruct (seg_cover _ _ _ (sp_scan _ _ _ _ Hsp) j Hj) as (k & Hk & Hr).
  rewrite (sp_scan_end _ _ _ _ Hsp) in Hr by done. unfold seg_begin in Hr.
  exists k, (j - ld 0 ppso k). unfold pps, ppso. split; [done|]. split; lia.
Qed.

Lemma count_spec k :
  0 ≤ k < n →
  let len := seg_end offs n numel k - seg_begin offs k in
  NROWS_PER_THREAD * (ld 0 pps k - 1) < len ≤ NROWS_PER_THREAD * ld 0 pps k
  ∧ 1 ≤ ld 0 pps k.
Proof.
  intros Hk len. unfold pps. rewrite (sp_count _ _ _ _ Hsp) by done. fold len.
  pose proof (seg_nonempty _ _ _ Hseg k Hk) as Hne.
  pose proof (CeilDiv_spec len NROWS_PER_THREAD) as Hc.
  unfold len, NROWS_PER_THREAD in *. lia.
Qed.

Lemma partial_begin k i :
  0 ≤ k < n → 0 ≤ i < ld 0 pps k →
  seg_begin pso (ld 0 ppso k + i) = seg_begin offs k + i * NROWS_PER_THREAD.
Proof. intros Hk Hi. unfold seg_begin. by apply (sp_start _ _ _ _ Hsp). Qed.

Lemma partial_end k i :
  0 ≤ k < n → 0 ≤ i < ld 0 pps k →
  seg_end pso nps numel (ld 0 ppso k + i)
  = if decide (i + 1 < ld 0 pps k)
    then seg_begin offs k + (i + 1) * NROWS_PER_THREAD
    else seg_end offs n numel k.
Proof.
  intros Hk Hi. pose proof (flat_index_range k i Hk Hi) as Hj.
  pose proof (sp_scan_end _ _ _ _ Hsp k Hk) as Hend. fold ppso pps nps in Hend.
  pose proof (seg_end_le _ _ _ (sp_scan _ _ _ _ Hsp) k Hk) as Hle.
  fold ppso nps in Hle. rewrite Hend in Hle.
  case_decide as Hi1.
  - unfold seg_end. rewrite decide_False by lia.
    replace (ld 0 ppso k + i + 1) with (ld 0 ppso k + (i + 1)) by lia.
    apply (sp_start _ _ _ _ Hsp); [done | fold pps; lia].
  - assert (i + 1 = ld 0 pps k) as Hlast by lia.
    destruct (decide (k = n - 1)) as [->|Hk1].
    + rewrite (seg_end_last ppso n) in Hend. rewrite (seg_end_last offs n).
      unfold seg_end. by rewrite decide_True by lia.
    + rewrite (seg_end_next ppso n) in Hend by lia. unfold seg_begin in Hend.
      pose proof (count_spec (k + 1) ltac:(lia)) as [_ Hc1].
      pose proof (flat_index_range (k + 1) 0 ltac:(lia) ltac:(lia)) as Hj1.
      unfold seg_end at 1. rewrite decide_False by lia.
      replace (ld 0 ppso k + i + 1) with (ld 0 ppso (k + 1) + 0) by lia.
      fold (seg_begin pso (ld 0 ppso (k + 1) + 0)).
      rewrite partial_begin by lia. rewrite (seg_end_next offs n) by lia. lia.
Qed.

(** A partial segment is not empty, has at most [NROWS_PER_THREAD] positions
    and lies inside its segment. *)
Lemma partial_bounds k i :
  0 ≤ k < n → 0 ≤ i < ld 0 pps k →
  let j := ld 0 ppso k + i in
  seg_begin offs k ≤ seg_begin pso j
  ∧ seg_begin pso j < seg_end pso nps numel j
  ∧ seg_end pso nps numel j ≤ seg_begin pso j + NROWS_PER_THREAD
  ∧ seg_end pso nps numel j ≤ seg_end offs n numel k.
Proof.
  intros Hk Hi j. unfold j. rewrite partial_begin, partial_end by done.
  pose proof (count_spec k Hk) as [Hc _]. cbv zeta in Hc.
  unfold NROWS_PER_THREAD in *. case_decide; lia.
Qed.

(** The partial segments, flattened, segment the stream. *)
Lemma splitting_segmentation : segmentation pso nps numel.
Proof.
  pose proof (seg_count _ _ _ Hseg) as Hn.
  pose proof (count_spec 0 ltac:(lia)) as [_ Hc0].
  pose proof (flat_index_range 0 0 ltac:(lia) ltac:(lia)) as H00.
  pose proof (seg_first _ _ _ (sp_scan _ _ _ _ Hsp)) as Hp0. fold ppso in Hp0.
  split.
  - lia.
  - pose proof (sp_len_pso _ _ _ _ Hsp). unfold pso, nps. lia.
  - pose proof (partial_begin 0 0 ltac:(lia) ltac:(lia)) as Hb.
    rewrite Hp0 in Hb. unfold seg_begin in Hb.
    rewrite (seg_first _ _ _ Hseg) in Hb. simpl in Hb. done.
  - intros j Hj. destruct (flat_index_inv j ltac:(lia)) as (k & i & Hk & Hi & ->).
    pose proof (partial_bounds k i Hk Hi) as (_ & Hlt & _). cbv zeta in Hlt.
    unfold seg_end in Hlt. rewrite decide_False in Hlt by lia. done.
  - destruct (flat_index_inv (nps - 1) ltac:(lia)) as (k & i & Hk & Hi & Heq).
    pose proof (partial_bounds k i Hk Hi) as (_ & Hlt & _). cbv zeta in Hlt.
    rewrite <- Heq in Hlt. rewrite (seg_end_last pso nps) in Hlt. done.
Qed.

(** The partial segments of a segment cover exactly its range. *)
Lemma partial_cover k q :
  0 ≤ k < n →
  seg_begin offs k ≤ q < seg_end offs n numel k
  ↔ ∃ i, 0 ≤ i < ld 0 pps k
       ∧ seg_begin pso (ld 0 ppso k + i) ≤ q
           < seg_end pso nps numel (ld 0 ppso k + i).
Proof.
  intros Hk. split.
  - intros Hq.
    pose proof (count_spec k Hk) as [Hc Hc1]. cbv zeta in Hc.
    set (i := (q - seg_begin offs k) / NROWS_PER_THREAD).
    assert (Hi : NROWS_PER_THREAD * i ≤ q - seg_begin offs k
                 < NROWS_PER_THREAD * (i + 1)).
    { unfold i, NROWS_PER_THREAD.
      pose proof (Z.div_mod (q - seg_begin offs k) 10 ltac:(lia)).
      pose proof (Z.mod_pos_bound (q - seg_begin offs k) 10 ltac:(lia)). lia. }
    unfold NROWS_PER_THREAD in *.
    assert (0 ≤ i < ld 0 pps k) as Hir by nia.
    exists i. split; [done|]. rewrite partial_begin, partial_end by done.
    unfold NROWS_PER_THREAD. case_decide; lia.
  - intros (i & Hi & Hq).
    pose proof (partial_bounds k i Hk Hi) as (? & ? & ? & ?). lia.
Qed.

End SplittingFacts.

End PartialFacts.

Import Sums Terms HostFacts PartialFacts.

Module SumFacts.
Import Sums.
Section SumFacts.
Context {T : Type} `{ScalarLaws T}.

Lemma sadd_0_r (a : T) : sadd a szero = a.
Proof. rewrite sadd_comm. apply sadd_0_l. Qed.

Lemma ssum_app (l1 l2 : list T) : ssum (l1 ++ l2) = sadd (ssum l1) (ssum l2).
Proof.
  induction l1 as [|x l1 IH]; simpl; [by rewrite sadd_0_l|].
  by rewrite IH, sadd_assoc.
Qed.

Lemma ssum_Permutation (l1 l2 : list T) : l1 ≡ₚ l2 → ssum l1 = ssum l2.
Proof.
  induction 1 as [|x l1 l2 _ IH|x y l|l1 l2 l3 _ IH1 _ IH2]; simpl.
  - done.
  - by rewrite IH.
  - rewrite !sadd_assoc. f_equal. apply sadd_comm.
  - by rewrite IH1.
Qed.

Lemma fold_left_sadd {A} (g : A → T) (l : list A) (a : T) :
  fold_left (λ w i, sadd w (g i)) l a = sadd a (ssum (g <$> l)).
Proof.
  revert a. induction l as [|x l IH]; intros a; simpl; [by rewrite sadd_0_r|].
  by rewrite IH, sadd_assoc.
Qed.

Lemma accumulate_ssum (term : Z → T) lo hi :
  accumulate term lo hi = ssum (term <$> for_each lo hi).
Proof. unfold accumulate. by rewrite fold_left_sadd, sadd_0_l. Qed.

Lemma accumulate_ext (g g' : Z → T) lo hi :
  (∀ i, lo ≤ i < hi → g i = g' i) → accumulate g lo hi = accumulate g' lo hi.
Proof.
  intros Hg. rewrite !accumulate_ssum. f_equal.
  apply list_fmap_ext. intros k i Hi. apply Hg.
  apply list_elem_of_lookup_2, elem_of_for_each in Hi. done.
Qed.

Lemma accumulate_empty (g : Z → T) lo hi : hi ≤ lo → accumulate g lo hi = szero.
Proof. intros. unfold accumulate. by rewrite for_each_nil. Qed.

Lemma accumulate_split (g : Z → T) lo mid hi :
  lo ≤ mid ≤ hi →
  accumulate g lo hi = sadd (accumulate g lo mid) (accumulate g mid hi).
Proof.
  intros Hm. rewrite !accumulate_ssum, (for_each_split lo mid hi) by done.
  by rewrite fmap_app, ssum_app.
Qed.

(** Summing the sums of consecutive chunks is summing the whole range. *)
Lemma accumulate_chunks (g : Z → T) (b : Z → Z) lo hi :
  lo ≤ hi → (∀ j, lo ≤ j < hi → b j ≤ b (j + 1)) →
  accumulate (λ j, accumulate g (b j) (b (j + 1))) lo hi
  = accumulate g (b lo) (b hi).
Proof.
  intros Hle Hb.
  assert (Hgen : ∀ d, 0 ≤ d → lo + d ≤ hi →
            accumulate (λ j, accumulate g (b j) (b (j + 1))) lo (lo + d)
            = accumulate g (b lo) (b (lo + d)) ∧ b lo ≤ b (lo + d)).
  { apply (natlike_ind (λ d, lo + d ≤ hi →
            accumulate (λ j, accumulate g (b j) (b (j + 1))) lo (lo + d)
            = accumulate g (b lo) (b (lo + d)) ∧ b lo ≤ b (lo + d))).
    - intros _. rewrite Z.add_0_r. rewrite !accumulate_empty by lia. split; [done | lia].
    - intros d Hd IH Hhi. destruct (IH ltac:(lia)) as [IH1 IH2].
      pose proof (Hb (lo + d) ltac:(lia)) as Hstep.
      replace (lo + Z.succ d) with (lo + d + 1) by lia. split; [|lia].
      rewrite (accumulate_split _ lo (lo + d) (lo + d + 1)) by lia.
      rewrite IH1. rewrite (accumulate_split g (b lo) (b (lo + d)) (b (lo + d + 1))) by lia.
      f_equal. unfold accumulate at 1.
      rewrite for_each_cons, for_each_nil by lia. simpl. apply sadd_0_l. }
  destruct (Hgen (hi - lo) ltac:(lia) ltac:(lia)) as [Hg _].
  by replace (lo + (hi - lo)) with hi in Hg by lia.
Qed.

End SumFacts.
End SumFacts.

Module GridFacts.
Import EmbeddingBag.

Section Grid.
Variables (wg stride ns : Z).
Hypothesis Hwg : 0 < wg.
Hypothesis Hstride : 0 < stride.
Hypothesis Hns : 0 ≤ ns.

Let sw := stride_warped_of wg stride.

Lemma stride_warped_bounds : stride ≤ sw < stride + wg ∧ sw = CeilDiv stride wg * wg.
Proof.
  unfold sw, stride_warped_of.
  pose proof (CeilDiv_spec stride wg ltac:(lia) Hwg). split; [nia | done].
Qed.

Lemma total_items_eq : total_items_of wg stride ns = ns * sw.
Proof.
  pose proof stride_warped_bounds as [Hb Heq].
  unfold total_items_of. fold sw.
  assert (1 ≤ CeilDiv stride wg).
  { pose proof (CeilDiv_spec stride wg ltac:(lia) Hwg). nia. }
  rewrite Z.min_r by nia.
  rewrite Heq at 1. rewrite Z.mul_assoc.
  rewrite CeilDiv_mul by nia. rewrite Heq. lia.
Qed.

Hypothesis Hsmall : ns * sw ≤ INT_MAX.

Lemma grid_kfn_at {A} (body : Z → Z → list A) id f :
  0 ≤ id < ns → 0 ≤ f < sw →
  grid_kfn wg stride ns body (id * sw + f) = if decide (f < stride) then body id f else [].
Proof.
  intros Hid Hf. unfold grid_kfn. fold sw. unfold INT_MAX in Hsmall.
  assert (0 ≤ id * sw + f < ns * sw) by nia.
  rewrite (to_int_small (id * sw + f)) by lia.
  rewrite cdiv_nonneg, cmod_nonneg by lia.
  replace (id * sw + f) with (f + id * sw) by lia.
  rewrite Z.div_add, Z.mod_add by lia.
  rewrite Z.div_small, Z.mod_small by lia. rewrite Z.add_0_l.
  rewrite !to_int_small by nia.
  repeat case_decide; try done; lia.
Qed.

Lemma bind_nil_in {A B} (f : A → list B) (l : list A) :
  (∀ x, x ∈ l → f x = []) → l ≫= f = [].
Proof.
  induction l as [|x l IH]; intros Hl; [done|].
  rewrite bind_cons, (Hl x) by (by left). apply IH. intros y Hy. apply Hl. by right.
Qed.

Lemma bind_ext_in {A B} (f g : A → list B) (l : list A) :
  (∀ x, x ∈ l → f x = g x) → l ≫= f = l ≫= g.
Proof.
  induction l as [|x l IH]; intros Hl; [done|].
  rewrite !bind_cons, (Hl x) by (by left). f_equal. apply IH.
  intros y Hy. apply Hl. by right.
Qed.

(** The work items of one segment. *)
Lemma grid_row {A} (body : Z → Z → list A) id :
  0 ≤ id < ns →
  seqZ (id * sw) sw ≫= grid_kfn wg stride ns body = seqZ 0 stride ≫= body id.
Proof.
  intros Hid. pose proof stride_warped_bounds as [Hb _].
  replace (id * sw) with (id * sw + 0) by lia.
  rewrite <- (fmap_add_seqZ (id * sw) 0 sw), list_fmap_bind.
  assert (Hsplit : seqZ 0 sw = seqZ 0 stride ++ seqZ stride (sw - stride)).
  { replace sw with (stride + (sw - stride)) at 1 by lia.
    rewrite seqZ_app by lia. done. }
  rewrite Hsplit, bind_app.
  rewrite (bind_nil_in _ (seqZ stride (sw - stride))), app_nil_r.
  - apply bind_ext_in. intros f Hf. apply elem_of_seqZ in Hf. simpl.
    rewrite grid_kfn_at by lia. by rewrite decide_True by lia.
  - intros f Hf. apply elem_of_seqZ in Hf. simpl.
    rewrite grid_kfn_at by lia. by rewrite decide_False by lia.
Qed.

Lemma grid_stores_upto {A} (body : Z → Z → list A) (m : nat) :
  Z.of_nat m ≤ ns →
  seqZ 0 (Z.of_nat m * sw) ≫= grid_kfn wg stride ns body
  = seqZ 0 (Z.of_nat m) ≫= (λ id, seqZ 0 stride ≫= body id).
Proof.
  pose proof stride_warped_bounds as [Hb _].
  induction m as [|m IH]; intros Hm; [done|].
  replace (Z.of_nat (S m) * sw) with (Z.of_nat m * sw + sw) by lia.
  rewrite seqZ_app by nia. rewrite seqZ_S, !bind_app, IH by lia.
  f_equal. rewrite !Z.add_0_l, bind_singleton. apply grid_row. lia.
Qed.

(** The stores of a launch, work item after work item, are those of the
    segments in order and, within a segment, of the features in order. *)
Lemma grid_stores {A} (body : Z → Z → list A) :
  seqZ 0 (total_items_of wg stride ns) ≫= grid_kfn wg stride ns body
  = seqZ 0 ns ≫= (λ id, seqZ 0 stride ≫= body id).
Proof.
  rewrite total_items_eq.
  pose proof (grid_stores_upto body (Z.to_nat ns) ltac:(lia)) as Hu.
  by rewrite Z2Nat.id in Hu by lia.
Qed.

Lemma elem_of_grid_stores {A} (body : Z → Z → list A) w :
  w ∈ (seqZ 0 (total_items_of wg stride ns) ≫= grid_kfn wg stride ns body)
  ↔ ∃ id f, 0 ≤ id < ns ∧ 0 ≤ f < stride ∧ w ∈ body id f.
Proof.
  rewrite grid_stores, list_elem_of_bind. split.
  - intros (id & Hw & Hid). apply list_elem_of_bind in Hw as (f & Hw & Hf).
    apply elem_of_seqZ in Hid, Hf. exists id, f. split; [lia|]. split; [lia | done].
  - intros (id & f & Hid & Hf & Hw). exists id. split; [|apply elem_of_seqZ; lia].
    apply list_elem_of_bind. exists f. split; [done|]. apply elem_of_seqZ. lia.
Qed.

End Grid.
End GridFacts.

Module KernelFacts.
Import EmbeddingBag Sums SumFacts GridFacts Terms.

Lemma cell_inj s a f b f' :
  0 ≤ f < s → 0 ≤ f' < s → a * s + f = b * s + f' → a = b ∧ f = f'.
Proof. intros Hf Hf' Heq. assert (a = b) by nia. subst. lia. Qed.

Section Kernel.
Context {T : Type} `{ScalarLaws T}.
Variables (wg stride : Z).
Hypothesis Hwg : 0 < wg.
Hypothesis Hstride : 0 < stride.

(** A kernel whose work item for segment [id] and feature [f] stores [val id f]
    in cell [id * stride + f] fills the buffer with [val]. *)
Lemma grid_fill (val : Z → Z → T) ns (buf : list T) j f :
  0 ≤ ns → ns * stride_warped_of wg stride ≤ INT_MAX →
  Z.of_nat (length buf) = ns * stride →
  0 ≤ j < ns → 0 ≤ f < stride →
  ld szero
    (parallel_for (total_items_of wg stride ns)
       (grid_kfn wg stride ns (λ id f, [(id * stride + f, val id f)])) buf)
    (j * stride + f)
  = val j f.
Proof.
  intros Hns Hsmall Hlen Hj Hf. unfold parallel_for.
  apply ld_apply_writes_same; [nia | |].
  - exists (j * stride + f, val j f). split; [|done].
    apply elem_of_grid_stores; try done. exists j, f.
    split; [done|]. split; [done|]. by apply list_elem_of_singleton.
  - intros w Hw Hwk. apply elem_of_grid_stores in Hw as (id & f' & Hid & Hf' & Hw); try done.
    apply list_elem_of_singleton in Hw. subst w. simpl in *.
    destruct (cell_inj stride id f' j f Hf' Hf Hwk) as [-> ->]. done.
Qed.

(** *** [compute_grad_weight_bags] *)

Lemma compute_grad_weight_bags_fill
    indices gradOutput offset2bag count numel mode_mean bag_size psw psw_stride
    pso nps (buf : list T) j f :
  segmentation pso nps numel → numel ≤ INT_MAX →
  nps * stride_warped_of wg stride ≤ INT_MAX →
  Z.of_nat (length buf) = nps * stride →
  (∀ idx, 0 ≤ idx < numel → 0 ≤ ld 0 indices idx ≤ INT_MAX) →
  (∀ idx, 0 ≤ idx < numel →
     0 ≤ ld 0 offset2bag (ld 0 indices idx)
     ∧ ld 0 offset2bag (ld 0 indices idx) * stride ≤ INT_MAX) →
  0 ≤ j < nps → 0 ≤ f < stride →
  ld szero
    (parallel_for (total_items_of wg stride nps)
       (compute_grad_weight_bags_kfn wg indices gradOutput offset2bag count numel
          stride mode_mean bag_size psw psw_stride pso nps) buf)
    (j * stride + f)
  = accumulate
      (bags_term indices gradOutput offset2bag count stride mode_mean bag_size
         psw psw_stride f)
      (seg_begin pso j) (seg_end pso nps numel j).
Proof.
  intros Hseg Hnumel Hsmall Hlen Horig Hbag Hj Hf.
  pose proof (seg_count _ _ _ Hseg) as Hn.
  change (compute_grad_weight_bags_kfn wg indices gradOutput offset2bag count numel
            stride mode_mean bag_size psw psw_stride pso nps)
    with (grid_kfn wg stride nps (λ id f,
            [(id * stride + f,
              accumulate (λ idx,
                  let orig_row := to_int (ld 0 indices idx) in
                  let seq_number := to_int (ld 0 offset2bag orig_row) in
                  let grad_output_row := to_int (seq_number * stride) in
                  let scale :=
                    match count with
                    | Some c => sdiv sone (of_int (ld 0 c idx))
                    | None => sone
                    end in
                  let scale :=
                    match psw with
                    | Some w => smul scale (ld szero w (idx * psw_stride))
                    | None => scale
                    end in
                  let gradient := ld szero gradOutput (grad_output_row + f) in
                  let gradient :=
                    if mode_mean then sdiv gradient (of_int (ld 0 bag_size seq_number))
                    else gradient in
                  smul gradient scale)
                (to_int (ld 0 pso id))
                (to_int (if decide (id = nps - 1) then numel else ld 0 pso (id + 1))))])).
  rewrite (grid_fill _ nps buf j f) by (done || lia).
  fold (seg_end pso nps numel j). fold (seg_begin pso j).
  pose proof (seg_begin_nonneg _ _ _ Hseg j Hj) as Hb0.
  pose proof (seg_nonempty _ _ _ Hseg j Hj) as Hbe.
  pose proof (seg_end_le _ _ _ Hseg j Hj) as Hee.
  unfold INT_MAX in *.
  rewrite !to_int_small by lia.
  apply accumulate_ext. intros idx Hidx. unfold bags_term. cbv zeta.
  destruct (Horig idx ltac:(lia)) as [Ho1 Ho2].
  destruct (Hbag idx ltac:(lia)) as [Hb1 Hb2].
  rewrite (to_int_small (ld 0 indices idx)) by lia.
  rewrite (to_int_small (ld 0 offset2bag (ld 0 indices idx))) by nia.
  rewrite to_int_small by lia. done.
Qed.

(** *** [compute_grad_weight] *)

Lemma compute_grad_weight_fill
    indices grad_output count numel pso nps (buf : list T) j f :
  segmentation pso nps numel → numel ≤ INT_MAX →
  nps * stride_warped_of wg stride ≤ INT_MAX →
  Z.of_nat (length buf) = nps * stride →
  0 ≤ j < nps → 0 ≤ f < stride →
  ld szero
    (parallel_for (total_items_of wg stride nps)
       (compute_grad_weight_kfn wg indices grad_output count numel stride pso nps)
       buf)
    (j * stride + f)
  = accumulate (plain_term indices grad_output count stride f)
      (seg_begin pso j) (seg_end pso nps numel j).
Proof.
  intros Hseg Hnumel Hsmall Hlen Hj Hf.
  pose proof (seg_count _ _ _ Hseg) as Hn.
  change (compute_grad_weight_kfn wg indices grad_output count numel stride pso nps)
    with (grid_kfn wg stride nps (λ id f,
            [(id * stride + f,
              accumulate (plain_term indices grad_output count stride f)
                (to_int (ld 0 pso id))
                (to_int (if decide (id = nps - 1) then numel else ld 0 pso (id + 1))))])).
  rewrite (grid_fill _ nps buf j f) by (done || lia).
  fold (seg_end pso nps numel j). fold (seg_begin pso j).
  pose proof (seg_begin_nonneg _ _ _ Hseg j Hj) as Hb0.
  pose proof (seg_nonempty _ _ _ Hseg j Hj) as Hbe.
  pose proof (seg_end_le _ _ _ Hseg j Hj) as Hee.
  unfold INT_MAX in *. by rewrite !to_int_small by lia.
Qed.

(** *** [sum_and_scatter] *)

Lemma sum_and_scatter_stores_eq input offs n gwps ppso nps padding_idx :
  segmentation ppso n nps → nps ≤ INT_MAX →
  n * stride_warped_of wg stride ≤ INT_MAX →
  sum_and_scatter_stores wg input stride offs n gwps ppso nps padding_idx
  = seqZ 0 n ≫= (λ id, seqZ 0 stride ≫=
                   scatter_body stride input offs gwps ppso n nps padding_idx id).
Proof.
  intros Hseg Hnps Hsmall.
  pose proof (seg_count _ _ _ Hseg) as Hn.
  unfold sum_and_scatter_stores.
  change (sum_and_scatter_kfn wg input stride offs n gwps ppso nps padding_idx)
    with (grid_kfn wg stride n (λ id f,
            let weight :=
              accumulate (λ j, ld szero gwps (j * stride + f))
                (to_int (ld 0 ppso id))
                (to_int (if decide (id = n - 1) then nps else ld 0 ppso (id + 1))) in
            let target_row := ld 0 input (ld 0 offs id) in
            if decide (target_row ≠ padding_idx) then
              [(target_row * stride + f, weight)]
            else [])).
  rewrite grid_stores by (done || lia).
  apply bind_ext_in. intros id Hid. apply elem_of_seqZ in Hid.
  apply bind_ext_in. intros f Hf. cbv zeta. unfold scatter_body.
  fold (seg_end ppso n nps id). fold (seg_begin ppso id). fold (seg_begin offs id).
  pose proof (seg_begin_nonneg _ _ _ Hseg id ltac:(lia)) as Hb0.
  pose proof (seg_nonempty _ _ _ Hseg id ltac:(lia)) as Hbe.
  pose proof (seg_end_le _ _ _ Hseg id ltac:(lia)) as Hee.
  unfold INT_MAX in *. by rewrite !to_int_small by lia.
Qed.

End Kernel.
End KernelFacts.

Import SumFacts GridFacts KernelFacts.

Module RunFacts.
Import EmbeddingBag ATen.

Section Run.
Context {T : Type} `{ScalarLaws T}.
Variables (wg : Z) (uninit : nat → Z) (uninit_s : nat → T).

Lemma dispatch_ok dt name :
  backward_dtype dt → IPEX_DISPATCH_FLOATING_TYPES_AND BFloat16 dt name = mret dt.
Proof. intros Hdt. unfold IPEX_DISPATCH_FLOATING_TYPES_AND. by rewrite decide_True. Qed.

Lemma acc_type_backward dt :
  backward_dtype dt →
  acc_type dt = if decide (dt = BFloat16) then Float else dt.
Proof. by intros [->| [->| ->]]. Qed.

Lemma data_ptr_ok (t : Tensor T) dt : dtype t = dt → data_ptr dt t = mret (data t).
Proof. intros <-. unfold data_ptr. by rewrite decide_True. Qed.

Lemma run_eq grad orig_indices sorted_indices count num_weights padding_idx
    scale_grad_by_freq mode_mean offset2bag bag_size per_sample_weights :
  sorted_indices ≠ [] →
  Z.of_nat (length sorted_indices) ≤ INT_MAX →
  backward_dtype (dtype grad) →
  weights_dtype_ok (dtype grad) offset2bag per_sample_weights →
  let numel := Z.of_nat (length sorted_indices) in
  let stride := contiguous_stride0 (size1 grad) in
  let offs := boundaries sorted_indices
                ++ drop (length (boundaries sorted_indices)) (empty1 uninit numel) in
  let n := Z.of_nat (length (boundaries sorted_indices)) in
  ∃ p, splitting offs n numel p ∧
    let gwps := partial_sums wg uninit_s grad orig_indices count numel stride
                  mode_mean offset2bag bag_size per_sample_weights p in
    let stores := sum_and_scatter_stores wg sorted_indices stride offs n gwps
                    (partials_per_segment_offset p) (num_of_partial_segments p)
                    padding_idx in
    embedding_bag_backward_dpcpp_run wg true uninit uninit_s grad orig_indices
      sorted_indices count num_weights padding_idx scale_grad_by_freq mode_mean
      offset2bag bag_size per_sample_weights
    = ([K_partials_per_segment; K_partial_segment_offset;
        match offset2bag with
        | Some _ => K_compute_grad_weight_bags
        | None => K_compute_grad_weight
        end;
        K_sum_and_scatter],
       inr (mkRun offs n p
              (mkTensor (if decide (dtype grad = BFloat16) then Float else dtype grad)
                 (num_of_partial_segments p) stride (contiguous_stride0 stride) 1 gwps)
              stores
              (mkTensor (dtype grad) num_weights (size1 grad) stride 1
                 (apply_writes stores
                    (replicate (Z.to_nat (num_weights * size1 grad)) szero))))).
Proof.
  intros Hne Hsmall Hdt Hpsw numel stride offs n.
  pose proof (boundaries_segmentation sorted_indices
                (drop (length (boundaries sorted_indices)) (empty1 uninit numel)) Hne)
    as Hseg. fold offs n numel in Hseg.
  destruct (partial_segments_spec uninit offs n numel Hseg Hsmall) as (p & Hp & Hsp).
  exists p. split; [done|]. intros gwps stores.
  unfold embedding_bag_backward_dpcpp_run. cbn [negb].
  rewrite segment_discovery_eq by done. rewrite bind_mret.
  fold numel offs n. rewrite (bind_ok _ _ _ _ Hp).
  rewrite dispatch_ok, bind_mret by done.
  change (tstride0 (zeros (dtype grad) num_weights (size1 grad))) with stride.
  assert (Hacc : ∀ n0 n1,
            data_ptr (acc_type (dtype grad))
              (empty2 uninit_s (if decide (dtype grad = BFloat16) then Float else dtype grad)
                 n0 n1)
            = mret (uninit_s <$> seq 0 (Z.to_nat (n0 * n1)))).
  { intros n0 n1. rewrite data_ptr_ok; [done|].
    unfold empty2; cbn [dtype]. by rewrite acc_type_backward. }
  assert (Hacc' : ∀ (n0 n1 : Z) d,
            data_ptr (acc_type (dtype grad))
              (set_data
                 (empty2 uninit_s (if decide (dtype grad = BFloat16) then Float else dtype grad)
                    n0 n1) d)
            = mret d).
  { intros n0 n1 d. rewrite data_ptr_ok; [done|].
    unfold empty2, set_data; cbn [dtype]. by rewrite acc_type_backward. }
  assert (Hw : match per_sample_weights with
               | Some w => Some <$> data_ptr (dtype grad) w
               | None => mret None
               end = mret (data <$> per_sample_weights) ∨ offset2bag = None).
  { destruct offset2bag; [left | by right].
    destruct per_sample_weights as [w|]; [|done]. by rewrite data_ptr_ok. }
  destruct offset2bag as [o2b|].
  - destruct Hw as [Hw|]; [|done].
    unfold compute_grad_weight_bags, sum_and_scatter.
    rewrite !Hacc, !(data_ptr_ok grad) by done. rewrite Hw.
    rewrite !(data_ptr_ok (zeros _ _ _)) by done.
    host_run. rewrite !Hacc'. host_run. done.
  - unfold compute_grad_weight, sum_and_scatter.
    rewrite !Hacc, !(data_ptr_ok grad) by done.
    rewrite !(data_ptr_ok (zeros _ _ _)) by done.
    host_run. rewrite !Hacc'. host_run. done.
Qed.

End Run.
End RunFacts.

Import RunFacts.

Module ScatterFacts.
Import EmbeddingBag ATen.

Lemma filter_bind {A B} (P : B → Prop) `{!∀ x, Decision (P x)} (g : A → list B) l :
  filter P (l ≫= g) = l ≫= (λ x, filter P (g x)).
Proof.
  induction l as [|x l IH]; [done|].
  by rewrite !bind_cons, filter_app, IH.
Qed.

(** A bind in which one element only contributes. *)
Lemma bind_single {A B} `{!EqDecision A} (g : A → list B) (l : list A) a :
  NoDup l → a ∈ l → (∀ x, x ∈ l → x ≠ a → g x = []) → l ≫= g = g a.
Proof.
  induction l as [|x l IH]; intros Hnd Ha Hg.
  { by apply elem_of_nil in Ha. }
  apply NoDup_cons in Hnd as [Hx Hnd]. rewrite bind_cons.
  destruct (decide (x = a)) as [->|Hne].
  - rewrite (bind_nil_in g l), app_nil_r; [done|].
    intros y Hy. apply Hg; [by right|]. intros ->. done.
  - rewrite (Hg x) by (done || by left). simpl. apply IH; [done | |].
    + apply elem_of_cons in Ha as [?|?]; [congruence | done].
    + intros y Hy. apply Hg. by right.
Qed.

Lemma ld_replicate_default {A} (d : A) n i : ld d (replicate n d) i = d.
Proof.
  unfold ld. case_decide; [|done].
  destruct (replicate n d !! Z.to_nat i) as [x|] eqn:Hx; [|done].
  apply lookup_replicate in Hx as [-> _]. done.
Qed.

Section Scatter.
Context {T : Type} `{ScalarLaws T}.
Variables (stride : Z) (sorted dst : list Z).
Variables (gwps : list T) (ppso : list Z) (nps padding_idx : Z).
Hypothesis Hstride : 0 < stride.
Hypothesis Hne : sorted ≠ [].
Hypothesis Hsorted : Sorted Z.le sorted.

Let offs := boundaries sorted ++ dst.
Let n := Z.of_nat (length (boundaries sorted)).
Let target (k : Z) : Z := ld 0 sorted (seg_begin offs k).
Let stores : list (Z * T) :=
  seqZ 0 n ≫= (λ id, seqZ 0 stride ≫=
                 scatter_body stride sorted offs gwps ppso n nps padding_idx id).

Lemma target_inj k k' : 0 ≤ k < n → 0 ≤ k' < n → target k = target k' → k = k'.
Proof.
  intros Hk Hk' Heq. unfold target in Heq.
  destruct (Z.lt_trichotomy k k') as [Hlt|[?|Hgt]]; [|done|].
  - pose proof (boundaries_value_mono sorted dst k k' Hne Hsorted
                  ltac:(lia) Hlt ltac:(lia)) as Hm.
    fold offs in Hm. lia.
  - pose proof (boundaries_value_mono sorted dst k' k Hne Hsorted
                  ltac:(lia) ltac:(lia) ltac:(lia)) as Hm.
    fold offs in Hm. lia.
Qed.

Lemma elem_of_stores w :
  w ∈ stores ↔
  ∃ id f, 0 ≤ id < n ∧ 0 ≤ f < stride ∧ target id ≠ padding_idx
          ∧ w = (target id * stride + f,
                 accumulate (λ j, ld szero gwps (j * stride + f))
                   (seg_begin ppso id) (seg_end ppso n nps id)).
Proof.
  unfold stores. rewrite list_elem_of_bind. split.
  - intros (id & Hw & Hid). apply list_elem_of_bind in Hw as (f & Hw & Hf).
    apply elem_of_seqZ in Hid, Hf. unfold scatter_body in Hw.
    fold (target id) in Hw. case_decide as Hp; [|by apply elem_of_nil in Hw].
    apply list_elem_of_singleton in Hw. exists id, f.
    split; [lia|]. split; [lia|]. done.
  - intros (id & f & Hid & Hf & Hp & ->). exists id. split; [|apply elem_of_seqZ; lia].
    apply list_elem_of_bind. exists f. split; [|apply elem_of_seqZ; lia].
    unfold scatter_body. fold (target id). rewrite decide_True by done.
    by apply list_elem_of_singleton.
Qed.

(** The row of a segment whose index is [padding_idx] gets no store. *)
Lemma padding_row_untouched k f w :
  0 ≤ k < n → 0 ≤ f < stride → target k = padding_idx →
  w ∈ stores → w.1 ≠ target k * stride + f.
Proof.
  intros Hk Hf Hpad Hw Heq.
  apply elem_of_stores in Hw as (id & f' & Hid & Hf' & Hp & ->). simpl in Heq.
  destruct (cell_inj stride _ _ _ _ Hf' Hf Heq) as [Ht _]. congruence.
Qed.

(** Every cell of the row of another segment gets one store. *)
Lemma row_stored_once k f :
  0 ≤ k < n → 0 ≤ f < stride → target k ≠ padding_idx →
  filter (λ w, w.1 = target k * stride + f) stores
  = [(target k * stride + f,
      accumulate (λ j, ld szero gwps (j * stride + f))
        (seg_begin ppso k) (seg_end ppso n nps k))].
Proof.
  intros Hk Hf Hp. unfold stores. rewrite filter_bind.
  rewrite (bind_single _ _ k); [|apply NoDup_seqZ|apply elem_of_seqZ; lia|].
  - rewrite filter_bind.
    rewrite (bind_single _ _ f); [|apply NoDup_seqZ|apply elem_of_seqZ; lia|].
    + unfold scatter_body. fold (target k). rewrite decide_True by done.
      rewrite filter_cons, decide_True by done. done.
    + intros f' Hf' Hff. apply elem_of_seqZ in Hf'.
      unfold scatter_body. fold (target k). rewrite decide_True by done.
      rewrite filter_cons, decide_False; [done|]. simpl. lia.
  - intros id Hid Hidk. apply elem_of_seqZ in Hid.
    rewrite filter_bind. apply bind_nil_in. intros f' Hf'. apply elem_of_seqZ in Hf'.
    unfold scatter_body. fold (target id). case_decide; [|done].
    rewrite filter_cons, decide_False; [done|]. simpl. intros Heq.
    destruct (cell_inj stride (target id) f' (target k) f ltac:(lia) Hf Heq) as [Ht _].
    apply Hidk, target_inj; (done || lia).
Qed.

End Scatter.
End ScatterFacts.

Import ScatterFacts.

Module ConservationFacts.
Import EmbeddingBag ATen.

Section SegmentSum.
Context {T : Type} `{ScalarLaws T}.
Variables (offs : list Z) (n numel stride : Z) (p : partials).
Hypothesis Hseg : segmentation offs n numel.
Hypothesis Hsp : splitting offs n numel p.
Variables (gwps : list T) (term : Z → Z → T).

Let ppso := partials_per_segment_offset p.
Let nps := num_of_partial_segments p.
Let pso := partial_segment_offset p.

Hypothesis Hgwps : ∀ j f, 0 ≤ j < nps → 0 ≤ f < stride →
  ld szero gwps (j * stride + f)
  = accumulate (term f) (seg_begin pso j) (seg_end pso nps numel j).

(** The partial sums of a segment add up to the sum over the segment. *)
Lemma segment_sum k f :
  0 ≤ k < n → 0 ≤ f < stride →
  accumulate (λ j, ld szero gwps (j * stride + f))
    (seg_begin ppso k) (seg_end ppso n nps k)
  = accumulate (term f) (seg_begin offs k) (seg_end offs n numel k).
Proof.
  intros Hk Hf.
  pose proof (splitting_segmentation offs n numel p Hseg Hsp) as Hpso.
  fold pso nps in Hpso.
  pose proof (count_spec offs n numel p Hseg Hsp k Hk) as [_ Hc1].
  set (c := ld 0 (partials_per_segment p) k) in *.
  pose proof (sp_scan_end _ _ _ _ Hsp k Hk) as Hend. fold ppso nps c in Hend.
  set (b := λ j, if decide (j = nps) then numel else ld 0 pso j).
  assert (Hb1 : ∀ j, 0 ≤ j < nps → seg_begin pso j = b j).
  { intros j Hj. unfold b, seg_begin. by rewrite decide_False by lia. }
  assert (Hb2 : ∀ j, 0 ≤ j < nps → seg_end pso nps numel j = b (j + 1)).
  { intros j Hj. unfold b, seg_end. repeat case_decide; (done || lia). }
  pose proof (flat_index_range offs n numel p Hsp k 0 Hk ltac:(fold c; lia)) as Hr0.
  pose proof (flat_index_range offs n numel p Hsp k (c - 1) Hk ltac:(fold c; lia)) as Hr1.
  fold ppso nps in Hr0, Hr1. unfold seg_begin at 1. rewrite Hend.
  rewrite (accumulate_ext _ (λ j, accumulate (term f) (b j) (b (j + 1)))).
  2:{ intros j Hj. rewrite Hgwps by lia. rewrite Hb1, Hb2 by lia. done. }
  rewrite accumulate_chunks; [|lia|].
  2:{ intros j Hj. rewrite <- Hb1, <- Hb2 by lia.
      pose proof (seg_nonempty _ _ _ Hpso j ltac:(lia)). lia. }
  f_equal.
  - rewrite <- Hb1 by lia. replace (ld 0 ppso k) with (ld 0 ppso k + 0) by lia.
    unfold pso, ppso. rewrite (partial_begin offs n numel p Hsp) by (fold c; lia). lia.
  - replace (ld 0 ppso k + c) with (ld 0 ppso k + (c - 1) + 1) by lia.
    rewrite <- Hb2 by lia. unfold pso, ppso, nps.
    rewrite (partial_end offs n numel p Hseg Hsp) by (fold c; lia).
    fold c. by rewrite decide_False by lia.
Qed.

End SegmentSum.

Lemma filter_all {A} (P : A → Prop) `{!∀ x, Decision (P x)} (l : list A) :
  (∀ x, x ∈ l → P x) → filter P l = l.
Proof.
  induction l as [|x l IH]; intros Hl; [done|].
  rewrite filter_cons, decide_True by (apply Hl; by left).
  f_equal. apply IH. intros y Hy. apply Hl. by right.
Qed.

Lemma filter_none {A} (P : A → Prop) `{!∀ x, Decision (P x)} (l : list A) :
  (∀ x, x ∈ l → ¬ P x) → filter P l = [].
Proof.
  induction l as [|x l IH]; intros Hl; [done|].
  rewrite filter_cons, decide_False by (apply Hl; by left).
  apply IH. intros y Hy. apply Hl. by right.
Qed.

(** Filtering the positions below [N] by a predicate that holds on an
    interval gives the interval. *)
Lemma filter_interval (P : Z → Prop) `{!∀ x, Decision (P x)} a b N :
  0 ≤ a → a ≤ b → b ≤ N →
  (∀ i, 0 ≤ i < N → P i ↔ a ≤ i < b) →
  filter P (seqZ 0 N) = for_each a b.
Proof.
  intros Ha Hab Hb HP.
  replace N with (a + ((b - a) + (N - b))) by lia.
  rewrite !seqZ_app, !filter_app by lia. rewrite !Z.add_0_l.
  rewrite (filter_none P (seqZ 0 a)), (filter_none P (seqZ (a + (b - a)) (N - b))).
  - rewrite app_nil_r. simpl. apply filter_all.
    intros i Hi. apply elem_of_seqZ in Hi. apply HP; lia.
  - intros i Hi. apply elem_of_seqZ in Hi. rewrite HP by lia. lia.
  - intros i Hi. apply elem_of_seqZ in Hi. rewrite HP by lia. lia.
Qed.

Lemma fmap_filter_comm {A B} (f : A → B) (P : A → Prop) (Q : B → Prop)
    `{!∀ x, Decision (P x)} `{!∀ x, Decision (Q x)} (l : list A) :
  (∀ x, x ∈ l → P x ↔ Q (f x)) → f <$> filter P l = filter Q (f <$> l).
Proof.
  induction l as [|x l IH]; intros Hl; [done|].
  rewrite fmap_cons, !filter_cons.
  rewrite <- IH by (intros y Hy; apply Hl; by right).
  destruct (decide (P x)) as [HP|HP], (decide (Q (f x))) as [HQ|HQ]; try done;
    exfalso; apply (Hl x) in HP || apply (Hl x) in HQ; try done; by left.
Qed.

Lemma fmap_ld_seqZ (l : list Z) : ld 0 l <$> seqZ 0 (Z.of_nat (length l)) = l.
Proof.
  apply list_eq. intros i. rewrite list_lookup_fmap.
  destruct (decide (i < length l)%nat) as [Hi|Hi].
  - rewrite lookup_seqZ_lt by lia. simpl. rewrite Z.add_0_l.
    destruct (lookup_lt_is_Some_2 l i Hi) as [x Hx].
    by rewrite Hx, (ld_lookup_nat 0 l i x).
  - rewrite lookup_seqZ_ge by lia. by rewrite lookup_ge_None_2 by lia.
Qed.

(** *** The sorted stream and its permutation *)

Section Sorted.
Variables (indices : list Z) (zipped : list (Z * Z)).

Let N := Z.of_nat (length indices).
Let sorted := zipped.*1.
Let orig := zipped.*2.

Hypothesis Hperm : zipped ≡ₚ zip indices (seqZ 0 N).

Lemma length_zipped : Z.of_nat (length zipped) = N.
Proof.
  rewrite Hperm, length_zip, length_seqZ. unfold N. lia.
Qed.

Lemma length_sorted : Z.of_nat (length sorted) = N.
Proof. unfold sorted. rewrite length_fmap. apply length_zipped. Qed.

Lemma length_orig : Z.of_nat (length orig) = N.
Proof. unfold orig. rewrite length_fmap. apply length_zipped. Qed.

Lemma sorted_Permutation : sorted ≡ₚ indices.
Proof.
  unfold sorted. rewrite Hperm. rewrite fst_zip; [done|].
  rewrite length_seqZ. unfold N. lia.
Qed.

Lemma orig_Permutation : orig ≡ₚ seqZ 0 N.
Proof.
  unfold orig. rewrite Hperm. rewrite snd_zip; [done|].
  rewrite length_seqZ. unfold N. lia.
Qed.

(** Position [i] of the sorted stream holds the index found at position
    [orig i] of the stream. *)
Lemma sorted_orig i :
  0 ≤ i < N →
  ld 0 sorted i = ld 0 indices (ld 0 orig i) ∧ 0 ≤ ld 0 orig i < N.
Proof.
  intros Hi. pose proof length_zipped as Hlz.
  destruct (lookup_lt_is_Some_2 zipped (Z.to_nat i) ltac:(lia)) as [[v q] Hvq].
  assert (Hs : ld 0 sorted i = v).
  { apply ld_lookup; [lia|]. unfold sorted. by rewrite list_lookup_fmap, Hvq. }
  assert (Ho : ld 0 orig i = q).
  { apply ld_lookup; [lia|]. unfold orig. by rewrite list_lookup_fmap, Hvq. }
  rewrite Hs, Ho.
  apply list_elem_of_lookup_2 in Hvq. rewrite Hperm in Hvq.
  apply list_elem_of_lookup_1 in Hvq as [j Hj].
  apply lookup_zip_Some in Hj as [Hj1 Hj2].
  apply lookup_seqZ in Hj2 as [-> Hj2]. rewrite Z.add_0_l.
  split; [|lia]. symmetry. by apply ld_lookup_nat.
Qed.

Hypothesis Hne : indices ≠ [].
Hypothesis Hsorted : Sorted Z.le sorted.

Lemma sorted_nonempty : sorted ≠ [].
Proof.
  intros Hnil. pose proof length_sorted as Hl. rewrite Hnil in Hl.
  unfold N in Hl. destruct indices; [done | simpl in Hl; lia].
Qed.

Variable dst : list Z.
Let offs := boundaries sorted ++ dst.
Let n := Z.of_nat (length (boundaries sorted)).

(** The positions of a segment are those of the sorted stream that hold its
    index. *)
Lemma segment_positions k :
  0 ≤ k < n →
  filter (λ i, ld 0 sorted i = ld 0 sorted (seg_begin offs k)) (seqZ 0 N)
  = for_each (seg_begin offs k) (seg_end offs n N k).
Proof.
  intros Hk. pose proof sorted_nonempty as Hsne.
  pose proof (boundaries_segmentation sorted dst Hsne) as Hseg.
  rewrite length_sorted in Hseg. fold offs n in Hseg.
  pose proof (seg_begin_nonneg _ _ _ Hseg k Hk).
  pose proof (seg_nonempty _ _ _ Hseg k Hk).
  pose proof (seg_end_le _ _ _ Hseg k Hk).
  apply filter_interval; [lia | lia | lia |].
  intros i Hi. split.
  - intros Hv. destruct (seg_cover _ _ _ Hseg i Hi) as (k' & Hk' & Hr).
    pose proof (boundaries_const sorted dst k' i Hsne) as Hc. cbv zeta in Hc.
    rewrite length_sorted in Hc. fold offs n in Hc.
    specialize (Hc Hk' Hr). rewrite Hc in Hv.
    assert (k' = k) as ->; [|done].
    destruct (Z.lt_trichotomy k' k) as [Hlt|[?|Hgt]]; [|done|].
    + pose proof (boundaries_value_mono sorted dst k' k Hsne Hsorted
                    ltac:(lia) Hlt ltac:(fold n; lia)) as Hm.
      fold offs in Hm. lia.
    + pose proof (boundaries_value_mono sorted dst k k' Hsne Hsorted
                    ltac:(lia) ltac:(lia) ltac:(fold n; lia)) as Hm.
      fold offs in Hm. lia.
  - intros Hr. pose proof (boundaries_const sorted dst k i Hsne) as Hc.
    cbv zeta in Hc. rewrite length_sorted in Hc. fold offs n in Hc.
    by apply Hc.
Qed.

(** The lookups of a segment are, up to their order, those of the stream
    that hold its index. *)
Lemma segment_lookups k :
  0 ≤ k < n →
  ld 0 orig <$> for_each (seg_begin offs k) (seg_end offs n N k)
  ≡ₚ filter (λ q, ld 0 indices q = ld 0 sorted (seg_begin offs k)) (seqZ 0 N).
Proof.
  intros Hk. rewrite <- segment_positions by done.
  rewrite (fmap_filter_comm (ld 0 orig) _
             (λ q, ld 0 indices q = ld 0 sorted (seg_begin offs k))).
  - rewrite <- length_orig, fmap_ld_seqZ, length_orig. by rewrite orig_Permutation.
  - intros i Hi. apply elem_of_seqZ in Hi.
    destruct (sorted_orig i ltac:(lia)) as [-> _]. done.
Qed.

(** Every index of the stream is the index of a segment. *)
Lemma index_has_segment q :
  0 ≤ q < N → ∃ k, 0 ≤ k < n ∧ ld 0 sorted (seg_begin offs k) = ld 0 indices q.
Proof.
  intros Hq. pose proof sorted_nonempty as Hsne.
  pose proof (boundaries_segmentation sorted dst Hsne) as Hseg.
  rewrite length_sorted in Hseg. fold offs n in Hseg.
  assert (Hin : ld 0 indices q ∈ sorted).
  { rewrite sorted_Permutation. eapply list_elem_of_lookup_2.
    apply lookup_ld. unfold N in Hq. lia. }
  apply list_elem_of_lookup_1 in Hin as [i Hi].
  pose proof (lookup_lt_Some _ _ _ Hi) as Hlt. pose proof length_sorted.
  destruct (seg_cover _ _ _ Hseg (Z.of_nat i) ltac:(lia)) as (k & Hk & Hr).
  exists k. split; [done|].
  pose proof (boundaries_const sorted dst k (Z.of_nat i) Hsne) as Hc.
  cbv zeta in Hc. rewrite length_sorted in Hc. fold offs n in Hc.
  rewrite <- Hc by done. by apply ld_lookup_nat.
Qed.

End Sorted.
End ConservationFacts.

Import ConservationFacts.

Module BackwardTheorems.
Import EmbeddingBag ATen.

(** C2, as amended.  For every non-empty sorted index stream, the
    segment-discovery block (adjacent-inequality mask with position 0 forced
    to 1, then compaction of the mask positions) returns segment offsets whose
    ranges partition [0, N) exactly once: every position lies in one segment
    and in one only, no segment is empty and none leaves the stream; every
    segment holds one index value, and distinct segments hold distinct
    values. *)
Theorem segment_discovery_partition (sorted_indices segment_offsets : list Z) :
  sorted_indices ≠ [] → Sorted Z.le sorted_indices →
  let N := Z.of_nat (length sorted_indices) in
  ∃ offs n,
    segment_discovery sorted_indices segment_offsets = mret (offs, n)
    ∧ 1 ≤ n ≤ N
    ∧ (∀ k, 0 ≤ k < n →
         0 ≤ seg_begin offs k < seg_end offs n N k ∧ seg_end offs n N k ≤ N)
    ∧ (∀ p, 0 ≤ p < N →
         ∃ k, (0 ≤ k < n ∧ seg_begin offs k ≤ p < seg_end offs n N k)
              ∧ ∀ k', 0 ≤ k' < n → seg_begin offs k' ≤ p < seg_end offs n N k' →
                      k' = k)
    ∧ (∀ k p, 0 ≤ k < n → seg_begin offs k ≤ p < seg_end offs n N k →
         ld 0 sorted_indices p = ld 0 sorted_indices (seg_begin offs k))
    ∧ (∀ k k', 0 ≤ k < n → 0 ≤ k' < n → k ≠ k' →
         ld 0 sorted_indices (seg_begin offs k)
         ≠ ld 0 sorted_indices (seg_begin offs k')).
Proof.
  intros Hne Hsorted N.
  set (dst := drop (length (boundaries sorted_indices)) segment_offsets).
  exists (boundaries sorted_indices ++ dst), (Z.of_nat (length (boundaries sorted_indices))).
  pose proof (boundaries_segmentation sorted_indices dst Hne) as Hseg. fold N in Hseg.
  split; [by apply segment_discovery_eq|].
  split. { pose proof (seg_count _ _ _ Hseg). pose proof (length_boundaries sorted_indices).
           unfold N. lia. }
  split. { intros k Hk. pose proof (seg_begin_nonneg _ _ _ Hseg k Hk).
           pose proof (seg_nonempty _ _ _ Hseg k Hk).
           pose proof (seg_end_le _ _ _ Hseg k Hk). lia. }
  split. { intros p Hp. destruct (seg_cover _ _ _ Hseg p Hp) as (k & Hk & Hr).
           exists k. split; [done|]. intros k' Hk' Hr'.
           by apply (seg_disjoint _ _ _ Hseg p). }
  split. { intros k p Hk Hr. by apply (boundaries_const sorted_indices dst k p Hne). }
  intros k k' Hk Hk' Hkk.
  destruct (Z.lt_trichotomy k k') as [Hlt|[?|Hgt]]; [|done|].
  - pose proof (boundaries_value_mono sorted_indices dst k k' Hne Hsorted
                  ltac:(lia) Hlt ltac:(lia)). lia.
  - pose proof (boundaries_value_mono sorted_indices dst k' k Hne Hsorted
                  ltac:(lia) ltac:(lia) ltac:(lia)). lia.
Qed.

(** C2, the empty stream: forcing position 0 of the mask raises an index
    error there, and no segment offsets are returned. *)
Lemma segment_discovery_empty_stream :
  segment_discovery [] [] = throw IndexError
  ∧ ¬ ∃ offs n, segment_discovery [] [] = mret (offs, n).
Proof. split; [done|]. intros (offs & n & Heq). discriminate Heq. Qed.

(** C3.  For every segment of a segmented stream, the splitting stage makes
    exactly ceil(length / NROWS_PER_THREAD) partial segments, with
    NROWS_PER_THREAD = 10; their start offsets are
    segment_offset + i * NROWS_PER_THREAD for i = 0 .. count - 1, laid out
    contiguously per segment in the flattened array (the run of segment k
    starts where the run of segment k - 1 ends, the first at 0, the last
    ending at the total count).  Hence every partial segment has between 1 and
    NROWS_PER_THREAD positions, and a position lies in the segment exactly
    when it lies in one of the segment's partial segments, and then in one
    only. *)
Theorem partial_segment_splitting (uninit : nat → Z) (offs : list Z) (n numel : Z) :
  segmentation offs n numel → numel ≤ INT_MAX →
  ∃ p, partial_segments uninit offs n numel
       = ([K_partials_per_segment; K_partial_segment_offset], inr p)
    ∧ NROWS_PER_THREAD = 10
    ∧ let pps := partials_per_segment p in
      let ppso := partials_per_segment_offset p in
      let nps := num_of_partial_segments p in
      let pso := partial_segment_offset p in
      Z.of_nat (length pso) = nps
      ∧ ld 0 ppso 0 = 0
      ∧ ∀ k, 0 ≤ k < n →
          let len := seg_end offs n numel k - seg_begin offs k in
          let count := ld 0 pps k in
          (count = CeilDiv len NROWS_PER_THREAD
           ∧ NROWS_PER_THREAD * (count - 1) < len ≤ NROWS_PER_THREAD * count)
          ∧ seg_end ppso n nps k = ld 0 ppso k + count
          ∧ (∀ i, 0 ≤ i < count →
               let j := ld 0 ppso k + i in
               0 ≤ j < nps
               ∧ seg_begin pso j = seg_begin offs k + i * NROWS_PER_THREAD
               ∧ 1 ≤ seg_end pso nps numel j - seg_begin pso j ≤ NROWS_PER_THREAD)
          ∧ (∀ q, seg_begin offs k ≤ q < seg_end offs n numel k
                  ↔ ∃ i, 0 ≤ i < count
                         ∧ seg_begin pso (ld 0 ppso k + i) ≤ q
                           < seg_end pso nps numel (ld 0 ppso k + i))
          ∧ (∀ q i i', 0 ≤ i < count → 0 ≤ i' < count →
               seg_begin pso (ld 0 ppso k + i) ≤ q
                 < seg_end pso nps numel (ld 0 ppso k + i) →
               seg_begin pso (ld 0 ppso k + i') ≤ q
                 < seg_end pso nps numel (ld 0 ppso k + i') →
               i = i').
Proof.
  intros Hseg Hsmall.
  destruct (partial_segments_spec uninit offs n numel Hseg Hsmall) as (p & Hp & Hsp).
  exists p. split; [done|]. split; [done|]. cbv zeta.
  pose proof (splitting_segmentation offs n numel p Hseg Hsp) as Hpso.
  split; [apply (sp_len_pso _ _ _ _ Hsp)|].
  split; [apply (seg_first _ _ _ (sp_scan _ _ _ _ Hsp))|].
  intros k Hk.
  pose proof (count_spec offs n numel p Hseg Hsp k Hk) as [Hc Hc1]. cbv zeta in Hc.
  split. { split; [apply (sp_count _ _ _ _ Hsp); done | done]. }
  split; [by apply (sp_scan_end _ _ _ _ Hsp)|].
  split.
  { intros i Hi.
    pose proof (flat_index_range offs n numel p Hsp k i Hk Hi).
    pose proof (partial_bounds offs n numel p Hseg Hsp k i Hk Hi) as (? & ? & ? & ?).
    split; [done|]. split; [by apply (partial_begin offs n numel p Hsp) | lia]. }
  split; [intros q; by apply (partial_cover offs n numel p Hseg Hsp)|].
  intros q i i' Hi Hi' Hq Hq'.
  pose proof (flat_index_range offs n numel p Hsp k i Hk Hi).
  pose proof (flat_index_range offs n numel p Hsp k i' Hk Hi').
  pose proof (seg_disjoint _ _ _ Hpso q (ld 0 (partials_per_segment_offset p) k + i)
                (ld 0 (partials_per_segment_offset p) k + i') ltac:(done) ltac:(done) Hq Hq').
  lia.
Qed.

Section Backward.
Context {T : Type} `{ScalarLaws T}.
Variables (wg : Z) (uninit : nat → Z) (uninit_s : nat → T).
Hypothesis Hwg : 0 < wg.

(** A run of the segmented backward, with the stores of [sum_and_scatter]
    listed segment by segment. *)
Lemma run_structure grad orig_indices sorted_indices count num_weights padding_idx
    scale_grad_by_freq mode_mean offset2bag bag_size per_sample_weights :
  sorted_indices ≠ [] →
  0 < size1 grad →
  Z.of_nat (length sorted_indices) * stride_warped_of wg (size1 grad) ≤ INT_MAX →
  backward_dtype (dtype grad) →
  weights_dtype_ok (dtype grad) offset2bag per_sample_weights →
  let numel := Z.of_nat (length sorted_indices) in
  let stride := size1 grad in
  let offs := boundaries sorted_indices
                ++ drop (length (boundaries sorted_indices)) (empty1 uninit numel) in
  let n := Z.of_nat (length (boundaries sorted_indices)) in
  ∃ p, splitting offs n numel p ∧ numel ≤ INT_MAX ∧
    let gwps := partial_sums wg uninit_s grad orig_indices count numel stride
                  mode_mean offset2bag bag_size per_sample_weights p in
    let stores :=
      seqZ 0 n ≫= (λ id, seqZ 0 stride ≫=
        scatter_body stride sorted_indices offs gwps
          (partials_per_segment_offset p) n (num_of_partial_segments p)
          padding_idx id) in
    embedding_bag_backward_dpcpp_run wg true uninit uninit_s grad orig_indices
      sorted_indices count num_weights padding_idx scale_grad_by_freq mode_mean
      offset2bag bag_size per_sample_weights
    = ([K_partials_per_segment; K_partial_segment_offset;
        match offset2bag with
        | Some _ => K_compute_grad_weight_bags
        | None => K_compute_grad_weight
        end;
        K_sum_and_scatter],
       inr (mkRun offs n p
              (mkTensor (if decide (dtype grad = BFloat16) then Float else dtype grad)
                 (num_of_partial_segments p) stride stride 1 gwps)
              stores
              (mkTensor (dtype grad) num_weights (size1 grad) stride 1
                 (apply_writes stores
                    (replicate (Z.to_nat (num_weights * size1 grad)) szero))))).
Proof.
  intros Hne Hs1 Hsmall Hdt Hpsw numel stride offs n.
  pose proof (stride_warped_bounds wg (size1 grad) Hwg Hs1) as [Hsw _].
  assert (Hnumel : numel ≤ INT_MAX) by (unfold numel; nia).
  destruct (run_eq wg uninit uninit_s grad orig_indices sorted_indices count
              num_weights padding_idx scale_grad_by_freq mode_mean offset2bag
              bag_size per_sample_weights Hne Hnumel Hdt Hpsw) as (p & Hsp & Hrun).
  cbv zeta in Hrun.
  assert (Hstr : contiguous_stride0 (size1 grad) = size1 grad)
    by (unfold contiguous_stride0; lia).
  rewrite !Hstr in Hrun. fold numel offs n stride in Hsp, Hrun.
  exists p. split; [done|]. split; [done|]. intros gwps stores.
  rewrite Hrun.
  pose proof (length_boundaries sorted_indices) as Hlb.
  pose proof (sp_total _ _ _ _ Hsp) as Htot.
  rewrite (sum_and_scatter_stores_eq wg stride Hwg Hs1 sorted_indices offs n gwps
             (partials_per_segment_offset p) (num_of_partial_segments p) padding_idx
             (sp_scan _ _ _ _ Hsp)) by (unfold n, numel, stride in *; nia).
  done.
Qed.

(** X14.  In the run of the segmented backward over a stream whose work-item
    ids fit an [int], for every gradient input and every segment: when the
    index of the segment equals [padding_idx], no store of [sum_and_scatter]
    addresses a cell of its output row and the row keeps the zeros it was
    allocated with; otherwise every cell of its row is stored exactly
    once. *)
Theorem padding_exclusion grad orig_indices sorted_indices count num_weights
    padding_idx scale_grad_by_freq mode_mean offset2bag bag_size per_sample_weights :
  sorted_indices ≠ [] → Sorted Z.le sorted_indices →
  0 < size1 grad →
  Z.of_nat (length sorted_indices) * stride_warped_of wg (size1 grad) ≤ INT_MAX →
  backward_dtype (dtype grad) →
  weights_dtype_ok (dtype grad) offset2bag per_sample_weights →
  ∃ r,
    outcome (embedding_bag_backward_dpcpp_run wg true uninit uninit_s grad
               orig_indices sorted_indices count num_weights padding_idx
               scale_grad_by_freq mode_mean offset2bag bag_size per_sample_weights)
    = inr r
    ∧ outcome (embedding_bag_backward_dpcpp_kernel wg true uninit uninit_s grad
                 orig_indices sorted_indices count num_weights padding_idx
                 scale_grad_by_freq mode_mean offset2bag bag_size per_sample_weights)
      = inr (run_grad_weight r)
    ∧ data (run_grad_weight r)
      = apply_writes (run_stores r)
          (data (zeros (dtype grad) num_weights (size1 grad)))
    ∧ ∀ k f, 0 ≤ k < run_num_of_segments r → 0 ≤ f < size1 grad →
        let target_row := ld 0 sorted_indices (seg_begin (run_segment_offsets r) k) in
        let cell := target_row * size1 grad + f in
        (target_row = padding_idx →
           (∀ w, w ∈ run_stores r → w.1 ≠ cell)
           ∧ ld szero (data (run_grad_weight r)) cell = szero)
        ∧ (target_row ≠ padding_idx →
             length (filter (λ w, w.1 = cell) (run_stores r)) = 1%nat).
Proof.
  intros Hne Hsorted Hs1 Hsmall Hdt Hpsw.
  destruct (run_structure grad orig_indices sorted_indices count num_weights
              padding_idx scale_grad_by_freq mode_mean offset2bag bag_size
              per_sample_weights Hne Hs1 Hsmall Hdt Hpsw) as (p & Hsp & _ & Hrun).
  cbv zeta in Hrun. unfold embedding_bag_backward_dpcpp_kernel.
  rewrite (fmap_ok _ _ _ _ Hrun), Hrun. eexists. split; [reflexivity|].
  split; [reflexivity|]. cbn [run_grad_weight run_stores run_num_of_segments
                               run_segment_offsets data zeros].
  split; [done|]. intros k f Hk Hf. cbv zeta. split.
  - intros Hpad.
    match goal with |- (∀ w, w ∈ ?ws → _) ∧ _ =>
      assert (Hun : ∀ w, w ∈ ws →
                w.1 ≠ ld 0 sorted_indices
                        (seg_begin (boundaries sorted_indices
                           ++ drop (length (boundaries sorted_indices))
                                (empty1 uninit (Z.of_nat (length sorted_indices)))) k)
                      * size1 grad + f)
    end.
    { intros w Hw. eapply padding_row_untouched; eauto. }
    split; [exact Hun|].
    rewrite ld_apply_writes_other by exact Hun. apply ld_replicate_default.
  - intros Hpad. erewrite row_stored_once; eauto.
Qed.

End Backward.

Section Overflow.
Context {T : Type} `{Scalar T}.

Lemma to_int_bounds (x : Z) : - 2147483648 ≤ to_int x < 2147483648.
Proof.
  unfold to_int.
  pose proof (Z.mod_pos_bound (x + 2 ^ 31) (2 ^ 32) ltac:(lia)). lia.
Qed.

(** C4, where it fails.  [sum_and_scatter] takes the global id of a work
    item into an [int].  On a device with work groups of 1024 items, with a
    gradient of 16 features and a stream of 2,097,153 segments, the kernel is
    launched over 2,147,484,672 work items, more than an [int] holds.  Work
    item 2^31 gets the id -2^31: it passes both guards as feature 0 of the
    segment -2,097,152, which there is not, reads the offsets before their
    first position and stores.  No work item gets the id of the last
    segment, 2,097,152, whose row is so never stored by an item of its
    own. *)
Theorem sum_and_scatter_gid_overflow
    (input segment_offsets segment_sizes_offsets : list Z)
    (grad_weight_per_segment : list T)
    (num_of_partial_segments padding_idx : Z) :
  let wg := 1024 in
  let stride := 16 in
  let num_of_segments := 2097153 in
  total_items_of wg stride num_of_segments = 2147484672
  ∧ INT_MAX < 2147483648 < total_items_of wg stride num_of_segments
  ∧ sum_and_scatter_kfn wg input stride segment_offsets num_of_segments
      grad_weight_per_segment segment_sizes_offsets num_of_partial_segments
      padding_idx 2147483648
    = (let id := -2097152 in
       let startFeature := 0 in
       let idx_begin := to_int (ld 0 segment_sizes_offsets id) in
       let idx_end := to_int (ld 0 segment_sizes_offsets (id + 1)) in
       let weight :=
         fold_left (λ weight idx,
             sadd weight
               (ld szero grad_weight_per_segment (idx * stride + startFeature)))
           (for_each idx_begin idx_end) szero in
       let target_row := ld 0 input (ld 0 segment_offsets id) in
       if decide (target_row ≠ padding_idx) then
         [(target_row * stride + startFeature, weight)]
       else [])
  ∧ ∀ gid0,
      to_int (cdiv (to_int gid0) (stride_warped_of wg stride))
      ≠ num_of_segments - 1.
Proof.
  cbv zeta. split; [by vm_compute|]. split; [by vm_compute|].
  split; [reflexivity|].
  intros gid0. change (stride_warped_of 1024 16) with 1024. unfold cdiv.
  pose proof (to_int_bounds gid0) as Hg.
  assert (Hq : - 2097152 ≤ to_int gid0 ÷ 1024 ≤ 2097151).
  { split.
    - change (- 2097152) with ((- 2147483648) ÷ 1024).
      apply Z.quot_le_mono; lia.
    - change 2097151 with (2147483647 ÷ 1024).
      apply Z.quot_le_mono; lia. }
  unfold to_int at 1.
  rewrite Z.mod_small by lia. lia.
Qed.

End Overflow.
End BackwardTheorems.

Import BackwardTheorems.

Module SumAvgTheorems.
Import EmbeddingBag ATen PSTL.

Section SumAvg.
Context {T : Type} `{ScalarLaws T}.
Variables (wg : Z) (uninit : nat → Z) (uninit_s : nat → T).
Variable sort_by_key : list (Z * Z) → list (Z * Z).
Hypothesis Hwg : 0 < wg.

(** What the code relies on from [std::sort]. *)
Hypothesis Hsort_perm : ∀ l, sort_by_key l ≡ₚ l.
Hypothesis Hsort_sorted : ∀ l, Sorted Z.le (sort_by_key l).*1.

Lemma sum_avg_unfold grad indices offsets offset2bag bag_size num_weights
    scale_grad_by_freq mode per_sample_weights :
  indices ≠ [] →
  let zipped := sort_by_key (zip indices (iota (Z.of_nat (length indices)) 0)) in
  embedding_bag_backward_dpcpp_sum_avg wg true uninit uninit_s sort_by_key grad
    indices offsets offset2bag bag_size num_weights scale_grad_by_freq mode
    per_sample_weights
  = embedding_bag_backward_dpcpp_kernel wg true uninit uninit_s grad
      zipped.*2 zipped.*1
      (if scale_grad_by_freq then Some (frequency_count zipped.*1) else None)
      num_weights (-1) scale_grad_by_freq (bool_decide (mode = MODE_MEAN))
      offset2bag bag_size per_sample_weights.
Proof.
  intros Hne zipped. unfold embedding_bag_backward_dpcpp_sum_avg. cbn [negb].
  rewrite decide_False; [done|]. destruct indices; [done | simpl; lia].
Qed.

(** C10, as amended.  The public sum and mean backward runs the segmented
    kernel with [padding_idx] fixed to -1 for every index stream that is not
    empty (for an empty stream it returns zeros and runs no kernel at all).
    On well-formed input, whose indices are not negative, the index of no
    segment equals -1: the padding comparison of [sum_and_scatter] never
    holds, every cell of every segment's row is stored exactly once, and the
    gradient that is returned holds the stored value there. *)
Theorem padding_exclusion_unreachable (grad : Tensor T)
    (indices offsets : list Z) (offset2bag : option (list Z)) (bag_size : list Z)
    (num_weights : Z) (scale_grad_by_freq : bool) (mode : Z)
    (per_sample_weights : option (Tensor T)) :
  (∀ x, x ∈ indices → 0 ≤ x < num_weights) →
  0 < size1 grad →
  Z.of_nat (length indices) * stride_warped_of wg (size1 grad) ≤ INT_MAX →
  backward_dtype (dtype grad) →
  weights_dtype_ok (dtype grad) offset2bag per_sample_weights →
  let zipped := sort_by_key (zip indices (iota (Z.of_nat (length indices)) 0)) in
  let sorted_indices := zipped.*1 in
  let orig_indices := zipped.*2 in
  let count :=
    if scale_grad_by_freq then Some (frequency_count sorted_indices) else None in
  let call :=
    embedding_bag_backward_dpcpp_sum_avg wg true uninit uninit_s sort_by_key grad
      indices offsets offset2bag bag_size num_weights scale_grad_by_freq mode
      per_sample_weights in
  if decide (indices = []) then
    call = mret (zeros (dtype grad) num_weights (size1 grad))
  else
    call
    = embedding_bag_backward_dpcpp_kernel wg true uninit uninit_s grad
        orig_indices sorted_indices count num_weights (-1) scale_grad_by_freq
        (bool_decide (mode = MODE_MEAN)) offset2bag bag_size per_sample_weights
    ∧ ∃ r,
        outcome (embedding_bag_backward_dpcpp_run wg true uninit uninit_s grad
                   orig_indices sorted_indices count num_weights (-1)
                   scale_grad_by_freq (bool_decide (mode = MODE_MEAN))
                   offset2bag bag_size per_sample_weights) = inr r
        ∧ outcome call = inr (run_grad_weight r)
        ∧ K_sum_and_scatter ∈ trace call
        ∧ data (run_grad_weight r)
          = apply_writes (run_stores r)
              (data (zeros (dtype grad) num_weights (size1 grad)))
        ∧ ∀ k f, 0 ≤ k < run_num_of_segments r → 0 ≤ f < size1 grad →
            let target_row :=
              ld 0 sorted_indices (seg_begin (run_segment_offsets r) k) in
            let cell := target_row * size1 grad + f in
            target_row ≠ -1
            ∧ ∃ v, filter (λ w, w.1 = cell) (run_stores r) = [(cell, v)]
                 ∧ ld szero (data (run_grad_weight r)) cell = v.
Proof.
  intros Hidx Hs1 Hsmall Hdt Hpsw zipped sorted_indices orig_indices count call.
  case_decide as Hne.
  { subst indices. unfold call, embedding_bag_backward_dpcpp_sum_avg. done. }
  assert (Hcall : call = embedding_bag_backward_dpcpp_kernel wg true uninit uninit_s
                    grad orig_indices sorted_indices count num_weights (-1)
                    scale_grad_by_freq (bool_decide (mode = MODE_MEAN)) offset2bag
                    bag_size per_sample_weights)
    by (by apply sum_avg_unfold).
  split; [exact Hcall|].
  assert (Hperm : zipped ≡ₚ zip indices (seqZ 0 (Z.of_nat (length indices))))
    by apply Hsort_perm.
  pose proof (sorted_nonempty indices zipped Hperm Hne) as Hsne.
  pose proof (length_sorted indices zipped Hperm) as Hlen.
  fold sorted_indices in Hsne, Hlen.
  assert (Hsorted : Sorted Z.le sorted_indices) by apply Hsort_sorted.
  destruct (run_structure wg uninit uninit_s Hwg grad orig_indices sorted_indices
              count num_weights (-1) scale_grad_by_freq (bool_decide (mode = MODE_MEAN))
              offset2bag bag_size per_sample_weights Hsne Hs1 ltac:(by rewrite Hlen)
              Hdt Hpsw) as (p & Hsp & _ & Hrun).
  cbv zeta in Hrun. rewrite Hcall. unfold embedding_bag_backward_dpcpp_kernel.
  rewrite (fmap_ok _ _ _ _ Hrun), Hrun. eexists. split; [reflexivity|].
  split; [reflexivity|].
  split. { unfold trace. cbn [fst]. apply list_elem_of_In. simpl. tauto. }
  cbn [run_grad_weight run_stores run_num_of_segments run_segment_offsets
       data zeros].
  split; [done|].
  intros k f Hk Hf. cbv zeta.
  set (offs := boundaries sorted_indices ++ _) in *.
  assert (Hrange : 0 ≤ ld 0 sorted_indices (seg_begin offs k) < num_weights).
  { pose proof (boundaries_segmentation sorted_indices
                  (drop (length (boundaries sorted_indices))
                     (empty1 uninit (Z.of_nat (length sorted_indices)))) Hsne) as Hseg.
    fold offs in Hseg.
    pose proof (seg_begin_nonneg _ _ _ Hseg k Hk).
    pose proof (seg_nonempty _ _ _ Hseg k Hk).
    pose proof (seg_end_le _ _ _ Hseg k Hk).
    assert (Hin : ld 0 sorted_indices (seg_begin offs k) ∈ sorted_indices).
    { eapply list_elem_of_lookup_2. apply lookup_ld. lia. }
    unfold sorted_indices in Hin at 2.
    rewrite (sorted_Permutation indices zipped Hperm) in Hin.
    by apply Hidx in Hin. }
  assert (Htarget : ld 0 sorted_indices (seg_begin offs k) ≠ -1) by lia.
  split; [done|]. subst offs.
  eexists. split.
  { erewrite row_stored_once; eauto. }
  apply ld_apply_writes_same.
  - rewrite length_replicate. nia.
  - eexists (_, _). split; [|reflexivity].
    refine (proj2 (proj1 (list_elem_of_filter (λ w0 : Z * T, w0.1 = _) _ _) _)).
    erewrite row_stored_once; eauto. apply list_elem_of_here.
  - intros w Hw Hcell.
    pose proof (proj2 (list_elem_of_filter (λ w0 : Z * T, w0.1 = _) _ w)
                  (conj Hcell Hw)) as Hwf.
    erewrite row_stored_once in Hwf; eauto.
    apply list_elem_of_singleton in Hwf. by subst w.
Qed.


Lemma times_succ (n : nat) (v : T) : times (S n) v = sadd v (times n v).
Proof. done. Qed.


End SumAvg.
End SumAvgTheorems.

Import Pooling.

Module NdRangeFacts.

Lemma elem_of_for_range_fuel fuel i hi step c :
  0 < step →
  c ∈ for_range_fuel fuel i hi step
  ↔ ∃ k, 0 ≤ k < Z.of_nat fuel ∧ c = i + k * step ∧ c < hi.
Proof.
  intros Hstep. revert i. induction fuel as [|fuel IH]; intros i.
  { simpl. rewrite elem_of_nil. split; [done | intros (k & ? & _); lia]. }
  cbn [for_range_fuel]. case_decide as Hi.
  - rewrite elem_of_cons, IH. split.
    + intros [->|(k & Hk & -> & Hc)].
      * exists 0. lia.
      * exists (k + 1). lia.
    + intros (k & Hk & -> & Hc). destruct (decide (k = 0)) as [->|Hk0].
      * left. lia.
      * right. exists (k - 1). lia.
  - rewrite elem_of_nil. split; [done|]. intros (k & Hk & -> & Hc). nia.
Qed.

Lemma elem_of_for_range lo hi step c :
  0 < step →
  c ∈ for_range lo hi step ↔ ∃ k, 0 ≤ k ∧ c = lo + k * step ∧ c < hi.
Proof.
  intros Hstep. unfold for_range. rewrite elem_of_for_range_fuel by done. split.
  - intros (k & Hk & Hc). exists k. split; [lia | done].
  - intros (k & Hk & -> & Hc). exists k. split; [nia | done].
Qed.

Lemma NoDup_for_range_fuel fuel i hi step :
  0 < step → NoDup (for_range_fuel fuel i hi step).
Proof.
  intros Hstep. revert i. induction fuel as [|fuel IH]; intros i; [constructor|].
  cbn [for_range_fuel]. case_decide; [|constructor].
  apply NoDup_cons. split; [|apply IH].
  rewrite elem_of_for_range_fuel by done. intros (k & Hk & Hc & _). nia.
Qed.

Lemma NoDup_for_range lo hi step : 0 < step → NoDup (for_range lo hi step).
Proof. apply NoDup_for_range_fuel. Qed.

Lemma list_bind_assoc {A B C} (f : A → list B) (g : B → list C) (l : list A) :
  (l ≫= f) ≫= g = l ≫= (λ x, f x ≫= g).
Proof.
  induction l as [|x l IH]; [done|]. by rewrite !bind_cons, bind_app, IH.
Qed.

Lemma elem_of_nd_range2 G0 G1 L0 L1 item :
  item ∈ nd_range2 G0 G1 L0 L1
  ↔ ∃ g0 g1 l0 l1,
      (0 ≤ g0 < cdiv G0 L0 ∧ 0 ≤ g1 < cdiv G1 L1 ∧ 0 ≤ l0 < L0 ∧ 0 ≤ l1 < L1)
      ∧ item = mkItem g0 g1 l0 l1 L0 L1 (cdiv G0 L0) (cdiv G1 L1) G0 G1.
Proof.
  unfold nd_range2. split.
  - intros Hi.
    apply list_elem_of_bind in Hi as (g0 & Hi & Hg0).
    apply list_elem_of_bind in Hi as (g1 & Hi & Hg1).
    apply list_elem_of_bind in Hi as (l0 & Hi & Hl0).
    apply list_elem_of_bind in Hi as (l1 & Hi & Hl1).
    apply list_elem_of_singleton in Hi.
    apply elem_of_seqZ in Hg0, Hg1, Hl0, Hl1.
    exists g0, g1, l0, l1. split; [lia | done].
  - intros (g0 & g1 & l0 & l1 & (Hg0 & Hg1 & Hl0 & Hl1) & ->).
    apply list_elem_of_bind. exists g0. split; [|apply elem_of_seqZ; lia].
    apply list_elem_of_bind. exists g1. split; [|apply elem_of_seqZ; lia].
    apply list_elem_of_bind. exists l0. split; [|apply elem_of_seqZ; lia].
    apply list_elem_of_bind. exists l1. split; [|apply elem_of_seqZ; lia].
    by apply list_elem_of_singleton.
Qed.

Lemma NoDup_nd_range2 G0 G1 L0 L1 : NoDup (nd_range2 G0 G1 L0 L1).
Proof.
  unfold nd_range2.
  apply NoDup_bind; [| |apply NoDup_seqZ].
  { intros g0 g0' y _ _ Hy Hy'.
    apply list_elem_of_bind in Hy as (g1 & Hy & _).
    apply list_elem_of_bind in Hy as (l0 & Hy & _).
    apply list_elem_of_bind in Hy as (l1 & Hy & _).
    apply list_elem_of_bind in Hy' as (g1' & Hy' & _).
    apply list_elem_of_bind in Hy' as (l0' & Hy' & _).
    apply list_elem_of_bind in Hy' as (l1' & Hy' & _).
    apply list_elem_of_singleton in Hy, Hy'. congruence. }
  intros g0 _. apply NoDup_bind; [| |apply NoDup_seqZ].
  { intros g1 g1' y _ _ Hy Hy'.
    apply list_elem_of_bind in Hy as (l0 & Hy & _).
    apply list_elem_of_bind in Hy as (l1 & Hy & _).
    apply list_elem_of_bind in Hy' as (l0' & Hy' & _).
    apply list_elem_of_bind in Hy' as (l1' & Hy' & _).
    apply list_elem_of_singleton in Hy, Hy'. congruence. }
  intros g1 _. apply NoDup_bind; [| |apply NoDup_seqZ].
  { intros l0 l0' y _ _ Hy Hy'.
    apply list_elem_of_bind in Hy as (l1 & Hy & _).
    apply list_elem_of_bind in Hy' as (l1' & Hy' & _).
    apply list_elem_of_singleton in Hy, Hy'. congruence. }
  intros l0 _. apply NoDup_bind; [| |apply NoDup_seqZ].
  { intros l1 l1' y _ _ Hy Hy'.
    apply list_elem_of_singleton in Hy, Hy'. congruence. }
  intros l1 _. apply NoDup_singleton.
Qed.

(** *** The chunk loop of the pooling kernels *)
Section ChunkLoop.
Variables (L0 L1 numChunks : Z).
Hypothesis HL0 : 0 < L0.
Hypothesis HL1 : 0 < L1.

Let items := nd_range2 (1024 * L0) L1 L0 L1.

Local Abbreviation chunks := (chunks_of numChunks).
Local Abbreviation pairs := (chunk_pairs L0 L1 numChunks).

Lemma groups0 : cdiv (1024 * L0) L0 = 1024.
Proof. rewrite cdiv_nonneg by lia. rewrite Z.div_mul; lia. Qed.

Lemma groups1 : cdiv L1 L1 = 1.
Proof. rewrite cdiv_nonneg by lia. apply Z.div_same. lia. Qed.

Lemma elem_of_items item :
  item ∈ items
  ↔ ∃ g0 l0 l1, (0 ≤ g0 < 1024 ∧ 0 ≤ l0 < L0 ∧ 0 ≤ l1 < L1)
      ∧ item = mkItem g0 0 l0 l1 L0 L1 1024 1 (1024 * L0) L1.
Proof.
  unfold items. rewrite elem_of_nd_range2, groups0, groups1. split.
  - intros (g0 & g1 & l0 & l1 & Hr & ->). assert (g1 = 0) as -> by lia.
    exists g0, l0, l1. split; [lia | done].
  - intros (g0 & l0 & l1 & Hr & ->). exists g0, 0, l0, l1. split; [lia | done].
Qed.

Lemma elem_of_chunk_pairs c l :
  (c, l) ∈ pairs ↔ 0 ≤ c < numChunks ∧ 0 ≤ l < L0.
Proof.
  unfold chunk_pairs. rewrite list_elem_of_bind. split.
  - intros (item & Hc & Hitem).
    apply elem_of_items in Hitem as (g0 & l0 & l1 & Hr & ->).
    apply list_elem_of_bind in Hc as (c' & Hc & Hc').
    apply list_elem_of_singleton in Hc. injection Hc as -> ->.
    unfold chunks_of in Hc'. cbn in Hc'.
    apply elem_of_for_range in Hc' as (k & Hk & -> & Hlt); [|lia]. cbn. nia.
  - intros [Hc Hl].
    set (step := 1024 * L1).
    pose proof (Z.mod_pos_bound c step ltac:(unfold step; lia)) as Hm.
    pose proof (Z.div_mod c step ltac:(unfold step; lia)) as Hdm.
    pose proof (Z.mod_pos_bound (c mod step) L1 ltac:(lia)) as Hm1.
    pose proof (Z.div_mod (c mod step) L1 ltac:(lia)) as Hdm1.
    assert (0 ≤ c / step) by (apply Z.div_pos; unfold step; lia).
    assert (0 ≤ c mod step / L1 < 1024).
    { split; [apply Z.div_pos; lia|].
      apply Z.div_lt_upper_bound; unfold step in *; lia. }
    exists (mkItem (c mod step / L1) 0 l (c mod step mod L1) L0 L1 1024 1 (1024 * L0) L1).
    split.
    + apply list_elem_of_bind. exists c. split; [by apply list_elem_of_singleton|].
      unfold chunks_of. cbn. apply elem_of_for_range; [lia|].
      exists (c / step). fold step. split; [done|]. split; [|lia]. lia.
    + apply elem_of_items. eexists _, _, _. split; [|reflexivity]. lia.
Qed.

Lemma NoDup_chunk_pairs : NoDup pairs.
Proof.
  unfold chunk_pairs. apply NoDup_bind; [| |apply NoDup_nd_range2].
  - intros item item' [c l] Hitem Hitem' Hy Hy'.
    apply elem_of_items in Hitem as (g0 & l0 & l1 & Hr & ->).
    apply elem_of_items in Hitem' as (g0' & l0' & l1' & Hr' & ->).
    apply list_elem_of_bind in Hy as (c1 & Hy & Hc1).
    apply list_elem_of_bind in Hy' as (c2 & Hy' & Hc2).
    apply list_elem_of_singleton in Hy, Hy'. cbn in Hy, Hy'.
    injection Hy as <- <-. injection Hy' as Hcc <-. subst c2.
    unfold chunks_of in Hc1, Hc2. cbn in Hc1, Hc2.
    apply elem_of_for_range in Hc1 as (k & Hk & Hc & _); [|lia].
    apply elem_of_for_range in Hc2 as (k' & Hk' & Hc' & _); [|lia].
    assert (g0 * L1 + l1 + (k - k') * (1024 * L1) = g0' * L1 + l1') as Heq by lia.
    assert (k = k') by nia. subst k'.
    assert (g0 = g0') by nia. subst g0'.
    assert (l1 = l1') by lia. subst l1'. done.
  - intros item Hitem. apply NoDup_bind; [| |].
    + intros c1 c2 y _ _ Hy Hy'. apply list_elem_of_singleton in Hy, Hy'. congruence.
    + intros c _. apply NoDup_singleton.
    + unfold chunks_of. apply elem_of_items in Hitem as (g0 & l0 & l1 & Hr & ->).
      cbn. apply NoDup_for_range. lia.
Qed.

(** Up to the order, the kernel works on every pair of a chunk and a local
    id once. *)
Lemma chunk_pairs_Permutation :
  pairs
  ≡ₚ seqZ 0 numChunks ≫= (λ c, seqZ 0 L0 ≫= (λ l, [(c, l)])).
Proof.
  apply NoDup_Permutation; [apply NoDup_chunk_pairs| |].
  - apply NoDup_bind; [| |apply NoDup_seqZ].
    + intros c1 c2 y _ _ Hy Hy'.
      apply list_elem_of_bind in Hy as (l1 & Hy & _).
      apply list_elem_of_bind in Hy' as (l2 & Hy' & _).
      apply list_elem_of_singleton in Hy, Hy'. congruence.
    + intros c _. apply NoDup_bind; [| |apply NoDup_seqZ].
      * intros l1 l2 y _ _ Hy Hy'. apply list_elem_of_singleton in Hy, Hy'. congruence.
      * intros l _. apply NoDup_singleton.
  - intros [c l]. rewrite elem_of_chunk_pairs, list_elem_of_bind. split.
    + intros [Hc Hl]. exists c. split; [|apply elem_of_seqZ; lia].
      apply list_elem_of_bind. exists l. split; [|apply elem_of_seqZ; lia].
      by apply list_elem_of_singleton.
    + intros (c' & Hy & Hc). apply list_elem_of_bind in Hy as (l' & Hy & Hl).
      apply list_elem_of_singleton in Hy. injection Hy as -> ->.
      apply elem_of_seqZ in Hc, Hl. lia.
Qed.

(** A kernel body that looks at its work item through local id 0 only. *)
Lemma chunk_loop_pairs {A} (body : nd_item2 → Z → list A) (body' : Z → Z → list A) :
  (∀ item c, item ∈ items → body item c = body' c (get_local_id0 item)) →
  items ≫= (λ item, chunks item ≫= body item)
  = pairs ≫= (λ cl, body' cl.1 cl.2).
Proof.
  intros Hbody. unfold chunk_pairs. rewrite list_bind_assoc.
  apply bind_ext_in. intros item Hitem. rewrite list_bind_assoc.
  apply bind_ext_in. intros c Hc. rewrite bind_singleton. cbn. by apply Hbody.
Qed.

End ChunkLoop.
End NdRangeFacts.

Import NdRangeFacts EmbeddingBag.

Module ForwardMaxFacts.
Section ForwardMax.
Context {T : Type} `{ScalarOrder T}.
Variable uninit_max : T.

(** In max mode the stores to [max_indices] are the only ones the buffer
    sees. *)
Lemma fwd_max_indices_fold (ws : list (fwd_store T)) (s : fwd_state T) :
  fwd_max_indices (fold_left (fwd_apply MODE_MAX) ws s)
  = apply_writes (ws ≫= max_store) <$> fwd_max_indices s.
Proof.
  revert s. induction ws as [|w ws IH]; intros s.
  { cbn. by destruct (fwd_max_indices s). }
  cbn [fold_left]. rewrite IH, bind_cons.
  destruct w; cbn; try done.
  destruct (fwd_max_indices s); done.
Qed.

Lemma workersPerChunk_cases fs :
  workersPerChunk_of fs = 16 ∨ workersPerChunk_of fs = 32 ∨ workersPerChunk_of fs = 64.
Proof. unfold workersPerChunk_of. repeat case_decide; auto. Qed.

Lemma chunksPerWorkGroup_pos fs : 0 < cdiv 256 (workersPerChunk_of fs).
Proof.
  destruct (workersPerChunk_cases fs) as [->|[->| ->]]; by vm_compute.
Qed.

(** The loop over a bag in max mode. *)
Section Bag.
Variables (input : list Z) (weight : list T).
Variables (weightFeat weight_stide0 : Z).
Variables (psw : option (list T)) (psw_stride : Z) (begin : Z).

Let step := bag_step input weight weightFeat weight_stide0 MODE_MAX
              psw psw_stride begin.
Let W (e : Z) : T := ld szero weight (weightFeat + ld 0 input e * weight_stide0).
Let acc0 : bag_acc T := mkAcc szero uninit_max 0 (-1).

Lemma bag_loop_max (n : nat) :
  ∃ e, first_argmax W begin (begin + Z.of_nat (S n)) e
     ∧ maxWord (fold_left step (seqZ begin (Z.of_nat (S n))) acc0) = ld 0 input e
     ∧ weightFeatMax (fold_left step (seqZ begin (Z.of_nat (S n))) acc0) = W e.
Proof.
  induction n as [|n (e & (He & Hmax & Hfirst) & Hword & Hval)].
  - exists begin. change (seqZ begin (Z.of_nat 1)) with [begin].
    cbn [fold_left]. unfold step, bag_step.
    rewrite bool_decide_eq_true_2 by done. cbn.
    split; [|done]. split; [lia|]. split.
    + intros e' He'. assert (e' = begin) as -> by lia. apply sgtb_irrefl.
    + intros e' He'. lia.
  - replace (Z.of_nat (S (S n))) with (Z.of_nat (S n) + 1) by lia.
    rewrite seqZ_app by lia. rewrite fold_left_app.
    change (seqZ (begin + Z.of_nat (S n)) 1) with [begin + Z.of_nat (S n)].
    set (acc := fold_left step (seqZ begin (Z.of_nat (S n))) acc0) in *.
    set (emb := begin + Z.of_nat (S n)) in *.
    cbn [fold_left]. unfold step, bag_step.
    destruct (decide (MODE_MAX = MODE_MAX)) as [_|]; [|done].
    rewrite bool_decide_eq_false_2 by (unfold emb; lia). cbn [orb].
    fold (W emb). rewrite Hval.
    destruct (sgtb (W emb) (W e)) eqn:Hgt; cbn.
    + exists emb. split; [|done]. split; [lia|]. split.
      * intros e' He'. destruct (decide (e' = emb)) as [->|Hne]; [apply sgtb_irrefl|].
        destruct (sgtb (W e') (W emb)) eqn:Hgt'; [|done].
        rewrite <- (Hmax e') by lia. symmetry. by eapply sgtb_trans.
      * intros e' He'.
        destruct (sgtb_cotrans _ _ (W e') Hgt) as [?|Hc]; [done|].
        rewrite Hmax in Hc by lia. done.
    + exists e. split; [|done]. split; [lia|]. split.
      * intros e' He'. destruct (decide (e' = emb)) as [->|Hne]; [done|].
        apply Hmax. lia.
      * done.
Qed.

Lemma bag_loop_max_spec (end_ : Z) :
  let acc := fold_left step (for_each begin end_) acc0 in
  (end_ ≤ begin → maxWord acc = -1)
  ∧ (begin < end_ → ∃ e, first_argmax W begin end_ e ∧ maxWord acc = ld 0 input e).
Proof.
  cbn zeta. split.
  - intros Hle. unfold for_each. rewrite seqZ_nil by lia. done.
  - intros Hlt. unfold for_each.
    destruct (bag_loop_max (Z.to_nat (end_ - begin - 1))) as (e & He & Hword & _).
    replace (Z.of_nat (S (Z.to_nat (end_ - begin - 1)))) with (end_ - begin) in * by lia.
    replace (begin + (end_ - begin)) with end_ in He by lia.
    by exists e.
Qed.

End Bag.

(** The kernel in max mode. *)
Section Kernel.
Variables (input offsets : list Z) (weight : list T).
Variables (numIndices numBags featureSize weight_stide0 weight_stride1 : Z).
Variables (psw : option (list T)) (psw_stride : Z).
Hypothesis Hfs : 0 < featureSize.

Let wpc := workersPerChunk_of featureSize.
Let cpb := CeilDiv featureSize wpc.
Let numChunks := numBags * cpb.

Local Abbreviation recorded_here :=
  (recorded uninit_max input offsets weight numIndices numBags weight_stide0
     weight_stride1 psw psw_stride).
Local Abbreviation max_cell :=
  (chunk_cell (λ bag f, [(bag * featureSize + f, recorded_here bag f)])
     featureSize wpc cpb).

Lemma wpc_pos : 0 < wpc.
Proof. unfold wpc. destruct (workersPerChunk_cases featureSize) as [->|[->| ->]]; lia. Qed.

Lemma cpb_spec : wpc * (cpb - 1) < featureSize ≤ wpc * cpb.
Proof. apply CeilDiv_spec; [lia | apply wpc_pos]. Qed.

Lemma updateOutput_chunk_max item c :
  get_local_range0 item = wpc →
  updateOutput_chunk uninit_max input offsets weight numIndices numBags
    featureSize weight_stide0 weight_stride1 MODE_MAX psw psw_stride cpb item c
  ≫= max_store
  = max_cell c (get_local_id0 item).
Proof.
  intros HL. unfold updateOutput_chunk, chunk_cell, recorded. rewrite HL. cbn zeta.
  case_decide as Hfd; [|done].
  rewrite (decide_False (P := MODE_MAX = MODE_MEAN)) by done.
  rewrite (decide_False (P := MODE_MAX = MODE_MEAN ∨ MODE_MAX = MODE_SUM))
    by (intros [?|?]; done).
  rewrite (decide_True (P := MODE_MAX = MODE_MAX)) by done.
  rewrite !bind_app. cbn -[for_each].
  replace (_ ≫= max_store) with (@nil (Z * Z)); [done|].
  symmetry. case_decide; [|done].
  apply bind_nil_in. intros w Hw.
  apply list_elem_of_fmap in Hw as (emb & -> & _). done.
Qed.

Lemma max_stores_eq :
  updateOutput_stores uninit_max input offsets weight numIndices numBags
    featureSize weight_stide0 weight_stride1 MODE_MAX psw psw_stride
  ≫= max_store
  = chunk_pairs wpc (cdiv 256 wpc) numChunks ≫= (λ cl, max_cell cl.1 cl.2).
Proof.
  pose proof wpc_pos as Hwpc.
  pose proof (chunksPerWorkGroup_pos featureSize) as Hcpwg. fold wpc in Hcpwg.
  rewrite <- (chunk_loop_pairs wpc (cdiv 256 wpc) numChunks
    (λ item c,
       updateOutput_chunk uninit_max input offsets weight numIndices numBags
         featureSize weight_stide0 weight_stride1 MODE_MAX psw psw_stride cpb
         item c ≫= max_store) max_cell).
  - unfold updateOutput_stores. cbn zeta. rewrite list_bind_assoc.
    apply bind_ext_in. intros item _. by rewrite list_bind_assoc.
  - intros item c Hitem. apply updateOutput_chunk_max.
    apply elem_of_items in Hitem as (g0 & l0 & l1 & _ & ->); done.
Qed.

(** After the kernel, cell [(bag, f)] of [max_indices] holds what the loop
    over the bag has left in [maxWord]. *)
Lemma max_indices_recorded (buf : list Z) bag f :
  0 ≤ bag < numBags → 0 ≤ f < featureSize →
  bag * featureSize + f < Z.of_nat (length buf) →
  ld 0
    (apply_writes
       (updateOutput_stores uninit_max input offsets weight numIndices numBags
          featureSize weight_stide0 weight_stride1 MODE_MAX psw psw_stride
        ≫= max_store) buf)
    (bag * featureSize + f)
  = recorded_here bag f.
Proof.
  intros Hbag Hf Hlen. rewrite max_stores_eq.
  pose proof wpc_pos as Hwpc. pose proof cpb_spec as Hcpb.
  pose proof (chunksPerWorkGroup_pos featureSize) as Hcpwg. fold wpc in Hcpwg.
  assert (0 < cpb) as Hcpb0 by nia.
  apply ld_apply_writes_same; [nia| |].
  - exists (bag * featureSize + f, recorded_here bag f). split; [|done].
    apply list_elem_of_bind. exists (bag * cpb + f / wpc, f mod wpc).
    pose proof (Z.div_mod f wpc ltac:(lia)) as Hdm.
    pose proof (Z.mod_pos_bound f wpc Hwpc) as Hm.
    assert (0 ≤ f / wpc < cpb) as Hq.
    { split; [apply Z.div_pos; lia|]. apply Z.div_lt_upper_bound; nia. }
    split.
    + cbn [fst snd]. unfold chunk_cell.
      rewrite cdiv_nonneg, cmod_nonneg by nia.
      replace ((bag * cpb + f / wpc) mod cpb) with (f / wpc)
        by (apply Z.mod_unique with bag; lia).
      replace ((bag * cpb + f / wpc) / cpb) with bag
        by (apply Z.div_unique with (f / wpc); lia).
      replace (f / wpc * wpc + f mod wpc) with f by lia.
      rewrite decide_True by lia. by apply list_elem_of_singleton.
    + apply elem_of_chunk_pairs; [done..|]. unfold numChunks. nia.
  - intros w Hw Hwi. apply list_elem_of_bind in Hw as ([c l] & Hw & Hcl).
    apply elem_of_chunk_pairs in Hcl as [Hc Hl]; [|done..].
    cbn [fst snd] in Hw. unfold chunk_cell in Hw.
    rewrite cdiv_nonneg, cmod_nonneg in Hw by lia.
    case_decide as Hfd; [|by apply elem_of_nil in Hw].
    apply list_elem_of_singleton in Hw. subst w. cbn [fst snd] in *.
    pose proof (Z.mod_pos_bound c cpb Hcpb0) as Hm.
    apply cell_inj in Hwi as [-> ->]; [done|nia|lia].
Qed.

End Kernel.
End ForwardMax.
End ForwardMaxFacts.

Module BackwardMaxFacts.

Lemma list_fmap_bind_l {A B C} (f : A → B) (g : B → list C) (l : list A) :
  (f <$> l) ≫= g = l ≫= (λ x, g (f x)).
Proof. induction l as [|x l IH]; [done|]. cbn. by rewrite IH. Qed.

(** A loop over [n * m] values is a nest of a loop over [n] and a loop over
    [m] values. *)
Lemma seqZ_mul_bind {A} (F : Z → list A) n m :
  0 ≤ m →
  seqZ 0 (n * m) ≫= F = seqZ 0 n ≫= (λ a, seqZ 0 m ≫= (λ b, F (a * m + b))).
Proof.
  intros Hm. destruct (decide (0 ≤ n)) as [Hn|Hn].
  2: { rewrite (seqZ_nil 0 (n * m)), (seqZ_nil 0 n) by nia. done. }
  revert n Hn. apply natlike_ind.
  - done.
  - intros n Hn IH. replace (Z.succ n * m) with (n * m + m) by lia.
    replace (Z.succ n) with (n + 1) by lia.
    rewrite !seqZ_app by nia. rewrite !bind_app, IH. f_equal.
    change (seqZ (0 + n) 1) with [0 + n]. rewrite bind_singleton.
    replace (0 + n * m) with (n * m + 0) by lia.
    rewrite <- fmap_add_seqZ, list_fmap_bind_l. apply bind_ext_in.
    intros b _. done.
Qed.

Lemma fmap_bind_filter {A B K} (P : A → Prop) `{!∀ x, Decision (P x)}
    (k : A → K) (x : A → B) (l : list A) :
  snd <$> (l ≫= (λ a, if decide (P a) then [(k a, x a)] else []))
  = x <$> filter P l.
Proof.
  induction l as [|a l IH]; [done|].
  rewrite bind_cons, fmap_app, IH. destruct (decide (P a)) as [Ha|Ha].
  - by rewrite filter_cons_True.
  - by rewrite filter_cons_False.
Qed.

Section BackwardMax.
Context {T : Type} `{ScalarLaws T}.

(** The cell after a series of atomic additions: its old value and all the
    values added to it. *)
Lemma ld_fold_atomic_add (ws : list (Z * T)) (buf : list T) i :
  0 ≤ i < Z.of_nat (length buf) →
  ld szero (fold_left (atomic_add sadd szero) ws buf) i
  = sadd (ld szero buf i) (ssum (snd <$> filter (λ w, w.1 = i) ws)).
Proof.
  revert buf. induction ws as [|w ws IH]; intros buf Hi.
  { cbn. by rewrite sadd_0_r. }
  cbn [fold_left]. rewrite IH by (unfold atomic_add; by rewrite length_st).
  unfold atomic_add. destruct (decide (w.1 = i)) as [Hw|Hw].
  - rewrite filter_cons_True by done. rewrite Hw, ld_st_eq by done.
    cbn. by rewrite sadd_assoc.
  - rewrite filter_cons_False by done. by rewrite ld_st_ne.
Qed.

Section Kernel.
Variables (max_indices : list Z) (gradOutput : list T) (stride numBags : Z).
Hypothesis Hstride : 0 < stride.

Let cpb := CeilDiv stride 64.
Let numChunks := numBags * cpb.

Local Abbreviation add_here := (add_of max_indices gradOutput stride).
Local Abbreviation add_cell := (chunk_cell add_here stride 64 cpb).

Lemma max_adds_pairs :
  accGradParameters_max_adds max_indices gradOutput stride numBags
  = chunk_pairs 64 4 numChunks ≫= (λ cl, add_cell cl.1 cl.2).
Proof.
  rewrite <- (chunk_loop_pairs 64 4 numChunks
    (λ item c,
       let featureDim := cmod c cpb * get_local_range0 item + get_local_id0 item in
       if decide (featureDim < stride) then add_here (cdiv c cpb) featureDim else [])
    add_cell).
  - done.
  - intros item c Hitem.
    apply elem_of_items in Hitem as (g0 & l0 & l1 & _ & ->); done.
Qed.

Lemma cpb_bounds : 64 * (cpb - 1) < stride ≤ 64 * cpb.
Proof. apply CeilDiv_spec; lia. Qed.

(** The kernel adds, in some order, what [recorded_adds] lists. *)
Lemma max_adds_Permutation :
  accGradParameters_max_adds max_indices gradOutput stride numBags
  ≡ₚ recorded_adds max_indices gradOutput stride numBags.
Proof.
  pose proof cpb_bounds as Hcpb.
  rewrite max_adds_pairs.
  rewrite (chunk_pairs_Permutation 64 4 numChunks) by lia.
  rewrite list_bind_assoc. unfold numChunks.
  rewrite seqZ_mul_bind by lia. unfold recorded_adds.
  match goal with |- ?l ≡ₚ ?r => replace l with r; [done|] end.
  symmetry. apply bind_ext_in. intros bag Hbag.
  apply elem_of_seqZ in Hbag.
  transitivity (seqZ 0 (cpb * 64)
                  ≫= (λ x, if decide (x < stride) then add_here bag x else [])).
  - rewrite seqZ_mul_bind by lia. apply bind_ext_in. intros q Hq.
    apply elem_of_seqZ in Hq. rewrite list_bind_assoc.
    apply bind_ext_in. intros l Hl. apply elem_of_seqZ in Hl.
    rewrite bind_singleton. cbn [fst snd]. unfold chunk_cell.
    rewrite cdiv_nonneg, cmod_nonneg by nia.
    replace ((bag * cpb + q) mod cpb) with q by (apply Z.mod_unique with bag; lia).
    replace ((bag * cpb + q) / cpb) with bag by (apply Z.div_unique with q; lia).
    done.
  - replace (cpb * 64) with (stride + (cpb * 64 - stride)) by lia.
    rewrite seqZ_app by lia. rewrite bind_app.
    rewrite (bind_nil_in _ (seqZ (0 + stride) _)).
    + rewrite app_nil_r. apply bind_ext_in. intros f Hf. apply elem_of_seqZ in Hf.
      by rewrite decide_True by lia.
    + intros f Hf. apply elem_of_seqZ in Hf. by rewrite decide_False by lia.
Qed.

(** What [recorded_adds] adds to the cell of row [r] and feature [f]. *)
Lemma recorded_adds_cell r f :
  0 ≤ r → 0 ≤ f < stride →
  snd <$> filter (λ w, w.1 = r * stride + f)
            (recorded_adds max_indices gradOutput stride numBags)
  = (λ bag, ld szero gradOutput (bag * stride + f))
      <$> filter (λ bag, ld 0 max_indices (bag * stride + f) = r) (seqZ 0 numBags).
Proof.
  intros Hr Hf. unfold recorded_adds. rewrite filter_bind.
  rewrite <- (fmap_bind_filter _ (λ bag, r * stride + f)). f_equal.
  apply bind_ext_in. intros bag _. rewrite filter_bind.
  rewrite (bind_single _ _ f); [| apply NoDup_seqZ | apply elem_of_seqZ; lia |].
  - cbn zeta. destruct (decide (ld 0 max_indices (bag * stride + f) >= 0)) as [Hge|Hlt].
    + destruct (decide (ld 0 max_indices (bag * stride + f) = r)) as [Heq|Hne].
      * rewrite filter_cons_True by (cbn; by rewrite Heq). by rewrite Heq.
      * rewrite filter_cons_False; [done|]. cbn. intros Heq. apply Hne. nia.
    + rewrite decide_False by lia. done.
  - intros f' Hf' Hne. apply elem_of_seqZ in Hf'. cbn zeta.
    case_decide; [|done]. rewrite filter_cons_False; [done|]. cbn.
    intros Heq. apply cell_inj in Heq as [_ ?]; [done|lia..].
Qed.

End Kernel.
End BackwardMax.
End BackwardMaxFacts.

Import ForwardMaxFacts BackwardMaxFacts.
Import ATen.

Module PoolingTheorems.
Section Pooling.
Context {T : Type} {S : Scalar T} {L : ScalarLaws T} {O : ScalarOrder T}.
Variables (uninit : nat → Z) (uninit_s : nat → T) (uninit_max : T).

Lemma forward_dispatch_ok dt name :
  forward_dtype dt → IPEX_DISPATCH_FLOATING_TYPES_AND2 Half BFloat16 dt name = mret dt.
Proof. intros Hdt. unfold IPEX_DISPATCH_FLOATING_TYPES_AND2. by rewrite decide_True. Qed.

Lemma forward_max_eq (weight : Tensor T) indices offsets
    (scale_grad_by_freq sparse : bool) (per_sample_weights : option (Tensor T)) :
  forward_dtype (dtype weight) →
  per_sample_weights_ok (dtype weight) per_sample_weights →
  let numIndices := Z.of_nat (length indices) in
  let numBags := Z.of_nat (length offsets) in
  let featureSize := size1 weight in
  ∃ output offset2bag bag_size,
    _embedding_bag_dpcpp uninit uninit_s uninit_max weight indices offsets
      scale_grad_by_freq MODE_MAX sparse per_sample_weights
    = ([K_updateOutput],
       inr (output, offset2bag, bag_size,
            apply_writes
              (updateOutput_stores uninit_max indices offsets (data weight)
                 numIndices numBags featureSize (tstride0 weight)
                 (tstride1 weight) MODE_MAX (data <$> per_sample_weights)
                 (match per_sample_weights with
                  | Some w => tstride0 w | None => 0 end)
               ≫= max_store)
              (empty1 uninit (numBags * featureSize)))).
Proof.
  intros Hdt Hpsw. cbn zeta. unfold _embedding_bag_dpcpp.
  rewrite forward_dispatch_ok by done. rewrite bind_mret.
  rewrite (data_ptr_ok weight) by done. rewrite bind_mret.
  rewrite data_ptr_ok by done. rewrite bind_mret.
  assert ((match per_sample_weights with
           | Some w => Some <$> data_ptr (dtype weight) w
           | None => mret None
           end) = mret (data <$> per_sample_weights)) as ->.
  { destruct per_sample_weights as [w|]; [|done]. cbn in Hpsw.
    by rewrite data_ptr_ok. }
  rewrite bind_mret. unfold EmbeddingBag_updateOutputKernel.
  rewrite (decide_True (P := MODE_MAX = MODE_MAX)) by done.
  rewrite (decide_True (P := MODE_MAX ≠ 0)) by done.
  host_run. rewrite fwd_max_indices_fold. cbn [fwd_max_indices fmap option_fmap option_map default].
  eexists _, _, _. reflexivity.
Qed.

Lemma backward_max_eq (grad : Tensor T) max_indices num_weights :
  dtype grad = Float →
  0 < size1 grad →
  embedding_bag_backward_dpcpp_max grad max_indices num_weights
  = ([K_accGradParameters_max],
     inr (set_data (zeros (dtype grad) num_weights (size1 grad))
            (fold_left (atomic_add sadd szero)
               (accGradParameters_max_adds max_indices (data grad) (size1 grad)
                  (size0 grad))
               (replicate (Z.to_nat (num_weights * size1 grad)) szero)))).
Proof.
  intros Hdt Hs. unfold embedding_bag_backward_dpcpp_max.
  rewrite (data_ptr_ok grad) by done. rewrite bind_mret.
  rewrite data_ptr_ok by done. rewrite bind_mret.
  unfold EmbeddingBag_accGradParametersKernel_max. host_run.
  cbn [zeros tstride0 data]. unfold contiguous_stride0.
  rewrite Z.max_l by lia. done.
Qed.

Lemma first_argmax_tie (W : Z → T) lo hi e e' :
  first_argmax W lo hi e → lo ≤ e' < hi → W e' = W e → e ≤ e'.
Proof.
  intros (He & _ & Hfirst) He' Heq. destruct (decide (e ≤ e')) as [|Hlt]; [done|].
  specialize (Hfirst e' ltac:(lia)). rewrite Heq, sgtb_irrefl in Hfirst. done.
Qed.

(** C6: in max mode the forward pass records, for every bag and feature, the
    index of the first lookup of the bag that attains the maximal weight
    value (a later lookup replaces the recorded one only when its value is
    strictly greater, so of several lookups with the equal maximal value the
    first one in the iteration order of the bag is recorded), and -1 for an
    empty bag; the max backward adds, for every bag and feature with a
    non-negative recorded index, the gradient of the bag to exactly the
    recorded row, and nothing for a negative recorded index, so that a cell
    of the weight gradient is the sum of the gradients of the bags that
    recorded its row. *)
Theorem max_pooling_first_argmax
    (weight : Tensor T) (indices offsets : list Z)
    (scale_grad_by_freq sparse : bool) (per_sample_weights : option (Tensor T))
    (grad : Tensor T) (max_indices : list Z) (num_weights : Z) :
  forward_dtype (dtype weight) →
  per_sample_weights_ok (dtype weight) per_sample_weights →
  0 < size1 weight →
  dtype grad = Float →
  0 < size1 grad →
  let numIndices := Z.of_nat (length indices) in
  let numBags := Z.of_nat (length offsets) in
  let featureSize := size1 weight in
  (∃ output offset2bag bag_size recorded,
     _embedding_bag_dpcpp uninit uninit_s uninit_max weight indices offsets
       scale_grad_by_freq MODE_MAX sparse per_sample_weights
     = ([K_updateOutput], inr (output, offset2bag, bag_size, recorded))
     ∧ ∀ bag f, 0 ≤ bag < numBags → 0 ≤ f < featureSize →
         let lo := bag_begin offsets bag in
         let hi := bag_end offsets numIndices numBags bag in
         let W := lookup_value indices (data weight) (tstride0 weight)
                    (tstride1 weight) f in
         (hi ≤ lo → ld 0 recorded (bag * featureSize + f) = -1)
         ∧ (lo < hi →
            ∃ e, first_argmax W lo hi e
               ∧ (∀ e', lo ≤ e' < hi → W e' = W e → e ≤ e')
               ∧ ld 0 recorded (bag * featureSize + f) = ld 0 indices e))
  ∧ (∃ grad_weight,
       embedding_bag_backward_dpcpp_max grad max_indices num_weights
       = ([K_accGradParameters_max], inr grad_weight)
       ∧ accGradParameters_max_adds max_indices (data grad) (size1 grad)
           (size0 grad)
         ≡ₚ recorded_adds max_indices (data grad) (size1 grad) (size0 grad)
       ∧ ∀ r f, 0 ≤ r < num_weights → 0 ≤ f < size1 grad →
           ld szero (data grad_weight) (r * size1 grad + f)
           = ssum ((λ bag, ld szero (data grad) (bag * size1 grad + f))
                     <$> filter
                           (λ bag, ld 0 max_indices (bag * size1 grad + f) = r)
                           (seqZ 0 (size0 grad)))).
Proof.
  intros Hdt Hpsw Hfs Hgdt Hgs. cbn zeta. split.
  - destruct (forward_max_eq weight indices offsets scale_grad_by_freq sparse
                per_sample_weights Hdt Hpsw) as (output & o2b & bs & Heq).
    eexists output, o2b, bs, _. split; [exact Heq|].
    intros bag f Hbag Hf.
    rewrite max_indices_recorded;
      [|done..| unfold empty1; rewrite length_fmap, length_seq; nia].
    pose proof (bag_loop_max_spec uninit_max indices (data weight)
      (f * tstride1 weight) (tstride0 weight) (data <$> per_sample_weights)
      (match per_sample_weights with Some w => tstride0 w | None => 0 end)
      (bag_begin offsets bag)
      (bag_end offsets (Z.of_nat (length indices)) (Z.of_nat (length offsets)) bag))
      as [Hempty Hne].
    split; [exact Hempty|]. intros Hlt.
    destruct (Hne Hlt) as (e & He & Hword). exists e.
    split; [exact He|]. split; [|exact Hword].
    intros e' He' Heq'. by eapply first_argmax_tie.
  - eexists. split; [by apply backward_max_eq|].
    split; [by apply max_adds_Permutation|].
    intros r f Hr Hf. cbn [set_data data].
    rewrite ld_fold_atomic_add by (rewrite length_replicate; nia).
    rewrite ld_replicate_default, sadd_0_l.
    rewrite (ssum_Permutation _ _
      (fmap_Permutation snd _ _
         (filter_Permutation _ _ _ (max_adds_Permutation max_indices (data grad)
            (size1 grad) (size0 grad) Hgs)))).
    by rewrite recorded_adds_cell by lia.
Qed.

End Pooling.
End PoolingTheorems.

Module ReduceFacts.
Import Reduce.

Lemma elements_sequential_from {A} (p : plan A) idx l :
  elements (sequential_from p idx l) = elements p ++ l.
Proof.
  revert p idx. induction l as [|x l IH]; intros p idx; cbn.
  - by rewrite app_nil_r.
  - rewrite IH. cbn. by rewrite <- app_assoc.
Qed.

Lemma elements_sequential {A} (l : list A) : elements (sequential l) = l.
Proof. apply elements_sequential_from. Qed.

Lemma elements_two_halves {A} (l : list A) : elements (two_halves l) = l.
Proof.
  unfold two_halves. cbn zeta. cbn [elements].
  rewrite elements_sequential, elements_sequential_from.
  apply take_drop.
Qed.

End ReduceFacts.

Module AminmaxTheorems.
Import Reduce ReduceOpAminmax ReduceFacts MinMaxTerms.

(** IEEE comparison of binary64 values. *)
Lemma is_nan_Prim2SF (x : float) :
  PrimFloat.is_nan x = true → Prim2SF x = S754_nan.
Proof.
  unfold PrimFloat.is_nan. rewrite FloatAxioms.eqb_spec.
  destruct (Prim2SF x) as [s|s| |s m e]; cbn; [done | by destruct s | done |].
  rewrite Z.compare_refl, Pos.compare_cont_refl. by destruct s.
Qed.

Global Instance float_NumericsNaN : NumericsNaN float.
Proof.
  split; intros a b Hb; cbn in *.
  - rewrite FloatAxioms.ltb_spec, (is_nan_Prim2SF b Hb). unfold SFltb, SFcompare.
    by destruct (Prim2SF a) as [[]|[]| |[]].
  - rewrite FloatAxioms.ltb_spec, (is_nan_Prim2SF b Hb). done.
Qed.

Section MinMax.
Context {T : Type} `{NumericsNaN T}.

Lemma combine_nan_min (a b : acc_t) :
  isnan a.1 = true ∨ isnan b.1 = true → isnan (combine a b).1 = true.
Proof.
  intros Hab. unfold combine. cbn [fst].
  destruct (isnan a.1) eqn:Ha; [done|]. destruct Hab as [?|Hb]; [done|].
  cbn [orb]. by rewrite less_nan_r.
Qed.

Lemma combine_nan_max (a b : acc_t) :
  isnan a.2 = true ∨ isnan b.2 = true → isnan (combine a b).2 = true.
Proof.
  intros Hab. unfold combine. cbn [snd].
  destruct (isnan a.2) eqn:Ha; [done|]. destruct Hab as [?|Hb]; [done|].
  cbn [orb]. by rewrite greater_nan_r.
Qed.

Lemma combine_both_nan (a b : acc_t) :
  both_nan a ∨ both_nan b → both_nan (combine a b).
Proof.
  intros Hab. split; [apply combine_nan_min | apply combine_nan_max];
    destruct Hab as [[? ?]|[? ?]]; auto.
Qed.

Lemma reduce_both_nan (acc : acc_t) (x : T) idx :
  both_nan acc ∨ isnan x = true → both_nan (reduce acc x idx).
Proof.
  intros Hx. apply combine_both_nan. destruct Hx as [?|?]; [by left|by right].
Qed.

Lemma run_both_nan (ident : acc_t) (p : plan T) (x : T) :
  x ∈ elements p → isnan x = true → both_nan (run reduce combine ident p).
Proof.
  intros Hx Hnan. induction p as [|p IH idx y|p IHp q IHq]; cbn in *.
  - by apply elem_of_nil in Hx.
  - apply reduce_both_nan. apply elem_of_app in Hx as [Hx|Hx]; [left; auto|].
    apply list_elem_of_singleton in Hx as <-. by right.
  - apply combine_both_nan. apply elem_of_app in Hx as [Hx|Hx]; auto.
Qed.

Variable schedule : list T → plan T.

(** C5: NaN propagates through the min/max reduction.  A component of the
    result of [combine] is NaN whenever the corresponding component of either
    argument is; a NaN component of the accumulator stays NaN through
    [reduce]; and for every input with at least one NaN element, whatever the
    order in which the elements are reduced and the partial results combined,
    both the min output and the max output of [_aminmax] are NaN. *)
Theorem minmax_nan_propagation (dt : ScalarType) (self : list T) (x : T) :
  feeds_all schedule →
  aminmax_dtype dt →
  x ∈ self →
  isnan x = true →
  (∀ a b : acc_t,
     (isnan a.1 = true ∨ isnan b.1 = true → isnan (combine a b).1 = true)
     ∧ (isnan a.2 = true ∨ isnan b.2 = true → isnan (combine a b).2 = true))
  ∧ (∀ (acc : acc_t) (y : T) (idx : Z),
       (isnan acc.1 = true → isnan (reduce acc y idx).1 = true)
       ∧ (isnan acc.2 = true → isnan (reduce acc y idx).2 = true)
       ∧ (isnan y = true → both_nan (reduce acc y idx)))
  ∧ ∃ r, _aminmax schedule dt self = ([K_reduce_minmax], inr r) ∧ both_nan r.
Proof.
  intros Hfeeds Hdt Hx Hnan. split; [|split].
  - intros a b. split; [apply combine_nan_min | apply combine_nan_max].
  - intros acc y idx. split; [|split].
    + intros Hacc. apply combine_nan_min. by left.
    + intros Hacc. apply combine_nan_max. by left.
    + intros Hy. apply reduce_both_nan. by right.
  - unfold _aminmax.
    assert (is_complex dt = false) as ->.
    { unfold is_complex. apply bool_decide_eq_false_2. unfold aminmax_dtype in Hdt.
      intros [-> | ->]; by repeat (apply elem_of_cons in Hdt as [?|Hdt]; [done|]);
        apply elem_of_nil in Hdt. }
    rewrite decide_False by (destruct self; [by apply elem_of_nil in Hx | done]).
    unfold aminmax_kernel, IPEX_DISPATCH_ALL_TYPES_AND2.
    rewrite decide_True by done. host_run.
    eexists. split; [reflexivity|].
    unfold _min_max_values_kernel_dpcpp_impl, dpcpp_reduce_kernel. cbn.
    unfold project. apply run_both_nan with x; [|done].
    by rewrite (Hfeeds self).
Qed.

End MinMax.
End AminmaxTheorems.

Module LogicalTheorems.
Import Reduce ReduceOpLogical.
Section Logical.
Variable schedule : list Z → plan Z.

(** C7: on an input without elements [_all] fills the result with 1 and
    [_any] fills it with 0, and neither submits a reduction kernel; so
    [all] of an empty tensor is true and [any] of an empty tensor is
    false. *)
Theorem logical_reduction_empty (result : list Z) (iter : TensorIterator) :
  numel iter = 0 →
  (_all schedule result iter = ([], inr (fill_ result 1))
   ∧ _any schedule result iter = ([], inr (fill_ result 0)))
  ∧ (∀ i, 0 ≤ i < Z.of_nat (length result) →
       ld 0 (fill_ result 1) i = 1 ∧ ld 0 (fill_ result 0) i = 0)
  ∧ (∀ junk dt,
       all schedule junk dt [] = ([], inr [of_bool true])
       ∧ any schedule junk dt [] = ([], inr [of_bool false])).
Proof.
  intros Hnumel. split; [|split].
  - unfold _all, _any. by rewrite !decide_True by done.
  - intros i Hi. unfold fill_. by rewrite !ld_replicate by done.
  - intros junk dt. done.
Qed.

End Logical.
End LogicalTheorems.

Module DispatchTheorems.
Section Dispatch.
Context {T : Type} `{Scalar T}.
Variables (dpcppMaxWorkGroupSize : Z) (USE_ONEDPL : bool).
Variables (uninit : nat → Z) (uninit_s : nat → T) (uninit_max : T).
Variable sort_by_key : list (Z * Z) → list (Z * Z).

Lemma assert_then {A} (P : Prop) `{!Decision P} (m : M A) :
  ((if decide P then throw InternalAssert else mret tt);; m)
  = if decide P then ([], inl InternalAssert) else m.
Proof. case_decide; [done|]. by rewrite bind_mret. Qed.

(** C8, as amended: a mode outside SUM = 0, MEAN = 1, MAX = 2 fails with
    the check error that names the mode, before any kernel is submitted;
    mode SUM goes to the sum/mean path; modes MEAN and MAX go to the sum/mean
    path and to the max path when no per-sample weights are given, and fail
    an internal assertion, before any kernel is submitted, when they are. *)
Theorem dense_backward_dispatch
    (grad_ : Tensor T) (indices offsets : list Z) (offset2bag : option (list Z))
    (bag_size_ max_indices : list Z) (num_weights : Z)
    (scale_grad_by_freq : bool) (mode : Z)
    (per_sample_weights : option (Tensor T)) :
  let call :=
    _embedding_bag_dense_backward_dpcpp dpcppMaxWorkGroupSize USE_ONEDPL
      uninit uninit_s sort_by_key grad_ indices offsets offset2bag bag_size_
      max_indices num_weights scale_grad_by_freq mode per_sample_weights in
  (mode ≠ MODE_SUM → mode ≠ MODE_MEAN → mode ≠ MODE_MAX →
     call = ([], inl (unknown_mode mode)))
  ∧ (mode = MODE_SUM ∨ (mode = MODE_MEAN ∧ per_sample_weights = None) →
     call = embedding_bag_backward_dpcpp_sum_avg dpcppMaxWorkGroupSize
              USE_ONEDPL uninit uninit_s sort_by_key (contiguous grad_) indices
              offsets offset2bag bag_size_ num_weights scale_grad_by_freq mode
              per_sample_weights)
  ∧ (mode = MODE_MAX → per_sample_weights = None →
     call = embedding_bag_backward_dpcpp_max (contiguous grad_) max_indices
              num_weights)
  ∧ (mode = MODE_MEAN ∨ mode = MODE_MAX → is_Some per_sample_weights →
     call = ([], inl InternalAssert)).
Proof.
  cbn zeta. unfold _embedding_bag_dense_backward_dpcpp. rewrite !assert_then.
  split; [|split; [|split]].
  - intros H0 H1 H2. rewrite decide_False by (intros [?|?]; done).
    by rewrite decide_False.
  - intros Hmode. rewrite decide_True by (destruct Hmode as [?|[? _]]; auto).
    rewrite decide_False; [done|]. intros [Hm Hp].
    destruct Hmode as [->|[_ ->]]; [done|]. by destruct Hp.
  - intros -> ->. rewrite decide_False by (intros [?|?]; done).
    rewrite decide_True by done. rewrite decide_False; [done|]. by intros [? ?].
  - intros [-> | ->] Hp.
    + rewrite decide_True by auto. by rewrite decide_True.
    + rewrite decide_False by (intros [?|?]; done).
      rewrite decide_True by done. by rewrite decide_True.
Qed.

Lemma dtype_contiguous (t : Tensor T) : dtype (contiguous t) = dtype t.
Proof. unfold contiguous. by destruct (is_contiguous t). Qed.

Lemma forward_ok (weight : Tensor T) indices offsets
    (scale_grad_by_freq sparse : bool) (mode : Z)
    (per_sample_weights : option (Tensor T)) :
  forward_dtype (dtype weight) →
  per_sample_weights_ok (dtype weight) per_sample_weights →
  ∃ r, _embedding_bag_dpcpp uninit uninit_s uninit_max weight indices offsets
         scale_grad_by_freq mode sparse per_sample_weights
       = ([K_updateOutput], inr r).
Proof.
  intros Hdt Hpsw. unfold _embedding_bag_dpcpp.
  rewrite PoolingTheorems.forward_dispatch_ok by done. rewrite bind_mret.
  rewrite (data_ptr_ok weight) by done. rewrite bind_mret.
  rewrite data_ptr_ok by done. rewrite bind_mret.
  assert ((match per_sample_weights with
           | Some w => Some <$> data_ptr (dtype weight) w
           | None => mret None
           end) = mret (data <$> per_sample_weights)) as ->.
  { destruct per_sample_weights as [w|]; [|done]. cbn in Hpsw.
    by rewrite data_ptr_ok. }
  rewrite bind_mret. unfold EmbeddingBag_updateOutputKernel.
  host_run. eexists. reflexivity.
Qed.

(** C9: the max backward takes the gradient through a [float] pointer
    whatever its element type is, so that with a gradient of any other
    element type it fails at the element type check of [data_ptr], before a
    kernel is submitted, also when reached through the dense backward in
    mode MAX; the forward pass runs for weights of the element types float,
    double, half and bfloat16. *)
Theorem max_backward_float_only
    (grad : Tensor T) (indices offsets : list Z) (offset2bag : option (list Z))
    (bag_size_ max_indices : list Z) (num_weights : Z)
    (scale_grad_by_freq sparse : bool) (weight : Tensor T)
    (per_sample_weights : option (Tensor T)) :
  dtype grad ≠ Float →
  dtype weight = Double ∨ dtype weight = Half ∨ dtype weight = BFloat16 →
  per_sample_weights_ok (dtype weight) per_sample_weights →
  embedding_bag_backward_dpcpp_max grad max_indices num_weights
  = ([], inl (DataPtrType Float (dtype grad)))
  ∧ _embedding_bag_dense_backward_dpcpp dpcppMaxWorkGroupSize USE_ONEDPL
      uninit uninit_s sort_by_key grad indices offsets offset2bag bag_size_
      max_indices num_weights scale_grad_by_freq MODE_MAX None
    = ([], inl (DataPtrType Float (dtype grad)))
  ∧ ∃ r, _embedding_bag_dpcpp uninit uninit_s uninit_max weight indices offsets
           scale_grad_by_freq MODE_MAX sparse per_sample_weights
         = ([K_updateOutput], inr r).
Proof.
  intros Hgrad Hweight Hpsw.
  assert (∀ g : Tensor T, dtype g = dtype grad →
            embedding_bag_backward_dpcpp_max g max_indices num_weights
            = ([], inl (DataPtrType Float (dtype grad)))) as Hmax.
  { intros g Hg. unfold embedding_bag_backward_dpcpp_max.
    apply bind_error. unfold data_ptr.
    rewrite decide_False by (by rewrite Hg). by rewrite Hg. }
  split; [by apply Hmax|]. split.
  - unfold _embedding_bag_dense_backward_dpcpp. rewrite !assert_then.
    rewrite decide_False by (intros [?|?]; done).
    rewrite decide_True by done.
    rewrite (decide_False (P := is_Some None)) by (apply is_Some_None).
    apply Hmax, dtype_contiguous.
  - apply forward_ok; [|done]. unfold forward_dtype. tauto.
Qed.

End Dispatch.
End DispatchTheorems.

(** ** Instances for the integers *)

Global Instance Z_ScalarLaws : ScalarLaws Z.
Proof. split; intros; cbn; lia. Qed.

Global Instance Z_ScalarOrder : ScalarOrder Z.
Proof.
  split; cbn.
  - intros a. rewrite Z.gtb_ltb. apply Z.ltb_irrefl.
  - intros a b c. rewrite !Z.gtb_ltb, !Z.ltb_lt. lia.
  - intros a b c. rewrite !Z.gtb_ltb, !Z.ltb_lt. lia.
Qed.

Module InsertionSortFacts.
Import InsertionSort.

Lemma insert_by_key_Permutation x l : insert_by_key x l ≡ₚ x :: l.
Proof.
  induction l as [|y l IH]; cbn; [done|]. case_decide; [done|].
  rewrite IH. apply Permutation_swap.
Qed.

Lemma sort_by_key_Permutation l : sort_by_key l ≡ₚ l.
Proof.
  induction l as [|x l IH]; cbn; [done|].
  by rewrite insert_by_key_Permutation, IH.
Qed.

Lemma insert_by_key_Sorted x l :
  Sorted Z.le l.*1 → Sorted Z.le (insert_by_key x l).*1.
Proof.
  induction l as [|y l IH]; cbn; intros Hs.
  { repeat constructor. }
  apply Sorted_inv in Hs as [Hs Hhd]. case_decide as Hxy; cbn.
  - constructor; [by constructor | by constructor].
  - constructor; [by apply IH|].
    destruct l as [|z l]; cbn.
    + constructor. lia.
    + case_decide; cbn; constructor; [lia|]. by apply HdRel_inv in Hhd.
Qed.

Lemma sort_by_key_Sorted l : Sorted Z.le (sort_by_key l).*1.
Proof.
  induction l as [|x l IH]; cbn; [constructor|]. by apply insert_by_key_Sorted.
Qed.

End InsertionSortFacts.

(** ** The theorems at concrete inputs *)
Module Instances.
Import Reduce ReduceOpAminmax ReduceOpLogical MinMaxTerms.

(** The stream of the comment in the code: five runs. *)
Lemma segment_discovery_partition_witness :
  [2; 5; 5; 5; 7; 7; 8; 9; 9] ≠ []
  ∧ Sorted Z.le [2; 5; 5; 5; 7; 7; 8; 9; 9]
  ∧ ∃ offs n,
      segment_discovery [2; 5; 5; 5; 7; 7; 8; 9; 9] (replicate 9 0) = mret (offs, n)
      ∧ 1 ≤ n ≤ 9.
Proof.
  assert (Hne : [2; 5; 5; 5; 7; 7; 8; 9; 9] ≠ []) by done.
  assert (Hsorted : Sorted Z.le [2; 5; 5; 5; 7; 7; 8; 9; 9])
    by (repeat constructor; lia).
  split; [exact Hne|]. split; [exact Hsorted|].
  destruct (BackwardTheorems.segment_discovery_partition
              [2; 5; 5; 5; 7; 7; 8; 9; 9] (replicate 9 0) Hne Hsorted)
    as (offs & n & Heq & Hn & _).
  exists offs, n. split; [exact Heq | exact Hn].
Defined.

Lemma segmentation_example : segmentation [0; 1; 4; 6; 7] 5 9.
Proof.
  split; [lia | cbn; lia | done | | done].
  intros k Hk.
  assert (k = 0 ∨ k = 1 ∨ k = 2 ∨ k = 3) as [->|[->|[->| ->]]] by lia; by vm_compute.
Qed.

Lemma partial_segment_splitting_witness :
  segmentation [0; 1; 4; 6; 7] 5 9
  ∧ 9 ≤ INT_MAX
  ∧ ∃ p, partial_segments (λ _, 0) [0; 1; 4; 6; 7] 5 9
         = ([K_partials_per_segment; K_partial_segment_offset], inr p)
       ∧ ld 0 (partials_per_segment p) 1 = CeilDiv 3 10.
Proof.
  assert (Hsmall : 9 ≤ INT_MAX) by (by vm_compute).
  split; [exact segmentation_example|]. split; [exact Hsmall|].
  destruct (BackwardTheorems.partial_segment_splitting (λ _, 0) [0; 1; 4; 6; 7] 5 9
              segmentation_example Hsmall) as (p & Heq & _ & _ & _ & Hsegs).
  exists p. split; [exact Heq|].
  destruct (Hsegs 1 ltac:(lia)) as ((Hcount & _) & _). exact Hcount.
Defined.

Lemma minmax_nan_propagation_witness :
  feeds_all (@two_halves float)
  ∧ aminmax_dtype Double
  ∧ PrimFloat.nan ∈ [1%float; PrimFloat.nan; 2%float]
  ∧ isnan PrimFloat.nan = true
  ∧ ∃ r, _aminmax two_halves Double [1%float; PrimFloat.nan; 2%float]
         = ([K_reduce_minmax], inr r)
       ∧ both_nan r.
Proof.
  assert (Hfeeds : feeds_all (@two_halves float))
    by (intros l; by rewrite ReduceFacts.elements_two_halves).
  assert (Hdt : aminmax_dtype Double)
    by (unfold aminmax_dtype; rewrite !elem_of_cons; auto 10).
  assert (Hx : PrimFloat.nan ∈ [1%float; PrimFloat.nan; 2%float])
    by (rewrite !elem_of_cons; auto).
  assert (Hnan : isnan PrimFloat.nan = true) by (by vm_compute).
  split; [exact Hfeeds|]. split; [exact Hdt|]. split; [exact Hx|].
  split; [exact Hnan|].
  exact (proj2 (proj2 (AminmaxTheorems.minmax_nan_propagation two_halves Double
                         [1%float; PrimFloat.nan; 2%float] PrimFloat.nan
                         Hfeeds Hdt Hx Hnan))).
Defined.

Lemma logical_reduction_empty_witness :
  numel (mkIter Bool [[]]) = 0
  ∧ _all sequential [7] (mkIter Bool [[]]) = ([], inr [1])
  ∧ _any sequential [7] (mkIter Bool [[]]) = ([], inr [0]).
Proof.
  assert (Hnumel : numel (mkIter Bool [[]]) = 0) by done.
  split; [exact Hnumel|].
  exact (proj1 (LogicalTheorems.logical_reduction_empty sequential [7]
                  (mkIter Bool [[]]) Hnumel)).
Defined.

Lemma max_backward_float_only_witness :
  dtype (mkTensor Double 1 2 2 1 [5; 6]) ≠ Float
  ∧ embedding_bag_backward_dpcpp_max (mkTensor Double 1 2 2 1 [5; 6]) [0; 2] 3
    = ([], inl (DataPtrType Float Double))
  ∧ ∃ r, _embedding_bag_dpcpp (λ _, 0) (λ _, 0) 0
           (mkTensor Double 3 2 2 1 [1; 2; 3; 4; 5; 6]) [0; 2] [0] false MODE_MAX
           false None
         = ([K_updateOutput], inr r).
Proof.
  assert (Hgrad : dtype (mkTensor Double 1 2 2 1 [5; 6]) ≠ Float) by done.
  split; [exact Hgrad|].
  destruct (DispatchTheorems.max_backward_float_only 64 true (λ _, 0) (λ _, 0) 0
              InsertionSort.sort_by_key (mkTensor Double 1 2 2 1 [5; 6])
              [0; 2] [0] None [1] [0; 2] 3 false false
              (mkTensor Double 3 2 2 1 [1; 2; 3; 4; 5; 6]) None
              Hgrad (or_introl eq_refl) I) as (Hmax & _ & Hfwd).
  split; [exact Hmax | exact Hfwd].
Defined.

Lemma indices_example x : x ∈ [3; 1; 3; 1; 3] → 0 ≤ x < 5.
Proof.
  intros Hx. repeat (apply elem_of_cons in Hx as [->|Hx]; [lia|]).
  by apply elem_of_nil in Hx.
Qed.

(** Two segments, the first one of the padding index. *)
Lemma padding_exclusion_witness :
  Sorted Z.le [1; 1; 3; 3; 3]
  ∧ 5 * stride_warped_of 64 2 ≤ INT_MAX
  ∧ ∃ r,
      outcome (embedding_bag_backward_dpcpp_run 64 true (λ _, 0) (λ _, 0)
                 (mkTensor Float 5 2 2 1 [7; 7; 7; 7; 7; 7; 7; 7; 7; 7])
                 [1; 3; 0; 2; 4] [1; 1; 3; 3; 3] None 5 1 false false None []
                 None) = inr r
      ∧ data (run_grad_weight r)
        = apply_writes (run_stores r) (replicate 10 0).
Proof.
  assert (Hsorted : Sorted Z.le [1; 1; 3; 3; 3]) by (repeat constructor; lia).
  assert (Hsmall : 5 * stride_warped_of 64 2 ≤ INT_MAX) by (by vm_compute).
  split; [exact Hsorted|]. split; [exact Hsmall|].
  destruct (BackwardTheorems.padding_exclusion (T := Z) 64 (λ _, 0) (λ _, 0)
              ltac:(lia) (mkTensor Float 5 2 2 1 [7; 7; 7; 7; 7; 7; 7; 7; 7; 7])
              [1; 3; 0; 2; 4] [1; 1; 3; 3; 3] None 5 1 false false None [] None
              ltac:(done) Hsorted ltac:(cbn; lia) Hsmall (or_introl eq_refl) I)
    as (r & Hrun & _ & Hdata & _).
  exists r. split; [exact Hrun | exact Hdata].
Defined.

Lemma padding_exclusion_unreachable_witness :
  (∀ l, InsertionSort.sort_by_key l ≡ₚ l)
  ∧ (∀ l, Sorted Z.le (InsertionSort.sort_by_key l).*1)
  ∧ (∀ x, x ∈ [3; 1; 3; 1; 3] → 0 ≤ x < 5)
  ∧ embedding_bag_backward_dpcpp_sum_avg 64 true (λ _, 0) (λ _, 0)
      InsertionSort.sort_by_key
      (mkTensor Float 5 2 2 1 [7; 7; 7; 7; 7; 7; 7; 7; 7; 7])
      [3; 1; 3; 1; 3] [0; 1; 2; 3; 4] None [] 5 false MODE_SUM None
    = embedding_bag_backward_dpcpp_kernel 64 true (λ _, 0) (λ _, 0)
        (mkTensor Float 5 2 2 1 [7; 7; 7; 7; 7; 7; 7; 7; 7; 7])
        [1; 3; 0; 2; 4] [1; 1; 3; 3; 3] None 5 (-1) false false None [] None.
Proof.
  split; [exact InsertionSortFacts.sort_by_key_Permutation|].
  split; [exact InsertionSortFacts.sort_by_key_Sorted|].
  split; [exact indices_example|].
  exact (proj1 (SumAvgTheorems.padding_exclusion_unreachable (T := Z) 64
                  (λ _, 0) (λ _, 0) InsertionSort.sort_by_key ltac:(lia)
                  InsertionSortFacts.sort_by_key_Permutation
                  InsertionSortFacts.sort_by_key_Sorted
                  (mkTensor Float 5 2 2 1 [7; 7; 7; 7; 7; 7; 7; 7; 7; 7])
                  [3; 1; 3; 1; 3] [0; 1; 2; 3; 4] None [] 5 false MODE_SUM None
                  indices_example ltac:(cbn; lia) ltac:(by vm_compute)
                  (or_introl eq_refl) I)).
Defined.


(** Three bags over a table of four rows: the first with a tie between its
    second and third lookup, the second empty, the third with one lookup. *)
Lemma max_pooling_first_argmax_witness :
  forward_dtype Float
  ∧ (∃ output offset2bag bag_size recorded,
       _embedding_bag_dpcpp (λ _, 0) (λ _, 0) 0
         (mkTensor Float 4 2 2 1 [1; 5; 9; 5; 9; 2; 3; 5])
         [0; 1; 2; 3; 1] [0; 4; 4] false MODE_MAX false None
       = ([K_updateOutput], inr (output, offset2bag, bag_size, recorded))
       ∧ ld 0 recorded (1 * 2 + 0) = -1)
  ∧ (∃ grad_weight,
       embedding_bag_backward_dpcpp_max
         (mkTensor Float 3 2 2 1 [10; 20; 30; 40; 50; 60])
         [1; 0; -1; -1; 1; 1] 4
       = ([K_accGradParameters_max], inr grad_weight)
       ∧ ld 0 (data grad_weight) (1 * 2 + 0) = 60
       ∧ ld 0 (data grad_weight) (3 * 2 + 1) = 0).
Proof.
  assert (Hdt : forward_dtype Float) by (by left).
  split; [exact Hdt|].
  destruct (PoolingTheorems.max_pooling_first_argmax (T := Z) (λ _, 0) (λ _, 0) 0
              (mkTensor Float 4 2 2 1 [1; 5; 9; 5; 9; 2; 3; 5])
              [0; 1; 2; 3; 1] [0; 4; 4] false false None
              (mkTensor Float 3 2 2 1 [10; 20; 30; 40; 50; 60])
              [1; 0; -1; -1; 1; 1] 4
              Hdt I ltac:(cbn; lia) eq_refl ltac:(cbn; lia))
    as [(output & o2b & bs & recorded & Hfwd & Hcells)
        (grad_weight & Hbwd & _ & Hsum)].
  split.
  - exists output, o2b, bs, recorded. split; [exact Hfwd|].
    destruct (Hcells 1 0 ltac:(cbn; lia) ltac:(cbn; lia)) as [Hempty _].
    apply Hempty. by vm_compute.
  - exists grad_weight. split; [exact Hbwd|].
    split; [exact (Hsum 1 0 ltac:(lia) ltac:(cbn; lia))|].
    exact (Hsum 3 1 ltac:(lia) ltac:(cbn; lia)).
Defined.

(** The recorded indices of these bags, evaluated: the tie of rows 1 and 2 in
    feature 0 of the first bag goes to row 1. *)
Example max_pooling_tie_example :
  _embedding_bag_dpcpp (λ _, 0) (λ _, 0) 0
    (mkTensor Float 4 2 2 1 [1; 5; 9; 5; 9; 2; 3; 5])
    [0; 1; 2; 3; 1] [0; 4; 4] false MODE_MAX false None
  = ([K_updateOutput],
     inr (mkTensor Float 3 2 2 1 [9; 5; 0; 0; 9; 5],
          [0; 0; 0; 0; 2], [0; 0; 0], [1; 0; -1; -1; 1; 1])).
Proof. by vm_compute. Qed.

(** C8, where the statement without the assertion fails: in mode MEAN with
    per-sample weights the dense backward stops at the internal assertion and
    submits no kernel, while the sum/mean path, called on the same arguments,
    runs its four kernels and returns a gradient. *)
Lemma dense_backward_mean_weights_assert :
  _embedding_bag_dense_backward_dpcpp 64 true (λ _, 0) (λ _, 0)
    InsertionSort.sort_by_key
    (mkTensor Float 5 2 2 1 (replicate 10 7))
    [3; 1; 3; 1; 3] [0; 1; 2; 3; 4] (Some [0; 1; 2; 3; 4]) [1; 1; 1; 1; 1] []
    5 false MODE_MEAN (Some (mkTensor Float 5 1 1 1 [1; 1; 1; 1; 1]))
  = ([], inl InternalAssert)
  ∧ embedding_bag_backward_dpcpp_sum_avg 64 true (λ _, 0) (λ _, 0)
      InsertionSort.sort_by_key
      (contiguous (mkTensor Float 5 2 2 1 (replicate 10 7)))
      [3; 1; 3; 1; 3] [0; 1; 2; 3; 4] (Some [0; 1; 2; 3; 4]) [1; 1; 1; 1; 1]
      5 false MODE_MEAN (Some (mkTensor Float 5 1 1 1 [1; 1; 1; 1; 1]))
    = ([K_partials_per_segment; K_partial_segment_offset;
        K_compute_grad_weight_bags; K_sum_and_scatter],
       inr (mkTensor Float 5 2 2 1 [0; 0; 14; 14; 0; 0; 21; 21; 0; 0]))
  ∧ _embedding_bag_dense_backward_dpcpp 64 true (λ _, 0) (λ _, 0)
      InsertionSort.sort_by_key
      (mkTensor Float 5 2 2 1 (replicate 10 7))
      [3; 1; 3; 1; 3] [0; 1; 2; 3; 4] (Some [0; 1; 2; 3; 4]) [1; 1; 1; 1; 1] []
      5 false MODE_MEAN (Some (mkTensor Float 5 1 1 1 [1; 1; 1; 1; 1]))
    ≠ embedding_bag_backward_dpcpp_sum_avg 64 true (λ _, 0) (λ _, 0)
        InsertionSort.sort_by_key
        (contiguous (mkTensor Float 5 2 2 1 (replicate 10 7)))
        [3; 1; 3; 1; 3] [0; 1; 2; 3; 4] (Some [0; 1; 2; 3; 4]) [1; 1; 1; 1; 1]
        5 false MODE_MEAN (Some (mkTensor Float 5 1 1 1 [1; 1; 1; 1; 1])).
Proof.
  assert (Hpath :
    embedding_bag_backward_dpcpp_sum_avg 64 true (λ _, 0) (λ _, 0)
      InsertionSort.sort_by_key
      (contiguous (mkTensor Float 5 2 2 1 (replicate 10 7)))
      [3; 1; 3; 1; 3] [0; 1; 2; 3; 4] (Some [0; 1; 2; 3; 4]) [1; 1; 1; 1; 1]
      5 false MODE_MEAN (Some (mkTensor Float 5 1 1 1 [1; 1; 1; 1; 1]))
    = ([K_partials_per_segment; K_partial_segment_offset;
        K_compute_grad_weight_bags; K_sum_and_scatter],
       inr (mkTensor Float 5 2 2 1 [0; 0; 14; 14; 0; 0; 21; 21; 0; 0])))
    by (by vm_compute).
  split; [by vm_compute|]. split; [exact Hpath|].
  rewrite Hpath. by vm_compute.
Qed.


(** C10, where the statement that the kernel is always invoked fails: for
    the empty index stream the public sum and mean backward returns the zero
    gradient and submits no kernel, where the segmented kernel, called on the
    empty stream, stops at [dummy[0] = 1]. *)
Lemma sum_avg_empty_stream_skips_kernel :
  embedding_bag_backward_dpcpp_sum_avg 64 true (λ _, 0) (λ _, 0)
    InsertionSort.sort_by_key (mkTensor Float 0 2 2 1 [])
    [] [0] None [] 5 false MODE_SUM None
  = ([], inr (mkTensor Float 5 2 2 1 (replicate 10 0)))
  ∧ embedding_bag_backward_dpcpp_kernel 64 true (λ _, 0) (λ _, 0)
      (mkTensor Float 0 2 2 1 []) [] [] None 5 (-1) false false None [] None
    = ([], inl IndexError)
  ∧ embedding_bag_backward_dpcpp_sum_avg 64 true (λ _, 0) (λ _, 0)
      InsertionSort.sort_by_key (mkTensor Float 0 2 2 1 [])
      [] [0] None [] 5 false MODE_SUM None
    ≠ embedding_bag_backward_dpcpp_kernel 64 true (λ _, 0) (λ _, 0)
        (mkTensor Float 0 2 2 1 []) [] [] None 5 (-1) false false None [] None.
Proof. repeat split; by vm_compute. Qed.

End Instances.

(** ** Forward pooling in every mode *)
Module ForwardFacts.
Section Forward.
Context {T : Type} `{Scalar T}.
Variable uninit_max : T.

(** The buffers after a series of stores. *)
Lemma fwd_output_fold mode (ws : list (fwd_store T)) (s : fwd_state T) :
  fwd_output (fold_left (fwd_apply mode) ws s)
  = apply_writes (ws ≫= output_store) (fwd_output s).
Proof.
  revert s. induction ws as [|w ws IH]; intros s; [done|].
  cbn [fold_left]. rewrite IH, bind_cons. unfold apply_writes.
  rewrite fold_left_app. destruct w; cbn; try done. by case_decide.
Qed.

Lemma fwd_bag_size_fold mode (ws : list (fwd_store T)) (s : fwd_state T) :
  fwd_bag_size (fold_left (fwd_apply mode) ws s)
  = apply_writes (ws ≫= bag_size_store) (fwd_bag_size s).
Proof.
  revert s. induction ws as [|w ws IH]; intros s; [done|].
  cbn [fold_left]. rewrite IH, bind_cons. unfold apply_writes.
  rewrite fold_left_app. destruct w; cbn; try done. by case_decide.
Qed.

Lemma fwd_offset2bag_fold mode (ws : list (fwd_store T)) (s : fwd_state T) :
  fwd_offset2bag (fold_left (fwd_apply mode) ws s)
  = apply_writes (ws ≫= offset2bag_store mode) (fwd_offset2bag s).
Proof.
  revert s. induction ws as [|w ws IH]; intros s; [done|].
  cbn [fold_left]. rewrite IH, bind_cons. unfold apply_writes.
  rewrite fold_left_app. destruct w; cbn; try done. by case_decide.
Qed.

Lemma fwd_max_indices_none mode (ws : list (fwd_store T)) (s : fwd_state T) :
  fwd_max_indices s = None →
  fwd_max_indices (fold_left (fwd_apply mode) ws s) = None.
Proof.
  revert s. induction ws as [|w ws IH]; intros s Hs; [done|].
  cbn [fold_left]. apply IH. destruct w; cbn; try done.
  case_decide; cbn; [by rewrite Hs | done].
Qed.

Lemma fwd_max_indices_some (ws : list (fwd_store T)) (s : fwd_state T) mi :
  fwd_max_indices s = Some mi →
  fwd_max_indices (fold_left (fwd_apply MODE_MAX) ws s)
  = Some (apply_writes (ws ≫= max_store) mi).
Proof.
  revert s mi. induction ws as [|w ws IH]; intros s mi Hs; [done|].
  cbn [fold_left]. rewrite bind_cons. unfold apply_writes.
  rewrite fold_left_app. fold (apply_writes (ws ≫= max_store)).
  apply IH. destruct w; cbn; try done. by rewrite Hs.
Qed.

Section Kernel.
Variables (input offsets : list Z) (weight : list T).
Variables (numIndices numBags featureSize weight_stide0 weight_stride1 mode : Z).
Variables (psw : option (list T)) (psw_stride : Z).
Hypothesis Hfs : 0 < featureSize.

Let wpc := workersPerChunk_of featureSize.
Let cpb := CeilDiv featureSize wpc.
Let numChunks := numBags * cpb.

Local Abbreviation stores :=
  (updateOutput_stores uninit_max input offsets weight numIndices numBags
     featureSize weight_stide0 weight_stride1 mode psw psw_stride).
Local Abbreviation stores_of :=
  (bag_stores uninit_max input offsets weight numIndices numBags featureSize
     weight_stide0 weight_stride1 mode psw psw_stride).

Lemma workers_pos : 0 < wpc.
Proof.
  unfold wpc. destruct (workersPerChunk_cases featureSize) as [->|[->| ->]]; lia.
Qed.

Lemma chunksPerBag_spec : wpc * (cpb - 1) < featureSize ≤ wpc * cpb.
Proof. apply CeilDiv_spec; [lia | apply workers_pos]. Qed.

Lemma updateOutput_stores_pairs :
  stores
  = chunk_pairs wpc (cdiv 256 wpc) numChunks
    ≫= (λ cl, chunk_cell stores_of featureSize wpc cpb cl.1 cl.2).
Proof.
  pose proof workers_pos as Hwpc.
  pose proof (chunksPerWorkGroup_pos featureSize) as Hcpwg. fold wpc in Hcpwg.
  rewrite <- (chunk_loop_pairs wpc (cdiv 256 wpc) numChunks
    (λ item c,
       updateOutput_chunk uninit_max input offsets weight numIndices numBags
         featureSize weight_stide0 weight_stride1 mode psw psw_stride cpb
         item c)
    (chunk_cell stores_of featureSize wpc cpb)).
  - done.
  - intros item c Hitem.
    apply (elem_of_items wpc (cdiv 256 wpc) Hwpc Hcpwg) in Hitem
      as (g0 & l0 & l1 & _ & ->).
    done.
Qed.

(** The kernel performs the stores of every bag and feature, and no
    other. *)
Lemma elem_of_updateOutput_stores (w : fwd_store T) :
  w ∈ stores
  ↔ ∃ bag f, 0 ≤ bag < numBags ∧ 0 ≤ f < featureSize ∧ w ∈ stores_of bag f.
Proof.
  pose proof workers_pos as Hwpc.
  pose proof chunksPerBag_spec as Hcpb.
  pose proof (chunksPerWorkGroup_pos featureSize) as Hcpwg. fold wpc in Hcpwg.
  assert (0 < cpb) as Hcpb0 by nia.
  rewrite updateOutput_stores_pairs, list_elem_of_bind. split.
  - intros ([c l] & Hw & Hcl).
    apply elem_of_chunk_pairs in Hcl as [Hc Hl]; [|done..].
    cbn [fst snd] in Hw. unfold chunk_cell in Hw.
    rewrite cdiv_nonneg, cmod_nonneg in Hw by lia.
    case_decide as Hfd; [|by apply elem_of_nil in Hw].
    pose proof (Z.mod_pos_bound c cpb Hcpb0) as Hm.
    pose proof (Z.div_mod c cpb ltac:(lia)) as Hdm.
    exists (c / cpb), (c mod cpb * wpc + l). split; [|split; [nia | done]].
    split; [apply Z.div_pos; lia|].
    apply Z.div_lt_upper_bound; unfold numChunks in Hc; nia.
  - intros (bag & f & Hbag & Hf & Hw).
    pose proof (Z.div_mod f wpc ltac:(lia)) as Hdm.
    pose proof (Z.mod_pos_bound f wpc Hwpc) as Hm.
    assert (0 ≤ f / wpc < cpb) as Hq.
    { split; [apply Z.div_pos; lia|]. apply Z.div_lt_upper_bound; nia. }
    exists (bag * cpb + f / wpc, f mod wpc). split.
    + cbn [fst snd]. unfold chunk_cell.
      rewrite cdiv_nonneg, cmod_nonneg by nia.
      replace ((bag * cpb + f / wpc) mod cpb) with (f / wpc)
        by (apply Z.mod_unique with bag; lia).
      replace ((bag * cpb + f / wpc) / cpb) with bag
        by (apply Z.div_unique with (f / wpc); lia).
      replace (f / wpc * wpc + f mod wpc) with f by lia.
      by rewrite decide_True by lia.
    + apply elem_of_chunk_pairs; [done..|]. unfold numChunks. nia.
Qed.

(** The stores that reach one buffer. *)
Lemma elem_of_projected {A} (proj : fwd_store T → list (Z * A)) (w : Z * A) :
  w ∈ stores ≫= proj
  ↔ ∃ bag f, 0 ≤ bag < numBags ∧ 0 ≤ f < featureSize
             ∧ w ∈ stores_of bag f ≫= proj.
Proof.
  rewrite list_elem_of_bind. split.
  - intros (s & Hw & Hs).
    apply elem_of_updateOutput_stores in Hs as (bag & f & Hbag & Hf & Hs).
    exists bag, f. split; [done|]. split; [done|].
    apply list_elem_of_bind. by exists s.
  - intros (bag & f & Hbag & Hf & Hw).
    apply list_elem_of_bind in Hw as (s & Hw & Hs).
    exists s. split; [done|]. apply elem_of_updateOutput_stores. by exists bag, f.
Qed.

(** A buffer that gets no store. *)
Lemma projected_nil {A} (proj : fwd_store T → list (Z * A)) :
  (∀ bag f, stores_of bag f ≫= proj = []) → stores ≫= proj = [].
Proof.
  intros Hproj. apply elem_of_nil_inv. intros w Hw.
  apply elem_of_projected in Hw as (bag & f & _ & _ & Hw).
  rewrite Hproj in Hw. by apply elem_of_nil in Hw.
Qed.

(** A buffer that gets one store per bag and feature. *)
Lemma projected_cell {A} (proj : fwd_store T → list (Z * A))
    (idx : Z → Z → Z) (val : Z → Z → A) (d : A) (buf : list A) (i : Z) (v : A) :
  (∀ bag f, 0 ≤ bag < numBags → 0 ≤ f < featureSize →
     stores_of bag f ≫= proj = [(idx bag f, val bag f)]) →
  0 ≤ i < Z.of_nat (length buf) →
  (∃ bag f, 0 ≤ bag < numBags ∧ 0 ≤ f < featureSize ∧ idx bag f = i) →
  (∀ bag f, 0 ≤ bag < numBags → 0 ≤ f < featureSize → idx bag f = i →
     val bag f = v) →
  ld d (apply_writes (stores ≫= proj) buf) i = v.
Proof.
  intros Hproj Hi (bag & f & Hbag & Hf & Hidx) Hval.
  apply ld_apply_writes_same; [done| |].
  - exists (idx bag f, val bag f). split; [|done].
    apply elem_of_projected. exists bag, f. split; [done|]. split; [done|].
    rewrite Hproj by done. by apply list_elem_of_singleton.
  - intros w Hw Hwi. apply elem_of_projected in Hw as (bag' & f' & Hbag' & Hf' & Hw).
    rewrite Hproj in Hw by done. apply list_elem_of_singleton in Hw. subst w.
    cbn [fst snd] in *. by apply Hval.
Qed.

End Kernel.

(** The loop over a bag outside max mode. *)
Section Bag.
Variables (input : list Z) (weight : list T).
Variables (weight_stide0 weight_stride1 mode : Z).
Variables (psw : option (list T)) (psw_stride : Z) (begin f : Z).
Hypothesis Hmode : mode ≠ MODE_MAX.

Let step := bag_step input weight (f * weight_stride1) weight_stide0 mode psw
              psw_stride begin.
Let term := pooled_term input weight weight_stide0 weight_stride1 psw psw_stride f.

Lemma bag_loop_sum_from (l : list Z) (acc : bag_acc T) :
  fold_left step l acc
  = mkAcc (fold_left (λ w i, sadd w (term i)) l (weightFeatSum acc))
      (weightFeatMax acc) (bag_size_ acc + Z.of_nat (length l)) (maxWord acc).
Proof.
  revert acc. induction l as [|emb l IH]; intros acc.
  { cbn. destruct acc. cbn. f_equal. lia. }
  cbn [fold_left]. rewrite IH.
  assert (step acc emb
          = mkAcc (sadd (weightFeatSum acc) (term emb)) (weightFeatMax acc)
              (bag_size_ acc + 1) (maxWord acc)) as ->.
  { unfold step, bag_step, term, pooled_term, lookup_value.
    rewrite decide_False by done. by destruct psw. }
  cbn. f_equal. lia.
Qed.

Lemma bag_loop_sum (end_ : Z) :
  let acc := fold_left step (for_each begin end_) (mkAcc szero uninit_max 0 (-1)) in
  weightFeatSum acc = accumulate term begin end_
  ∧ bag_size_ acc = Z.max 0 (end_ - begin).
Proof.
  cbn zeta. rewrite bag_loop_sum_from. cbn. split; [done|].
  unfold for_each. rewrite length_seqZ. lia.
Qed.

End Bag.

(** The stores of one bag and feature, buffer by buffer. *)
Section Modes.
Variables (input offsets : list Z) (weight : list T).
Variables (numIndices numBags featureSize weight_stide0 weight_stride1 : Z).
Variables (psw : option (list T)) (psw_stride : Z).

Local Abbreviation stores_of mode :=
  (bag_stores uninit_max input offsets weight numIndices numBags featureSize
     weight_stide0 weight_stride1 mode psw psw_stride).
Local Abbreviation lo bag := (bag_begin offsets bag).
Local Abbreviation hi bag := (bag_end offsets numIndices numBags bag).
Local Abbreviation term :=
  (pooled_term input weight weight_stide0 weight_stride1 psw psw_stride).

Lemma offset2bag_stores_bind {A} (proj : fwd_store T → list (Z * A)) bag (l : list Z) :
  (∀ emb, proj (St_offset2bag emb bag) = []) →
  ((λ emb, St_offset2bag emb bag) <$> l) ≫= proj = [].
Proof.
  intros Hproj. apply bind_nil_in. intros w Hw.
  apply list_elem_of_fmap in Hw as (emb & -> & _). apply Hproj.
Qed.

Lemma in_loop_bind {A} (proj : fwd_store T → list (Z * A)) bag f (l : list Z) :
  (∀ emb, proj (St_offset2bag emb bag) = []) →
  (if decide (f = 0) then (λ emb, St_offset2bag emb bag) <$> l else []) ≫= proj
  = [].
Proof. intros Hproj. case_decide; [by apply offset2bag_stores_bind | done]. Qed.

Lemma bag_stores_output_sum bag f :
  stores_of MODE_SUM bag f ≫= output_store
  = [(bag * featureSize + f, accumulate (term f) (lo bag) (hi bag))].
Proof.
  unfold bag_stores. cbv zeta.
  destruct (bag_loop_sum input weight weight_stide0 weight_stride1
              MODE_SUM psw psw_stride (lo bag) f ltac:(done) (hi bag)) as [Hsum _].
  cbv zeta in Hsum. unfold bag_begin, bag_end in Hsum.
  rewrite (decide_False (P := MODE_SUM = MODE_MEAN)) by done.
  rewrite (decide_True (P := MODE_SUM = MODE_MEAN ∨ MODE_SUM = MODE_SUM)) by auto.
  rewrite !bind_app, in_loop_bind by done. cbn. by rewrite Hsum.
Qed.

Lemma bag_stores_output_mean bag f :
  stores_of MODE_MEAN bag f ≫= output_store
  = [(bag * featureSize + f,
      if decide (hi bag = lo bag) then szero
      else sdiv (accumulate (term f) (lo bag) (hi bag))
             (of_int (Z.max 0 (hi bag - lo bag))))].
Proof.
  unfold bag_stores. cbv zeta.
  destruct (bag_loop_sum input weight weight_stide0 weight_stride1
              MODE_MEAN psw psw_stride (lo bag) f ltac:(done) (hi bag))
    as [Hsum Hsize].
  cbv zeta in Hsum, Hsize. unfold bag_begin, bag_end in *.
  rewrite (decide_True (P := MODE_MEAN = MODE_MEAN)) by done.
  destruct (decide (_ = ld 0 offsets bag)) as [Heq|Hne]; cbv beta iota;
    (destruct (decide (MODE_MEAN = MODE_MEAN ∨ MODE_MEAN = MODE_SUM)) as [_|Hn];
       [|by destruct Hn; left]).
  - rewrite !bind_app, in_loop_bind by done. cbn. rewrite Hsum.
    by rewrite accumulate_empty by lia.
  - rewrite !bind_app, in_loop_bind by done. cbn. by rewrite Hsum, Hsize.
Qed.

Lemma bag_stores_bag_size_mean bag f :
  stores_of MODE_MEAN bag f ≫= bag_size_store
  = [(bag, Z.max 0 (hi bag - lo bag))].
Proof.
  unfold bag_stores. cbv zeta.
  destruct (bag_loop_sum input weight weight_stide0 weight_stride1
              MODE_MEAN psw psw_stride (lo bag) f ltac:(done) (hi bag))
    as [_ Hsize].
  cbv zeta in Hsize. unfold bag_begin, bag_end in *.
  rewrite (decide_True (P := MODE_MEAN = MODE_MEAN)) by done.
  destruct (decide (_ = ld 0 offsets bag)) as [Heq|Hne]; cbv beta iota;
    (destruct (decide (MODE_MEAN = MODE_MEAN ∨ MODE_MEAN = MODE_SUM)) as [_|Hn];
       [|by destruct Hn; left]).
  - rewrite !bind_app, in_loop_bind by done. cbn. do 2 f_equal. lia.
  - rewrite !bind_app, in_loop_bind by done. cbn. by rewrite Hsize.
Qed.

Lemma bag_stores_bag_size_other mode bag f :
  mode ≠ MODE_MEAN → stores_of mode bag f ≫= bag_size_store = [].
Proof.
  intros Hmode. unfold bag_stores. cbv zeta.
  rewrite (decide_False (P := mode = MODE_MEAN)) by done.
  rewrite !bind_app, in_loop_bind by done. cbn.
  repeat case_decide; done.
Qed.

Lemma in_loop_offset2bag mode bag f (l : list Z) :
  (if decide (f = 0) then (λ emb, St_offset2bag (T := T) emb bag) <$> l else [])
  ≫= offset2bag_store mode
  = if decide (f = 0) then (λ emb, (emb, bag)) <$> l else [].
Proof.
  case_decide; [|done]. induction l as [|emb l IH]; [done|]. cbn. by f_equal.
Qed.

Lemma out_stores_offset2bag mode i (v v' : T) (w : Z) :
  (if decide (mode = MODE_MEAN ∨ mode = MODE_SUM) then [St_output i v]
   else if decide (mode = MODE_MAX) then [St_max_indices_ptr i w; St_output i v']
   else []) ≫= offset2bag_store mode = [].
Proof. repeat case_decide; cbn; try done. by rewrite decide_True. Qed.

Lemma bag_stores_offset2bag mode bag f :
  stores_of mode bag f ≫= offset2bag_store mode
  = if decide (f = 0) then (λ emb, (emb, bag)) <$> for_each (lo bag) (hi bag)
    else [].
Proof.
  unfold bag_stores, bag_begin, bag_end. cbv zeta.
  destruct (decide (mode = MODE_MEAN)) as [Hm|Hm];
    [destruct (decide (_ = ld 0 offsets bag))|]; cbv beta iota;
    rewrite !bind_app, in_loop_offset2bag, out_stores_offset2bag;
    cbn; by rewrite app_nil_r.
Qed.

Lemma bag_stores_output_max bag f :
  stores_of MODE_MAX bag f ≫= output_store
  = [(bag * featureSize + f,
      if decide (hi bag = lo bag) then szero
      else weightFeatMax
             (fold_left
                (bag_step input weight (f * weight_stride1) weight_stide0
                   MODE_MAX psw psw_stride (lo bag))
                (for_each (lo bag) (hi bag)) (mkAcc szero uninit_max 0 (-1))))].
Proof.
  unfold bag_stores, bag_begin, bag_end. cbv zeta.
  rewrite (decide_False (P := MODE_MAX = MODE_MEAN)) by done.
  rewrite (decide_False (P := MODE_MAX = MODE_MEAN ∨ MODE_MAX = MODE_SUM))
    by (intros [?|?]; done).
  rewrite (decide_True (P := MODE_MAX = MODE_MAX)) by done.
  rewrite !bind_app, in_loop_bind by done. done.
Qed.

Lemma bag_stores_max_indices bag f :
  stores_of MODE_MAX bag f ≫= max_store
  = [(bag * featureSize + f,
      recorded uninit_max input offsets weight numIndices numBags weight_stide0
        weight_stride1 psw psw_stride bag f)].
Proof.
  unfold bag_stores, recorded, bag_begin, bag_end. cbv zeta.
  rewrite (decide_False (P := MODE_MAX = MODE_MEAN)) by done.
  rewrite (decide_False (P := MODE_MAX = MODE_MEAN ∨ MODE_MAX = MODE_SUM))
    by (intros [?|?]; done).
  rewrite (decide_True (P := MODE_MAX = MODE_MAX)) by done.
  rewrite !bind_app, in_loop_bind by done. done.
Qed.

End Modes.

(** The forward pass, buffer by buffer. *)
Section Host.
Variables (uninit : nat → Z) (uninit_s : nat → T).

Lemma forward_eq (weight : Tensor T) indices offsets
    (scale_grad_by_freq sparse : bool) (mode : Z)
    (per_sample_weights : option (Tensor T)) :
  forward_dtype (dtype weight) →
  per_sample_weights_ok (dtype weight) per_sample_weights →
  let numIndices := Z.of_nat (length indices) in
  let numBags := Z.of_nat (length offsets) in
  let featureSize := size1 weight in
  let stores :=
    updateOutput_stores uninit_max indices offsets (data weight) numIndices
      numBags featureSize (tstride0 weight) (tstride1 weight) mode
      (data <$> per_sample_weights)
      (match per_sample_weights with Some w => tstride0 w | None => 0 end) in
  ∃ max_indices,
    _embedding_bag_dpcpp uninit uninit_s uninit_max weight indices offsets
      scale_grad_by_freq mode sparse per_sample_weights
    = ([K_updateOutput],
       inr (mkTensor (dtype weight) numBags featureSize
              (contiguous_stride0 featureSize) 1
              (apply_writes (stores ≫= output_store)
                 (uninit_s <$> seq 0 (Z.to_nat (numBags * featureSize)))),
            apply_writes (stores ≫= offset2bag_store mode)
              (empty1 uninit numIndices),
            apply_writes (stores ≫= bag_size_store) (empty1 uninit numBags),
            max_indices))
    ∧ (mode ≠ MODE_MAX → max_indices = empty1 uninit (numBags * featureSize))
    ∧ (mode = MODE_MAX →
       max_indices
       = apply_writes (stores ≫= max_store)
           (empty1 uninit (numBags * featureSize))).
Proof.
  intros Hdt Hpsw. cbn zeta. unfold _embedding_bag_dpcpp.
  unfold IPEX_DISPATCH_FLOATING_TYPES_AND2.
  rewrite (decide_True (P := dtype weight = Float ∨ _)) by done.
  rewrite bind_mret.
  rewrite (data_ptr_ok weight) by done. rewrite bind_mret.
  rewrite data_ptr_ok by done. rewrite bind_mret.
  assert ((match per_sample_weights with
           | Some w => Some <$> data_ptr (dtype weight) w
           | None => mret None
           end) = mret (data <$> per_sample_weights)) as ->.
  { destruct per_sample_weights as [w|]; [|done]. cbn in Hpsw.
    by rewrite data_ptr_ok. }
  rewrite bind_mret. unfold EmbeddingBag_updateOutputKernel.
  rewrite (decide_True (P := MODE_MAX ≠ 0)) by done.
  host_run.
  rewrite fwd_output_fold, fwd_offset2bag_fold, fwd_bag_size_fold.
  cbn [fwd_output fwd_offset2bag fwd_bag_size empty2 set_data dtype size0 size1
       tstride0 tstride1 data].
  eexists. split; [reflexivity|]. split.
  - intros Hmode. rewrite decide_False by done.
    by rewrite fwd_max_indices_none.
  - intros ->. rewrite decide_True by done.
    by erewrite fwd_max_indices_some.
Qed.

End Host.
End Forward.
End ForwardFacts.

Import ForwardFacts.

Module ForwardTheorems.
Section Forward.
Context {T : Type} `{Scalar T}.
Variables (uninit : nat → Z) (uninit_s : nat → T) (uninit_max : T).

(** The output cell of a bag and feature, when the kernel stores one value
    per bag and feature. *)
Lemma output_cell (input offsets : list Z) (weight : list T)
    (numIndices numBags featureSize weight_stide0 weight_stride1 mode : Z)
    (psw : option (list T)) (psw_stride : Z) (val : Z → Z → T) bag f :
  0 < featureSize →
  (∀ bag f,
     bag_stores uninit_max input offsets weight numIndices numBags featureSize
       weight_stide0 weight_stride1 mode psw psw_stride bag f ≫= output_store
     = [(bag * featureSize + f, val bag f)]) →
  0 ≤ bag < numBags → 0 ≤ f < featureSize →
  ld szero
    (apply_writes
       (updateOutput_stores uninit_max input offsets weight numIndices numBags
          featureSize weight_stide0 weight_stride1 mode psw psw_stride
        ≫= output_store)
       (uninit_s <$> seq 0 (Z.to_nat (numBags * featureSize))))
    (bag * featureSize + f)
  = val bag f.
Proof.
  intros Hfs Hval Hbag Hf.
  apply (projected_cell uninit_max input offsets weight numIndices numBags
           featureSize weight_stide0 weight_stride1 mode psw psw_stride Hfs
           output_store (λ bag f, bag * featureSize + f) val).
  - intros bag' f' _ _. apply Hval.
  - rewrite length_fmap, length_seq. nia.
  - by exists bag, f.
  - intros bag' f' Hbag' Hf' Hidx.
    by destruct (cell_inj featureSize _ _ _ _ Hf' Hf Hidx) as [-> ->].
Qed.

(** X1: in sum mode the forward pass fills cell [(bag, f)] of the output with
    the weight values of the lookups of the bag, each times its per-sample
    weight when given, added up in the order of the lookups from zero (so the
    row of an empty bag is zero); it leaves [bag_size] and [max_indices] as
    they were allocated. *)
Theorem sum_pooling_forward (weight : Tensor T) (indices offsets : list Z)
    (scale_grad_by_freq sparse : bool) (per_sample_weights : option (Tensor T)) :
  forward_dtype (dtype weight) →
  per_sample_weights_ok (dtype weight) per_sample_weights →
  0 < size1 weight →
  let numIndices := Z.of_nat (length indices) in
  let numBags := Z.of_nat (length offsets) in
  let featureSize := size1 weight in
  ∃ output offset2bag,
    _embedding_bag_dpcpp uninit uninit_s uninit_max weight indices offsets
      scale_grad_by_freq MODE_SUM sparse per_sample_weights
    = ([K_updateOutput],
       inr (output, offset2bag, empty1 uninit numBags,
            empty1 uninit (numBags * featureSize)))
    ∧ (dtype output = dtype weight ∧ size0 output = numBags
       ∧ size1 output = featureSize)
    ∧ ∀ bag f, 0 ≤ bag < numBags → 0 ≤ f < featureSize →
        let lo := bag_begin offsets bag in
        let hi := bag_end offsets numIndices numBags bag in
        ld szero (data output) (bag * featureSize + f)
        = accumulate
            (pooled_term indices (data weight) (tstride0 weight)
               (tstride1 weight) (data <$> per_sample_weights)
               (match per_sample_weights with
                | Some w => tstride0 w | None => 0 end) f)
            lo hi
        ∧ (hi ≤ lo → ld szero (data output) (bag * featureSize + f) = szero).
Proof.
  intros Hdt Hpsw Hfs. cbn zeta.
  destruct (forward_eq uninit_max uninit uninit_s weight indices offsets
              scale_grad_by_freq sparse MODE_SUM per_sample_weights Hdt Hpsw)
    as (mi & Heq & Hmi & _).
  rewrite (Hmi ltac:(done)) in Heq.
  set (psw := data <$> per_sample_weights) in *.
  set (pstride := match per_sample_weights with
                  | Some w => tstride0 w | None => 0 end) in *.
  assert (Hbs : updateOutput_stores uninit_max indices offsets (data weight)
                  (Z.of_nat (length indices)) (Z.of_nat (length offsets))
                  (size1 weight) (tstride0 weight) (tstride1 weight) MODE_SUM
                  psw pstride ≫= bag_size_store = []).
  { apply projected_nil; [done|]. intros bag f.
    by apply bag_stores_bag_size_other. }
  rewrite Hbs in Heq. eexists _, _. split; [exact Heq|]. split; [done|].
  intros bag f Hbag Hf. cbn [data].
  assert (Hcell : ld szero
            (apply_writes
               (updateOutput_stores uninit_max indices offsets (data weight)
                  (Z.of_nat (length indices)) (Z.of_nat (length offsets))
                  (size1 weight) (tstride0 weight) (tstride1 weight) MODE_SUM
                  psw pstride ≫= output_store)
               (uninit_s <$> seq 0 (Z.to_nat (Z.of_nat (length offsets) * size1 weight))))
            (bag * size1 weight + f)
          = accumulate
              (pooled_term indices (data weight) (tstride0 weight)
                 (tstride1 weight) psw pstride f)
              (bag_begin offsets bag)
              (bag_end offsets (Z.of_nat (length indices))
                 (Z.of_nat (length offsets)) bag)).
  { apply (projected_cell uninit_max indices offsets (data weight) _ _ _ _ _
             MODE_SUM psw pstride Hfs output_store
             (λ bag f, bag * size1 weight + f)
             (λ bag f, accumulate
                (pooled_term indices (data weight) (tstride0 weight)
                   (tstride1 weight) psw pstride f)
                (bag_begin offsets bag)
                (bag_end offsets (Z.of_nat (length indices))
                   (Z.of_nat (length offsets)) bag))).
    - intros bag' f' _ _. apply bag_stores_output_sum.
    - rewrite length_fmap, length_seq. nia.
    - by exists bag, f.
    - intros bag' f' Hbag' Hf' Hidx.
      by destruct (cell_inj (size1 weight) _ _ _ _ Hf' Hf Hidx) as [-> ->]. }
  split; [exact Hcell|]. intros Hle. rewrite Hcell. by apply accumulate_empty.
Qed.

(** X2: in mean mode the forward pass records in [bag_size] the number of
    lookups of every bag, and fills cell [(bag, f)] of the output with the
    sum of the bag's weight values divided by that number; for an empty bag
    it stores size 0 and a zero row and does not divide.  [max_indices] is
    left as it was allocated. *)
Theorem mean_pooling_forward (weight : Tensor T) (indices offsets : list Z)
    (scale_grad_by_freq sparse : bool) (per_sample_weights : option (Tensor T)) :
  forward_dtype (dtype weight) →
  per_sample_weights_ok (dtype weight) per_sample_weights →
  0 < size1 weight →
  let numIndices := Z.of_nat (length indices) in
  let numBags := Z.of_nat (length offsets) in
  let featureSize := size1 weight in
  ∃ output offset2bag bag_size,
    _embedding_bag_dpcpp uninit uninit_s uninit_max weight indices offsets
      scale_grad_by_freq MODE_MEAN sparse per_sample_weights
    = ([K_updateOutput],
       inr (output, offset2bag, bag_size, empty1 uninit (numBags * featureSize)))
    ∧ ∀ bag, 0 ≤ bag < numBags →
        let lo := bag_begin offsets bag in
        let hi := bag_end offsets numIndices numBags bag in
        ld 0 bag_size bag = Z.max 0 (hi - lo)
        ∧ ∀ f, 0 ≤ f < featureSize →
            (hi = lo → ld szero (data output) (bag * featureSize + f) = szero)
            ∧ (hi ≠ lo →
               ld szero (data output) (bag * featureSize + f)
               = sdiv
                   (accumulate
                      (pooled_term indices (data weight) (tstride0 weight)
                         (tstride1 weight) (data <$> per_sample_weights)
                         (match per_sample_weights with
                          | Some w => tstride0 w | None => 0 end) f)
                      lo hi)
                   (of_int (Z.max 0 (hi - lo)))).
Proof.
  intros Hdt Hpsw Hfs. cbn zeta.
  destruct (forward_eq uninit_max uninit uninit_s weight indices offsets
              scale_grad_by_freq sparse MODE_MEAN per_sample_weights Hdt Hpsw)
    as (mi & Heq & Hmi & _).
  rewrite (Hmi ltac:(done)) in Heq.
  set (psw := data <$> per_sample_weights) in *.
  set (pstride := match per_sample_weights with
                  | Some w => tstride0 w | None => 0 end) in *.
  eexists _, _, _. split; [exact Heq|].
  intros bag Hbag. split.
  - apply (projected_cell uninit_max indices offsets (data weight) _ _ _ _ _
             MODE_MEAN psw pstride Hfs bag_size_store (λ bag f, bag)
             (λ bag f, Z.max 0 (bag_end offsets (Z.of_nat (length indices))
                                  (Z.of_nat (length offsets)) bag
                                - bag_begin offsets bag))).
    + intros bag' f' _ _. apply bag_stores_bag_size_mean.
    + unfold empty1. rewrite length_fmap, length_seq. lia.
    + exists bag, 0. split; [done|]. split; [lia | done].
    + by intros bag' f' _ _ ->.
  - intros f Hf. cbn [data].
    rewrite (output_cell indices offsets (data weight) _ _ _ _ _ MODE_MEAN psw
               pstride
               (λ bag f,
                  if decide (bag_end offsets (Z.of_nat (length indices))
                               (Z.of_nat (length offsets)) bag
                             = bag_begin offsets bag) then szero
                  else sdiv
                         (accumulate
                            (pooled_term indices (data weight) (tstride0 weight)
                               (tstride1 weight) psw pstride f)
                            (bag_begin offsets bag)
                            (bag_end offsets (Z.of_nat (length indices))
                               (Z.of_nat (length offsets)) bag))
                         (of_int
                            (Z.max 0
                               (bag_end offsets (Z.of_nat (length indices))
                                  (Z.of_nat (length offsets)) bag
                                - bag_begin offsets bag)))) bag f Hfs);
      [|intros; apply bag_stores_output_mean|done..].
    split; intros Hhl; [by rewrite decide_True | by rewrite decide_False].
Qed.

(** The stores into [offset2bag]: position [emb] gets [bag] exactly when it
    lies in bag [bag]. *)
Lemma elem_of_offset2bag_stores (input offsets : list Z) (weight : list T)
    (numIndices numBags featureSize weight_stide0 weight_stride1 mode : Z)
    (psw : option (list T)) (psw_stride : Z) (w : Z * Z) :
  0 < featureSize →
  w ∈ updateOutput_stores uninit_max input offsets weight numIndices numBags
        featureSize weight_stide0 weight_stride1 mode psw psw_stride
      ≫= offset2bag_store mode
  ↔ ∃ bag, 0 ≤ bag < numBags
      ∧ w.2 = bag
      ∧ bag_begin offsets bag ≤ w.1 < bag_end offsets numIndices numBags bag.
Proof.
  intros Hfs. rewrite elem_of_projected by done. split.
  - intros (bag & f & Hbag & Hf & Hw).
    rewrite bag_stores_offset2bag in Hw. case_decide; [|by apply elem_of_nil in Hw].
    apply list_elem_of_fmap in Hw as (emb & -> & Hemb).
    apply elem_of_for_each in Hemb. by exists bag.
  - intros (bag & Hbag & Hw2 & Hw1). exists bag, 0.
    split; [done|]. split; [lia|].
    rewrite bag_stores_offset2bag, decide_True by done.
    apply list_elem_of_fmap. exists w.1. split; [by destruct w; cbn in *; subst|].
    by apply elem_of_for_each.
Qed.

(** A position that lies in one bag only holds that bag after the stores. *)
Lemma offset2bag_cell (input offsets : list Z) (weight : list T)
    (numBags featureSize weight_stide0 weight_stride1 mode : Z)
    (psw : option (list T)) (psw_stride : Z) bag emb :
  let numIndices := Z.of_nat (length input) in
  let inside bag emb :=
    bag_begin offsets bag ≤ emb < bag_end offsets numIndices numBags bag in
  0 < featureSize →
  0 ≤ bag < numBags → 0 ≤ emb < numIndices → inside bag emb →
  (∀ bag', 0 ≤ bag' < numBags → inside bag' emb → bag' = bag) →
  ld 0 (apply_writes
          (updateOutput_stores uninit_max input offsets weight numIndices
             numBags featureSize weight_stide0 weight_stride1 mode psw
             psw_stride ≫= offset2bag_store mode)
          (empty1 uninit numIndices)) emb
  = bag.
Proof.
  intros numIndices inside Hfs Hbag Hemb Hinside Huniq.
  apply ld_apply_writes_same.
  - unfold empty1. rewrite length_fmap, length_seq. lia.
  - exists (emb, bag). split; [|done].
    apply elem_of_offset2bag_stores; [done|]. by exists bag.
  - intros w Hw Hw1.
    apply elem_of_offset2bag_stores in Hw as (bag' & Hbag' & Hw2 & Hr); [|done].
    rewrite Hw2. apply Huniq; [done|]. unfold inside. by rewrite <- Hw1.
Qed.

(** X3: in every mode the forward pass records in [offset2bag], for every
    position of the index stream that lies in one bag only, that bag; a
    position that lies in no bag keeps what the buffer was allocated with. *)
Theorem forward_offset2bag (weight : Tensor T) (indices offsets : list Z)
    (scale_grad_by_freq sparse : bool) (mode : Z)
    (per_sample_weights : option (Tensor T)) :
  forward_dtype (dtype weight) →
  per_sample_weights_ok (dtype weight) per_sample_weights →
  0 < size1 weight →
  let numIndices := Z.of_nat (length indices) in
  let numBags := Z.of_nat (length offsets) in
  let inside bag emb :=
    bag_begin offsets bag ≤ emb < bag_end offsets numIndices numBags bag in
  ∃ output offset2bag bag_size max_indices,
    _embedding_bag_dpcpp uninit uninit_s uninit_max weight indices offsets
      scale_grad_by_freq mode sparse per_sample_weights
    = ([K_updateOutput], inr (output, offset2bag, bag_size, max_indices))
    ∧ length offset2bag = length indices
    ∧ (∀ bag emb, 0 ≤ bag < numBags → 0 ≤ emb < numIndices → inside bag emb →
         (∀ bag', 0 ≤ bag' < numBags → inside bag' emb → bag' = bag) →
         ld 0 offset2bag emb = bag)
    ∧ (∀ emb, (∀ bag, 0 ≤ bag < numBags → ¬ inside bag emb) →
         ld 0 offset2bag emb = ld 0 (empty1 uninit numIndices) emb).
Proof.
  intros Hdt Hpsw Hfs. cbn zeta.
  destruct (forward_eq uninit_max uninit uninit_s weight indices offsets
              scale_grad_by_freq sparse mode per_sample_weights Hdt Hpsw)
    as (mi & Heq & _).
  set (psw := data <$> per_sample_weights) in *.
  set (pstride := match per_sample_weights with
                  | Some w => tstride0 w | None => 0 end) in *.
  eexists _, _, _, _. split; [exact Heq|].
  split; [|split].
  - rewrite length_apply_writes. unfold empty1.
    rewrite length_fmap, length_seq. lia.
  - intros bag emb Hbag Hemb Hinside Huniq. by apply offset2bag_cell.
  - intros emb Hout. apply ld_apply_writes_other.
    intros w Hw Hw1.
    apply elem_of_offset2bag_stores in Hw as (bag & Hbag & _ & Hr); [|done].
    apply (Hout bag Hbag). by rewrite <- Hw1.
Qed.

End Forward.

Section ForwardMax.
Context {T : Type} {ST : Scalar T} {O : ScalarOrder T}.
Variables (uninit : nat → Z) (uninit_s : nat → T) (uninit_max : T).

(** X4: in max mode the forward pass fills cell [(bag, f)] of the output with
    the weight value of the lookup it records in [max_indices], the first
    one of the bag that attains the maximum; the row of an empty bag is
    zero. *)
Theorem max_pooling_output (weight : Tensor T) (indices offsets : list Z)
    (scale_grad_by_freq sparse : bool) (per_sample_weights : option (Tensor T)) :
  forward_dtype (dtype weight) →
  per_sample_weights_ok (dtype weight) per_sample_weights →
  0 < size1 weight →
  let numIndices := Z.of_nat (length indices) in
  let numBags := Z.of_nat (length offsets) in
  let featureSize := size1 weight in
  ∃ output offset2bag bag_size max_indices,
    _embedding_bag_dpcpp uninit uninit_s uninit_max weight indices offsets
      scale_grad_by_freq MODE_MAX sparse per_sample_weights
    = ([K_updateOutput], inr (output, offset2bag, bag_size, max_indices))
    ∧ bag_size = empty1 uninit numBags
    ∧ ∀ bag f, 0 ≤ bag < numBags → 0 ≤ f < featureSize →
        let lo := bag_begin offsets bag in
        let hi := bag_end offsets numIndices numBags bag in
        let W := lookup_value indices (data weight) (tstride0 weight)
                   (tstride1 weight) f in
        (hi = lo → ld szero (data output) (bag * featureSize + f) = szero)
        ∧ (lo < hi →
           ∃ e, first_argmax W lo hi e
              ∧ ld 0 max_indices (bag * featureSize + f) = ld 0 indices e
              ∧ ld szero (data output) (bag * featureSize + f) = W e).
Proof.
  intros Hdt Hpsw Hfs. cbn zeta.
  destruct (forward_eq uninit_max uninit uninit_s weight indices offsets
              scale_grad_by_freq sparse MODE_MAX per_sample_weights Hdt Hpsw)
    as (mi & Heq & _ & Hmi).
  rewrite (Hmi eq_refl) in Heq. clear Hmi mi.
  set (psw := data <$> per_sample_weights) in *.
  set (pstride := match per_sample_weights with
                  | Some w => tstride0 w | None => 0 end) in *.
  rewrite (projected_nil uninit_max indices offsets (data weight) _ _ _ _ _
             MODE_MAX psw pstride Hfs bag_size_store) in Heq
    by (intros; by apply bag_stores_bag_size_other).
  eexists _, _, _, _. split; [exact Heq|]. split; [done|].
  intros bag f Hbag Hf. cbn [data].
  rewrite (output_cell uninit_s uninit_max indices offsets (data weight) _ _ _ _ _
             MODE_MAX psw pstride _ bag f Hfs
             (bag_stores_output_max uninit_max indices offsets (data weight) _ _ _
                _ _ psw pstride) Hbag Hf).
  rewrite (projected_cell uninit_max indices offsets (data weight) _ _ _ _ _
             MODE_MAX psw pstride Hfs max_store
             (λ bag f, bag * size1 weight + f)
             (recorded uninit_max indices offsets (data weight)
                (Z.of_nat (length indices)) (Z.of_nat (length offsets))
                (tstride0 weight) (tstride1 weight) psw pstride)
             0 _ (bag * size1 weight + f)
             (recorded uninit_max indices offsets (data weight)
                (Z.of_nat (length indices)) (Z.of_nat (length offsets))
                (tstride0 weight) (tstride1 weight) psw pstride bag f)).
  2: { intros bag' f' _ _. apply bag_stores_max_indices. }
  2: { unfold empty1. rewrite length_fmap, length_seq. nia. }
  2: { by exists bag, f. }
  2: { intros bag' f' Hbag' Hf' Hidx.
       by destruct (cell_inj (size1 weight) _ _ _ _ Hf' Hf Hidx) as [-> ->]. }
  split.
  - intros Heq'. by rewrite decide_True.
  - intros Hlt. rewrite decide_False by lia. unfold recorded, for_each.
    destruct (bag_loop_max uninit_max indices (data weight) (f * tstride1 weight)
                (tstride0 weight) psw pstride (bag_begin offsets bag)
                (Z.to_nat (bag_end offsets (Z.of_nat (length indices))
                             (Z.of_nat (length offsets)) bag
                           - bag_begin offsets bag - 1)))
      as (e & He & Hword & Hval).
    replace (Z.of_nat (S (Z.to_nat (bag_end offsets (Z.of_nat (length indices))
                                      (Z.of_nat (length offsets)) bag
                                    - bag_begin offsets bag - 1))))
      with (bag_end offsets (Z.of_nat (length indices))
              (Z.of_nat (length offsets)) bag - bag_begin offsets bag)
      in * by lia.
    replace (bag_begin offsets bag
             + (bag_end offsets (Z.of_nat (length indices))
                  (Z.of_nat (length offsets)) bag - bag_begin offsets bag))
      with (bag_end offsets (Z.of_nat (length indices))
              (Z.of_nat (length offsets)) bag) in He by lia.
    exists e. split; [exact He|]. split; [exact Hword | exact Hval].
Qed.

End ForwardMax.
End ForwardTheorems.

Import ReduceFacts.

(** ** The logical reductions on inputs with elements *)
Module LogicalFacts.
Import Reduce ReduceOpLogical MinMaxTerms LogicalTerms.

Lemma to_bool_of_bool b : to_bool (of_bool b) = b.
Proof. by destruct b. Qed.

Lemma all_true_Permutation l l' : l ≡ₚ l' → all_true l = all_true l'.
Proof.
  unfold all_true.
  induction 1 as [|x l l' _ IH|x y l|l1 l2 l3 _ IH1 _ IH2]; cbn.
  - done.
  - by rewrite IH.
  - by destruct (to_bool x), (to_bool y).
  - by rewrite IH1.
Qed.

Lemma any_true_Permutation l l' : l ≡ₚ l' → any_true l = any_true l'.
Proof.
  unfold any_true.
  induction 1 as [|x l l' _ IH|x y l|l1 l2 l3 _ IH1 _ IH2]; cbn.
  - done.
  - by rewrite IH.
  - by destruct (to_bool x), (to_bool y).
  - by rewrite IH1.
Qed.

Lemma run_and (p : plan Z) :
  run (op_reduce (func_wrapper ReduceAndOps)) (op_combine (func_wrapper ReduceAndOps))
    (of_bool true) p
  = of_bool (all_true (elements p)).
Proof.
  unfold all_true. induction p as [|p IH idx x|p IHp q IHq]; cbn in *.
  - done.
  - rewrite IH. unfold ReduceAndOps. rewrite to_bool_of_bool, forallb_app. cbn.
    by rewrite andb_true_r.
  - rewrite IHp, IHq. unfold ReduceAndOps.
    by rewrite !to_bool_of_bool, forallb_app.
Qed.

Lemma run_or (p : plan Z) :
  run (op_reduce (func_wrapper ReduceOrOps)) (op_combine (func_wrapper ReduceOrOps))
    (of_bool false) p
  = of_bool (any_true (elements p)).
Proof.
  unfold any_true. induction p as [|p IH idx x|p IHp q IHq]; cbn in *.
  - done.
  - rewrite IH. unfold ReduceOrOps. rewrite to_bool_of_bool, existsb_app. cbn.
    by rewrite orb_false_r.
  - rewrite IHp, IHq. unfold ReduceOrOps.
    by rewrite !to_bool_of_bool, existsb_app.
Qed.

Lemma logical_dispatch_ok dt name :
  IPEX_DISPATCH_ALL_TYPES_AND_COMPLEX_AND3 Half BFloat16 Bool dt name = mret dt.
Proof.
  unfold IPEX_DISPATCH_ALL_TYPES_AND_COMPLEX_AND3.
  rewrite decide_True; [done|]. destruct dt; rewrite !elem_of_cons; auto 20.
Qed.

Section Logical.
Variable schedule : list Z → plan Z.
Hypothesis Hfeeds : feeds_all schedule.

Lemma and_kernel_eq iter :
  and_kernel schedule iter = (λ slice, of_bool (all_true slice)) <$> iter_slices iter.
Proof.
  unfold and_kernel. apply list_fmap_ext. intros _ slice _.
  unfold dpcpp_reduce_kernel. cbn [op_project func_wrapper].
  rewrite run_and. f_equal. apply all_true_Permutation, Hfeeds.
Qed.

Lemma or_kernel_eq iter :
  or_kernel schedule iter = (λ slice, of_bool (any_true slice)) <$> iter_slices iter.
Proof.
  unfold or_kernel. apply list_fmap_ext. intros _ slice _.
  unfold dpcpp_reduce_kernel. cbn [op_project func_wrapper].
  rewrite run_or. f_equal. apply any_true_Permutation, Hfeeds.
Qed.

(** X5: on an iterator with elements [_all] submits one reduction kernel and
    returns, for every cell of the result, 1 when all the elements reduced
    into it are non-zero and 0 otherwise, whatever the order in which the
    framework reduces them; hence [all] of a tensor, empty or not, is 1
    exactly when every element is non-zero. *)
Theorem all_reduction (result : list Z) (iter : TensorIterator) :
  numel iter ≠ 0 →
  _all schedule result iter
  = ([K_reduce_and],
     inr ((λ slice, of_bool (all_true slice)) <$> iter_slices iter))
  ∧ ∀ junk dt self,
      outcome (all schedule junk dt self) = inr [of_bool (all_true self)]
      ∧ (ld 0 [of_bool (all_true self)] 0 = 1 ↔ ∀ x, x ∈ self → x ≠ 0).
Proof.
  intros Hnumel. split.
  - unfold _all. rewrite decide_False by done.
    rewrite logical_dispatch_ok. host_run. by rewrite and_kernel_eq.
  - intros junk dt self. split.
    + unfold all, _all. case_decide as Hn.
      * destruct self; [done|]. unfold numel in Hn. cbn in Hn. lia.
      * rewrite logical_dispatch_ok. host_run. by rewrite and_kernel_eq.
    + cbn. unfold all_true. destruct (forallb to_bool self) eqn:Hall; cbn.
      * split; [intros _|done]. intros x Hx ->.
        rewrite forallb_forall in Hall. apply list_elem_of_In in Hx.
        by specialize (Hall 0 Hx).
      * split; [done|]. intros Hne. exfalso.
        assert (forallb to_bool self = true); [|congruence].
        apply forallb_forall. intros x Hx. apply list_elem_of_In in Hx.
        unfold to_bool. apply negb_true_iff, Z.eqb_neq. by apply Hne.
Qed.

(** X6: on an iterator with elements [_any] submits one reduction kernel and
    returns, for every cell of the result, 1 when some element reduced into
    it is non-zero and 0 otherwise, whatever the order in which the framework
    reduces them; hence [any] of a tensor, empty or not, is 1 exactly when
    some element is non-zero. *)
Theorem any_reduction (result : list Z) (iter : TensorIterator) :
  numel iter ≠ 0 →
  _any schedule result iter
  = ([K_reduce_or],
     inr ((λ slice, of_bool (any_true slice)) <$> iter_slices iter))
  ∧ ∀ junk dt self,
      outcome (any schedule junk dt self) = inr [of_bool (any_true self)]
      ∧ (ld 0 [of_bool (any_true self)] 0 = 1 ↔ ∃ x, x ∈ self ∧ x ≠ 0).
Proof.
  intros Hnumel. split.
  - unfold _any. rewrite decide_False by done.
    rewrite logical_dispatch_ok. host_run. by rewrite or_kernel_eq.
  - intros junk dt self. split.
    + unfold any, _any. case_decide as Hn.
      * destruct self; [done|]. unfold numel in Hn. cbn in Hn. lia.
      * rewrite logical_dispatch_ok. host_run. by rewrite or_kernel_eq.
    + cbn. unfold any_true. destruct (existsb to_bool self) eqn:Hany; cbn.
      * split; [intros _|done].
        apply existsb_exists in Hany as (x & Hx & Hb). exists x.
        split; [by apply list_elem_of_In|].
        unfold to_bool in Hb. by apply negb_true_iff, Z.eqb_neq in Hb.
      * split; [done|]. intros (x & Hx & Hne). exfalso.
        assert (existsb to_bool self = true); [|congruence].
        apply existsb_exists. exists x. split; [by apply list_elem_of_In|].
        unfold to_bool. by apply negb_true_iff, Z.eqb_neq.
Qed.

End Logical.
End LogicalFacts.

(** ** The min/max reduction on integers and its checks *)
Module AminmaxFacts.
Import Reduce ReduceOpAminmax MinMaxTerms.

Lemma combine_Z (a b : Z * Z) :
  combine a b = (Z.min a.1 b.1, Z.max a.2 b.2).
Proof.
  unfold combine. cbn. f_equal.
  - destruct (Z.ltb_spec a.1 b.1); lia.
  - rewrite Z.gtb_ltb. destruct (Z.ltb_spec b.2 a.2); lia.
Qed.

Lemma reduce_Z (a : Z * Z) (y idx : Z) :
  reduce a y idx = (Z.min a.1 y, Z.max a.2 y).
Proof. unfold reduce. by rewrite combine_Z. Qed.

(** The pair a plan computes: a lower and an upper bound of its elements,
    each one of them or the identity. *)
Lemma run_Z_bounds (M L : Z) (p : plan Z) :
  let r := run reduce combine (M, L) p in
  (r.1 ≤ M ∧ (∀ x, x ∈ elements p → r.1 ≤ x)
   ∧ (r.1 = M ∨ r.1 ∈ elements p))
  ∧ (L ≤ r.2 ∧ (∀ x, x ∈ elements p → x ≤ r.2)
     ∧ (r.2 = L ∨ r.2 ∈ elements p)).
Proof.
  cbn zeta. induction p as [|p IH idx y|p IHp q IHq]; cbn [run elements].
  - cbn. split; (split; [lia|]); (split; [|by left]);
      intros x Hx; by apply elem_of_nil in Hx.
  - rewrite !reduce_Z. cbn [fst snd].
    destruct IH as [(Hle & Hlb & Hin) (Hge & Hub & Hin')]. split.
    + split; [lia|]. split.
      * intros x Hx. apply elem_of_app in Hx as [Hx|Hx].
        -- specialize (Hlb x Hx). lia.
        -- apply list_elem_of_singleton in Hx as ->. lia.
      * destruct (Z.min_spec (run reduce combine (M, L) p).1 y)
          as [[_ ->]|[_ ->]].
        -- destruct Hin as [?|Hin]; [by left|]. right. apply elem_of_app. by left.
        -- right. apply elem_of_app. right. by apply list_elem_of_singleton.
    + split; [lia|]. split.
      * intros x Hx. apply elem_of_app in Hx as [Hx|Hx].
        -- specialize (Hub x Hx). lia.
        -- apply list_elem_of_singleton in Hx as ->. lia.
      * destruct (Z.max_spec (run reduce combine (M, L) p).2 y)
          as [[_ ->]|[_ ->]].
        -- right. apply elem_of_app. right. by apply list_elem_of_singleton.
        -- destruct Hin' as [?|Hin']; [by left|]. right. apply elem_of_app. by left.
  - rewrite !combine_Z. cbn [fst snd].
    destruct IHp as [(Hle & Hlb & Hin) (Hge & Hub & Hin')].
    destruct IHq as [(Hle2 & Hlb2 & Hin2) (Hge2 & Hub2 & Hin2')]. split.
    + split; [lia|]. split.
      * intros x Hx. apply elem_of_app in Hx as [Hx|Hx].
        -- specialize (Hlb x Hx). lia.
        -- specialize (Hlb2 x Hx). lia.
      * destruct (Z.min_spec (run reduce combine (M, L) p).1
                    (run reduce combine (M, L) q).1)
          as [[_ ->]|[_ ->]].
        -- destruct Hin as [?|Hin]; [by left|]. right. apply elem_of_app. by left.
        -- destruct Hin2 as [?|Hin2]; [by left|]. right. apply elem_of_app. by right.
    + split; [lia|]. split.
      * intros x Hx. apply elem_of_app in Hx as [Hx|Hx].
        -- specialize (Hub x Hx). lia.
        -- specialize (Hub2 x Hx). lia.
      * destruct (Z.max_spec (run reduce combine (M, L) p).2
                    (run reduce combine (M, L) q).2)
          as [[_ ->]|[_ ->]].
        -- destruct Hin2' as [?|Hin2']; [by left|]. right. apply elem_of_app. by right.
        -- destruct Hin' as [?|Hin']; [by left|]. right. apply elem_of_app. by left.
Qed.

Section Integers.
Variable schedule : list Z → plan Z.
Hypothesis Hfeeds : feeds_all schedule.

(** X7: on a 64-bit integer tensor with elements, [_aminmax] submits one
    reduction kernel and returns the least and the greatest element,
    whatever the order in which the framework reduces the elements and
    combines the partial results. *)
Theorem aminmax_integers (self : list Z) :
  self ≠ [] →
  (∀ x, x ∈ self → numeric_lowest ≤ x ≤ numeric_max) →
  ∃ mn mx,
    _aminmax schedule Long self = ([K_reduce_minmax], inr (mn, mx))
    ∧ mn ∈ self ∧ mx ∈ self
    ∧ ∀ x, x ∈ self → mn ≤ x ≤ mx.
Proof.
  intros Hne Hrange. unfold _aminmax, is_complex.
  rewrite bool_decide_eq_false_2 by (intros [?|?]; done).
  rewrite decide_False by (by destruct self).
  unfold aminmax_kernel, IPEX_DISPATCH_ALL_TYPES_AND2.
  rewrite decide_True by (rewrite !elem_of_cons; auto 10). host_run.
  unfold _min_max_values_kernel_dpcpp_impl, dpcpp_reduce_kernel.
  cbn [op_project op_reduce op_combine MinMaxOps]. unfold project.
  pose proof (run_Z_bounds numeric_max numeric_lowest (schedule self)) as Hrun. cbn zeta in Hrun.
  destruct (run reduce combine (numeric_max, numeric_lowest) (schedule self))
    as [mn mx] eqn:Hr.
  cbn [fst snd] in Hrun.
  destruct Hrun as [(Hle & Hlb & Hin) (Hge & Hub & Hin')].
  assert (Hel : ∀ x, x ∈ elements (schedule self) ↔ x ∈ self)
    by (intros x; by rewrite (Hfeeds self)).
  destruct self as [|x0 self']; [done|].
  assert (Hx0 : x0 ∈ x0 :: self') by (by left).
  exists mn, mx. split; [done|]. split; [|split].
  - destruct Hin as [->|Hin]; [|by apply Hel].
    pose proof (Hlb x0 (proj2 (Hel x0) Hx0)). pose proof (Hrange x0 Hx0).
    by replace numeric_max with x0 by lia.
  - destruct Hin' as [->|Hin']; [|by apply Hel].
    pose proof (Hub x0 (proj2 (Hel x0) Hx0)). pose proof (Hrange x0 Hx0).
    by replace numeric_lowest with x0 by lia.
  - intros x Hx. apply Hel in Hx. split; [by apply Hlb | by apply Hub].
Qed.

End Integers.

Section Checks.
Context {T : Type} `{Numerics T}.
Variable schedule : list T → plan T.

(** X8: [_aminmax] refuses a complex tensor first and an empty tensor next,
    each with its own check error, and the dispatch refuses [Bool]; none of
    the three submits a kernel.  For every other element type and an input
    with elements it submits exactly one reduction kernel and returns. *)
Theorem aminmax_checks (dt : ScalarType) (self : list T) :
  let call := _aminmax schedule dt self in
  (dt = ComplexFloat ∨ dt = ComplexDouble →
     call = ([], inl (TorchCheck "max is not yet implemented for complex tensors." 0)))
  ∧ (dt ≠ ComplexFloat → dt ≠ ComplexDouble → self = [] →
     call = ([], inl (TorchCheck "operation does not have an identity." 0)))
  ∧ (dt = Bool → self ≠ [] →
     call = ([], inl (NotImplemented "aminmax_elementwise_dpcpp" Bool)))
  ∧ (aminmax_dtype dt → self ≠ [] →
     ∃ r, call = ([K_reduce_minmax], inr r)).
Proof.
  cbn zeta. unfold _aminmax, is_complex. split; [|split; [|split]].
  - intros Hc. by rewrite bool_decide_eq_true_2.
  - intros H1 H2 ->. rewrite bool_decide_eq_false_2 by (intros [?|?]; done).
    by rewrite decide_True.
  - intros -> Hne. rewrite bool_decide_eq_false_2 by (intros [?|?]; done).
    rewrite decide_False by (by destruct self).
    unfold aminmax_kernel, IPEX_DISPATCH_ALL_TYPES_AND2.
    rewrite decide_False; [done|]. rewrite !elem_of_cons, elem_of_nil.
    intros Hin. repeat (destruct Hin as [?|Hin]; [done|]). done.
  - intros Hdt Hne.
    assert (dt ≠ ComplexFloat ∧ dt ≠ ComplexDouble) as [H1 H2].
    { unfold aminmax_dtype in Hdt. rewrite !elem_of_cons, elem_of_nil in Hdt.
      split; intros ->; repeat (destruct Hdt as [?|Hdt]; [done|]); done. }
    rewrite bool_decide_eq_false_2 by (intros [?|?]; done).
    rewrite decide_False by (by destruct self).
    unfold aminmax_kernel, IPEX_DISPATCH_ALL_TYPES_AND2.
    rewrite decide_True by done. host_run. eexists. reflexivity.
Qed.

End Checks.
End AminmaxFacts.

(** ** The occurrence counts of the sorted indices *)
Module FrequencyFacts.
Import PSTL EmbeddingBag.

(** *** The segmented scan, position by position *)
Section Scan.
Variables (eqk : Z → Z → bool) (op : Z → Z → Z).

Lemma length_scan_from k0 acc kvs :
  length (inclusive_scan_by_segment_from eqk op k0 acc kvs) = length kvs.
Proof.
  revert k0 acc. induction kvs as [|[k v] kvs IH]; intros k0 acc; [done|].
  cbn. by rewrite IH.
Qed.

Lemma scan_from_head k0 acc k v kvs :
  inclusive_scan_by_segment_from eqk op k0 acc ((k, v) :: kvs) !! 0%nat
  = Some (if eqk k0 k then op acc v else v).
Proof. done. Qed.

Lemma scan_from_step k0 acc kvs (i : nat) ki vi k' v' o :
  kvs !! i = Some (ki, vi) → kvs !! S i = Some (k', v') →
  inclusive_scan_by_segment_from eqk op k0 acc kvs !! i = Some o →
  inclusive_scan_by_segment_from eqk op k0 acc kvs !! S i
  = Some (if eqk ki k' then op o v' else v').
Proof.
  revert k0 acc i. induction kvs as [|[k v] kvs IH]; intros k0 acc i Hi Hi' Ho.
  { done. }
  destruct i as [|i].
  - cbn in Hi, Hi', Ho. injection Hi as -> ->. injection Ho as <-.
    destruct kvs as [|[k1 v1] kvs]; [done|]. cbn in Hi'. injection Hi' as -> ->.
    done.
  - cbn in Hi, Hi', Ho |- *. by eapply IH.
Qed.

Lemma length_scan keys vals :
  length keys = length vals →
  length (inclusive_scan_by_segment eqk op keys vals) = length keys.
Proof.
  intros Hlen. unfold inclusive_scan_by_segment.
  destruct keys as [|k keys], vals as [|v vals]; try done.
  cbn. rewrite length_scan_from, length_zip_with. cbn in Hlen. lia.
Qed.

Lemma scan_head keys vals v :
  keys ≠ [] → vals !! 0%nat = Some v →
  inclusive_scan_by_segment eqk op keys vals !! 0%nat = Some v.
Proof.
  intros Hne Hv. destruct keys as [|k keys]; [done|].
  destruct vals as [|v' vals]; [done|]. cbn in Hv. by injection Hv as ->.
Qed.

Lemma scan_step keys vals (i : nat) ki k' v' o :
  keys !! i = Some ki → keys !! S i = Some k' → vals !! S i = Some v' →
  inclusive_scan_by_segment eqk op keys vals !! i = Some o →
  inclusive_scan_by_segment eqk op keys vals !! S i
  = Some (if eqk ki k' then op o v' else v').
Proof.
  intros Hi Hi' Hv' Ho. unfold inclusive_scan_by_segment in *.
  destruct keys as [|k keys]; [done|]. destruct vals as [|v vals]; [done|].
  cbn [zip zip_with] in *. cbn in Hi', Hv'.
  destruct i as [|i].
  - cbn in Hi, Ho. injection Hi as ->. injection Ho as <-.
    destruct keys as [|k1 keys]; [done|]. destruct vals as [|v1 vals]; [done|].
    cbn in Hi', Hv'. injection Hi' as ->. injection Hv' as ->. done.
  - cbn in Hi, Ho |- *.
    assert (is_Some (vals !! i)) as [vi Hvi].
    { apply lookup_lt_is_Some. apply lookup_lt_Some in Hv'. lia. }
    eapply (scan_from_step _ _ _ i ki vi k' v'); [| |done].
    + apply lookup_zip_with_Some. by exists ki, vi.
    + apply lookup_zip_with_Some. by exists k', v'.
Qed.

End Scan.

(** *** Sorted streams *)

Lemma Sorted_app_le (l1 l2 : list Z) a b :
  Sorted Z.le (l1 ++ l2) → a ∈ l1 → b ∈ l2 → a ≤ b.
Proof.
  intros Hs Ha Hb. apply Sorted_StronglySorted in Hs; [|intros ???; lia].
  induction l1 as [|x l1 IH]; [by apply elem_of_nil in Ha|].
  cbn in Hs. apply StronglySorted_inv in Hs as [Hs Hall].
  apply elem_of_cons in Ha as [->|Ha]; [|by apply IH].
  rewrite Forall_forall in Hall. apply Hall, elem_of_app. by right.
Qed.

Lemma Sorted_lookup_le (l : list Z) (i j : nat) a b :
  Sorted Z.le l → l !! i = Some a → l !! j = Some b → (i ≤ j)%nat → a ≤ b.
Proof.
  intros Hs Hi Hj Hij. destruct (decide (i = j)) as [->|Hne].
  { rewrite Hi in Hj. injection Hj as ->. lia. }
  rewrite <- (take_drop j l) in Hs. apply (Sorted_app_le _ _ a b Hs).
  - apply (list_elem_of_lookup_2 _ i). rewrite lookup_take_lt by lia. done.
  - apply (list_elem_of_lookup_2 _ 0%nat). by rewrite lookup_drop, Nat.add_0_r.
Qed.

Section Counts.
Variable l : list Z.
Hypothesis Hsorted : Sorted Z.le l.

Let c := inclusive_scan_by_segment Z.eqb Z.add l (replicate (length l) 1).
Let d := inclusive_scan_by_segment Z.eqb Z.max (reverse l) (reverse c).

Lemma length_c : length c = length l.
Proof. unfold c. apply length_scan. by rewrite length_replicate. Qed.

Lemma length_d : length d = length l.
Proof.
  unfold d. rewrite length_scan; rewrite !length_reverse; [done|].
  by rewrite length_c.
Qed.

Lemma filter_take_none (p : nat) y x :
  l !! p = Some y → y < x → filter (λ a, a = x) (take (S p) l) = [].
Proof.
  intros Hy Hlt. apply elem_of_nil_inv. intros a Ha.
  apply list_elem_of_filter in Ha as [-> Ha].
  apply list_elem_of_lookup_1 in Ha as [i Hi].
  pose proof (lookup_lt_Some _ _ _ Hi) as Hil. rewrite length_take in Hil.
  rewrite lookup_take_lt in Hi by lia.
  pose proof (Sorted_lookup_le l i p x y Hsorted Hi Hy ltac:(lia)). lia.
Qed.

Lemma filter_drop_none (p : nat) y x :
  l !! p = Some y → x < y → filter (λ a, a = x) (drop p l) = [].
Proof.
  intros Hy Hlt. apply elem_of_nil_inv. intros a Ha.
  apply list_elem_of_filter in Ha as [-> Ha].
  apply list_elem_of_lookup_1 in Ha as [i Hi]. rewrite lookup_drop in Hi.
  pose proof (Sorted_lookup_le l p (p + i) y x Hsorted Hy Hi ltac:(lia)). lia.
Qed.

(** After the first scan: the occurrences up to the position. *)
Lemma c_spec (p : nat) x :
  l !! p = Some x →
  c !! p = Some (Z.of_nat (length (filter (λ a, a = x) (take (S p) l)))).
Proof.
  revert x. induction p as [|p IH]; intros x Hx.
  - unfold c. rewrite (scan_head Z.eqb Z.add l (replicate (length l) 1) 1).
    + destruct l as [|x' l']; [done|]. cbn in Hx. injection Hx as ->.
      change (take 1 (x :: l')) with [x].
      by rewrite (filter_cons_True (λ a, a = x)), filter_nil by done.
    + by destruct l.
    + apply lookup_replicate_2. destruct l; [done | cbn; lia].
  - assert (is_Some (l !! p)) as [y Hy].
    { apply lookup_lt_is_Some. apply lookup_lt_Some in Hx. lia. }
    specialize (IH y Hy).
    unfold c in IH |- *.
    erewrite (scan_step Z.eqb Z.add l _ p y x 1); [|done..| |done].
    2: { apply lookup_replicate_2. by apply lookup_lt_Some in Hx. }
    f_equal. rewrite (take_S_r l (S p) x Hx), filter_app.
    rewrite (filter_cons_True _ x) by done. rewrite filter_nil, length_app. cbn.
    destruct (Z.eqb_spec y x) as [->|Hne]; [lia|].
    pose proof (Sorted_lookup_le l p (S p) y x Hsorted Hy Hx ltac:(lia)).
    rewrite (filter_take_none p y x Hy) by lia. done.
Qed.

Lemma count_take_le (m : nat) x :
  (length (filter (λ a, a = x) (take m l)) ≤ length (filter (λ a, a = x) l))%nat.
Proof.
  rewrite <- (take_drop m l) at 2. rewrite filter_app, length_app. lia.
Qed.

(** After the second scan, read from the end: all the occurrences. *)
Lemma d_spec (i : nat) x :
  reverse l !! i = Some x →
  d !! i = Some (Frequency.occurrences l x).
Proof.
  unfold Frequency.occurrences.
  revert x. induction i as [|i IH]; intros x Hx.
  - pose proof (lookup_lt_Some _ _ _ Hx) as Hlt. rewrite length_reverse in Hlt.
    rewrite reverse_lookup in Hx by done.
    unfold d. erewrite scan_head; [done| |].
    { intros Hnil. apply (f_equal length) in Hnil.
      rewrite length_reverse in Hnil. cbn in Hnil. lia. }
    rewrite reverse_lookup by (rewrite length_c; lia). rewrite length_c.
    rewrite (c_spec _ x Hx). do 2 f_equal.
    replace (S (length l - 1)) with (length l) by lia. by rewrite firstn_all.
  - pose proof (lookup_lt_Some _ _ _ Hx) as Hlt. rewrite length_reverse in Hlt.
    assert (is_Some (reverse l !! i)) as [y Hy].
    { apply lookup_lt_is_Some. rewrite length_reverse. lia. }
    specialize (IH y Hy).
    rewrite reverse_lookup in Hx, Hy by lia.
    assert (Hc : reverse c !! S i
                 = Some (Z.of_nat (length (filter (λ a, a = x)
                                             (take (S (length l - S (S i))) l))))).
    { rewrite reverse_lookup by (rewrite length_c; lia). rewrite length_c.
      by apply c_spec. }
    unfold d in IH |- *.
    erewrite (scan_step Z.eqb Z.max (reverse l) _ i y x); [| | |done|done].
    2: { rewrite reverse_lookup by lia. done. }
    2: { rewrite reverse_lookup by lia. done. }
    f_equal.
    replace (length l - S i)%nat with (S (length l - S (S i))) in Hy by lia.
    set (p := (length l - S (S i))%nat) in *.
    destruct (Z.eqb_spec y x) as [->|Hne].
    + pose proof (count_take_le (S p) x). lia.
    + pose proof (Sorted_lookup_le l p (S p) x y Hsorted Hx Hy ltac:(lia)).
      rewrite <- (take_drop (S p) l) at 2. rewrite filter_app, length_app.
      rewrite (filter_drop_none (S p) y x Hy) by lia. cbn. lia.
Qed.

Lemma frequency_count_lookup (p : nat) x :
  l !! p = Some x →
  frequency_count l !! p = Some (Frequency.occurrences l x).
Proof.
  intros Hx. pose proof (lookup_lt_Some _ _ _ Hx) as Hlt.
  unfold frequency_count. cbv zeta. fold c. fold d.
  rewrite reverse_lookup by (rewrite length_d; lia). rewrite length_d.
  apply d_spec. rewrite reverse_lookup by lia.
  by replace (length l - S (length l - S p))%nat with p by lia.
Qed.

Lemma length_frequency_count : length (frequency_count l) = length l.
Proof.
  unfold frequency_count. cbv zeta. fold c. fold d.
  by rewrite length_reverse, length_d.
Qed.

End Counts.

Lemma frequency_count_ld (l : list Z) p :
  Sorted Z.le l →
  0 ≤ p < Z.of_nat (length l) →
  ld 0 (frequency_count l) p = Frequency.occurrences l (ld 0 l p).
Proof.
  intros Hsorted Hp.
  assert (is_Some (l !! Z.to_nat p)) as [x Hx]
    by (apply lookup_lt_is_Some; lia).
  rewrite (ld_lookup 0 l p x) by (done || lia).
  apply ld_lookup; [lia|]. by apply frequency_count_lookup.
Qed.

(** X9: for a sorted stream, the two segmented scans of the frequency
    scaling leave at every position the number of occurrences of the index
    at that position in the whole stream. *)
Theorem frequency_count_occurrences (sorted_indices : list Z) :
  Sorted Z.le sorted_indices →
  length (frequency_count sorted_indices) = length sorted_indices
  ∧ ∀ p, 0 ≤ p < Z.of_nat (length sorted_indices) →
      ld 0 (frequency_count sorted_indices) p
      = Frequency.occurrences sorted_indices (ld 0 sorted_indices p).
Proof.
  intros Hsorted. split; [by apply length_frequency_count|].
  intros p Hp. by apply frequency_count_ld.
Qed.

End FrequencyFacts.

Import FrequencyFacts Frequency Scaling.

(** ** The sum and mean backward with its scalings *)
Module ScaledBackwardTheorems.
Import EmbeddingBag ATen PSTL.

Section Scaled.
Context {T : Type} `{ScalarLaws T}.
Variables (wg : Z) (uninit : nat → Z) (uninit_s : nat → T).
Variable sort_by_key : list (Z * Z) → list (Z * Z).
Hypothesis Hwg : 0 < wg.
Hypothesis Hsort_perm : ∀ l, sort_by_key l ≡ₚ l.
Hypothesis Hsort_sorted : ∀ l, Sorted Z.le (sort_by_key l).*1.

(** The partial sums of a run without per-sample weights. *)
Lemma partial_sums_terms grad orig_indices count mode_mean offset2bag bag_size
    numel p j f :
  segmentation (partial_segment_offset p) (num_of_partial_segments p) numel →
  0 < size1 grad →
  numel * stride_warped_of wg (size1 grad) ≤ INT_MAX →
  num_of_partial_segments p ≤ numel →
  (∀ idx, 0 ≤ idx < numel → 0 ≤ ld 0 orig_indices idx < numel) →
  match offset2bag with
  | Some o => (∀ q, 0 ≤ q < numel → 0 ≤ ld 0 o q < size0 grad)
              ∧ size0 grad * size1 grad ≤ INT_MAX
  | None => True
  end →
  0 ≤ j < num_of_partial_segments p → 0 ≤ f < size1 grad →
  ld szero
    (partial_sums wg uninit_s grad orig_indices count numel (size1 grad)
       mode_mean offset2bag bag_size None p)
    (j * size1 grad + f)
  = accumulate
      (sorted_term orig_indices grad offset2bag count mode_mean bag_size f)
      (seg_begin (partial_segment_offset p) j)
      (seg_end (partial_segment_offset p) (num_of_partial_segments p) numel j).
Proof.
  intros Hpso Hs1 Hsmall Htot Horig Hbags Hj Hf.
  pose proof (stride_warped_bounds wg (size1 grad) Hwg Hs1) as [Hsw _].
  pose proof (seg_count _ _ _ Hpso) as Hn.
  assert (Hnumel : numel ≤ INT_MAX) by nia.
  unfold partial_sums, sorted_term.
  destruct offset2bag as [o|]; cbn [fmap option_fmap option_map].
  - destruct Hbags as [Ho Hrows].
    rewrite (compute_grad_weight_bags_fill wg (size1 grad) Hwg Hs1 _ _ _ _ numel);
      try done.
    + nia.
    + rewrite length_fmap, length_seq. nia.
    + intros idx Hidx. specialize (Horig idx Hidx). lia.
    + intros idx Hidx. specialize (Horig idx Hidx).
      specialize (Ho (ld 0 orig_indices idx) Horig). nia.
  - rewrite (compute_grad_weight_fill wg (size1 grad) Hwg Hs1 _ _ _ numel); try done.
    + nia.
    + rewrite length_fmap, length_seq. nia.
Qed.

Lemma occurrences_Permutation (l l' : list Z) x :
  l ≡ₚ l' → occurrences l x = occurrences l' x.
Proof. intros Hp. unfold occurrences. by rewrite Hp. Qed.

(** The cells of the sum and mean backward without per-sample weights. *)
Lemma sum_avg_cells (grad : Tensor T) (indices offsets : list Z)
    (offset2bag : option (list Z)) (bag_size : list Z) (num_weights : Z)
    (scale_grad_by_freq : bool) (mode : Z) :
  let N := Z.of_nat (length indices) in
  (∀ x, x ∈ indices → 0 ≤ x < num_weights) →
  0 < size1 grad →
  N * stride_warped_of wg (size1 grad) ≤ INT_MAX →
  backward_dtype (dtype grad) →
  match offset2bag with
  | Some o => (∀ q, 0 ≤ q < N → 0 ≤ ld 0 o q < size0 grad)
              ∧ size0 grad * size1 grad ≤ INT_MAX
  | None => True
  end →
  ∃ grad_weight,
    outcome (embedding_bag_backward_dpcpp_sum_avg wg true uninit uninit_s
               sort_by_key grad indices offsets offset2bag bag_size num_weights
               scale_grad_by_freq mode None) = inr grad_weight
    ∧ size0 grad_weight = num_weights
    ∧ size1 grad_weight = size1 grad
    ∧ ∀ r f, 0 ≤ r < num_weights → 0 ≤ f < size1 grad →
        ld szero (data grad_weight) (r * size1 grad + f)
        = ssum (contribution grad offset2bag bag_size
                  (bool_decide (mode = MODE_MEAN))
                  (freq_scale scale_grad_by_freq indices r) f
                <$> filter (λ q, ld 0 indices q = r) (seqZ 0 N)).
Proof.
  intros N Hidx Hs1 Hsmall Hdt Hbags.
  destruct (decide (indices = [])) as [Hnil|Hne].
  { subst indices. eexists. split; [reflexivity|].
    split; [done|]. split; [done|]. intros r f Hr Hf. cbn [data zeros].
    rewrite ld_replicate_default. done. }
  rewrite (SumAvgTheorems.sum_avg_unfold wg uninit uninit_s sort_by_key) by done.
  cbv zeta.
  set (zipped := sort_by_key (zip indices (iota (Z.of_nat (length indices)) 0))).
  set (sorted_indices := zipped.*1). set (orig_indices := zipped.*2).
  set (count := if scale_grad_by_freq then Some (frequency_count sorted_indices)
                else None).
  set (mode_mean := bool_decide (mode = MODE_MEAN)).
  assert (Hperm : zipped ≡ₚ zip indices (seqZ 0 N)) by apply Hsort_perm.
  pose proof (sorted_nonempty indices zipped Hperm Hne) as Hsne.
  pose proof (length_sorted indices zipped Hperm) as Hlen.
  fold sorted_indices N in Hsne, Hlen.
  assert (Hsorted : Sorted Z.le sorted_indices) by apply Hsort_sorted.
  destruct (BackwardTheorems.run_structure wg uninit uninit_s Hwg grad
              orig_indices sorted_indices count num_weights (-1)
              scale_grad_by_freq mode_mean offset2bag bag_size None Hsne Hs1
              ltac:(by rewrite Hlen) Hdt) as (p & Hsp & Hnumel & Hrun).
  { by destruct offset2bag. }
  cbv zeta in Hrun. rewrite Hlen in Hsp, Hrun, Hnumel.
  unfold embedding_bag_backward_dpcpp_kernel.
  rewrite (fmap_ok _ _ _ _ Hrun). eexists. split; [reflexivity|].
  split; [done|]. split; [done|]. cbn [run_grad_weight data].
  set (dst := drop (length (boundaries sorted_indices)) (empty1 uninit N)) in *.
  set (offs := boundaries sorted_indices ++ dst) in *.
  set (n := Z.of_nat (length (boundaries sorted_indices))) in *.
  set (gwps := partial_sums _ _ _ _ _ _ _ _ _ _ _ _).
  pose proof (boundaries_segmentation sorted_indices dst Hsne) as Hseg.
  rewrite Hlen in Hseg. fold offs n in Hseg.
  pose proof (splitting_segmentation offs n N p Hseg Hsp) as Hpso.
  assert (Horig : ∀ idx, 0 ≤ idx < N → 0 ≤ ld 0 orig_indices idx < N).
  { intros idx Hi. by destruct (sorted_orig indices zipped Hperm idx Hi). }
  assert (Hgw : ∀ j f, 0 ≤ j < num_of_partial_segments p → 0 ≤ f < size1 grad →
            ld szero gwps (j * size1 grad + f)
            = accumulate
                (sorted_term orig_indices grad offset2bag count mode_mean
                   bag_size f)
                (seg_begin (partial_segment_offset p) j)
                (seg_end (partial_segment_offset p) (num_of_partial_segments p) N j)).
  { intros j f Hj Hf. apply partial_sums_terms; try done.
    apply (sp_total _ _ _ _ Hsp). }
  assert (Htarget_in : ∀ k, 0 ≤ k < n →
            ld 0 sorted_indices (seg_begin offs k) ∈ indices).
  { intros k Hk.
    pose proof (seg_begin_nonneg _ _ _ Hseg k Hk).
    pose proof (seg_nonempty _ _ _ Hseg k Hk).
    pose proof (seg_end_le _ _ _ Hseg k Hk).
    rewrite <- (sorted_Permutation indices zipped Hperm).
    eapply list_elem_of_lookup_2. apply lookup_ld. lia. }
  intros r f Hr Hf.
  destruct (decide (r ∈ indices)) as [Hin|Hnin].
  - apply list_elem_of_lookup_1 in Hin as [q Hq].
    pose proof (lookup_lt_Some _ _ _ Hq) as Hqlt.
    destruct (index_has_segment indices zipped Hperm Hne dst (Z.of_nat q)
                ltac:(lia)) as (k & Hk & Hkr).
    fold sorted_indices offs n in Hk, Hkr.
    rewrite (ld_lookup_nat 0 indices q r Hq) in Hkr.
    rewrite (ld_apply_writes_same szero _ _ _
               (accumulate (λ j, ld szero gwps (j * size1 grad + f))
                  (seg_begin (partials_per_segment_offset p) k)
                  (seg_end (partials_per_segment_offset p) n
                     (num_of_partial_segments p) k))).
    + rewrite (segment_sum offs n N (size1 grad) p Hseg Hsp gwps
                 (sorted_term orig_indices grad offset2bag count mode_mean bag_size))
        by done.
      rewrite accumulate_ssum.
      match goal with |- ssum (_ <$> ?l) = _ =>
        transitivity
          (ssum (contribution grad offset2bag bag_size mode_mean
                   (freq_scale scale_grad_by_freq indices r) f
                 <$> (ld 0 orig_indices <$> l)))
      end.
      { rewrite <- list_fmap_compose. f_equal. apply list_fmap_ext.
        intros i idx Hpos. apply list_elem_of_lookup_2, elem_of_for_each in Hpos.
        cbn [compose].
        pose proof (seg_begin_nonneg _ _ _ Hseg k Hk).
        pose proof (seg_end_le _ _ _ Hseg k Hk).
        assert (Hcount : match count with
                         | Some c => sdiv sone (of_int (ld 0 c idx))
                         | None => sone
                         end = freq_scale scale_grad_by_freq indices r).
        { unfold count, freq_scale. destruct scale_grad_by_freq; [|done].
          rewrite (frequency_count_ld sorted_indices idx Hsorted) by lia.
          pose proof (boundaries_const sorted_indices dst k idx Hsne) as Hc.
          cbv zeta in Hc. rewrite Hlen in Hc. fold offs n in Hc.
          rewrite Hc, Hkr by done.
          by rewrite (occurrences_Permutation sorted_indices indices r
                        (sorted_Permutation indices zipped Hperm)). }
        unfold sorted_term, contribution, route.
        destruct offset2bag as [o|].
        - unfold bags_term. cbv zeta. by rewrite Hcount.
        - unfold plain_term. cbv zeta. by rewrite Hcount. }
      apply ssum_Permutation, fmap_Permutation.
      rewrite <- Hkr.
      apply (segment_lookups indices zipped Hperm Hne Hsorted dst k Hk).
    + rewrite length_replicate. nia.
    + exists (r * size1 grad + f,
              accumulate (λ j, ld szero gwps (j * size1 grad + f))
                (seg_begin (partials_per_segment_offset p) k)
                (seg_end (partials_per_segment_offset p) n
                   (num_of_partial_segments p) k)).
      split; [|done].
      apply elem_of_stores. exists k, f. fold offs n. rewrite Hkr.
      split; [done|]. split; [done|]. split; [lia | done].
    + intros w Hw Hcell.
      apply elem_of_stores in Hw as (id & f' & Hid & Hf' & _ & ->).
      fold offs n in Hid, Hcell |- *. simpl in Hcell. simpl.
      destruct (cell_inj (size1 grad) _ _ _ _ Hf' Hf Hcell) as [Ht ->].
      assert (id = k) as ->; [|done].
      apply (target_inj sorted_indices dst Hsne Hsorted); try done.
      fold offs. congruence.
  - rewrite ld_apply_writes_other.
    + rewrite ld_replicate_default. rewrite filter_none; [done|].
      intros q Hq Heq. apply elem_of_seqZ in Hq. apply Hnin. rewrite <- Heq.
      eapply list_elem_of_lookup_2. apply lookup_ld. unfold N in Hq. lia.
    + intros w Hw Hcell.
      apply elem_of_stores in Hw as (id & f' & Hid & Hf' & _ & ->).
      fold offs n in Hid, Hcell. simpl in Hcell.
      destruct (cell_inj (size1 grad) _ _ _ _ Hf' Hf Hcell) as [Ht _].
      apply Hnin. rewrite <- Ht. by apply Htarget_in.
Qed.

(** X10: the sum and mean backward without per-sample weights, in each of
    its modes and with or without frequency scaling: every cell of the
    output gradient is the sum, over the lookups of its index, of the
    gradient of the lookup's row (divided by the size of its bag in mean mode,
    when the bags are given) times the scale (one over the number of
    occurrences of the index with frequency scaling, one without). *)
Theorem scaled_gradient_cells (grad : Tensor T) (indices offsets : list Z)
    (offset2bag : option (list Z)) (bag_size : list Z) (num_weights : Z)
    (scale_grad_by_freq : bool) (mode : Z) :
  let N := Z.of_nat (length indices) in
  (∀ x, x ∈ indices → 0 ≤ x < num_weights) →
  0 < size1 grad →
  N * stride_warped_of wg (size1 grad) ≤ INT_MAX →
  backward_dtype (dtype grad) →
  match offset2bag with
  | Some o => (∀ q, 0 ≤ q < N → 0 ≤ ld 0 o q < size0 grad)
              ∧ size0 grad * size1 grad ≤ INT_MAX
  | None => True
  end →
  ∃ grad_weight,
    outcome (embedding_bag_backward_dpcpp_sum_avg wg true uninit uninit_s
               sort_by_key grad indices offsets offset2bag bag_size num_weights
               scale_grad_by_freq mode None) = inr grad_weight
    ∧ size0 grad_weight = num_weights
    ∧ size1 grad_weight = size1 grad
    ∧ ∀ r f, 0 ≤ r < num_weights → 0 ≤ f < size1 grad →
        ld szero (data grad_weight) (r * size1 grad + f)
        = ssum (contribution grad offset2bag bag_size
                  (bool_decide (mode = MODE_MEAN))
                  (freq_scale scale_grad_by_freq indices r) f
                <$> filter (λ q, ld 0 indices q = r) (seqZ 0 N)).
Proof. apply sum_avg_cells. Qed.

End Scaled.
End ScaledBackwardTheorems.

(** ** The forward pass followed by the sum and mean backward *)
Module RoundTripFacts.

(** *** Bags of a well-formed offsets tensor *)
Section Offsets.
Variables (offsets : list Z) (N : Z).
Local Abbreviation nb := (Z.of_nat (length offsets)).
Local Abbreviation lo := (bag_begin offsets).
Local Abbreviation hi := (bag_end offsets N (Z.of_nat (length offsets))).
Hypothesis Hfirst : ld 0 offsets 0 = 0.
Hypothesis Hbags : ∀ b, 0 ≤ b < nb → lo b ≤ hi b.











End Offsets.


Section Contiguous.
Context {T : Type} `{Scalar T}.




End Contiguous.
End RoundTripFacts.

Module RoundTripTheorems.
Import RoundTripFacts.
Section RoundTrip.
Context {T : Type} `{ScalarLaws T}.
Variables (wg : Z) (uninit : nat → Z) (uninit_s : nat → T) (uninit_max : T).
Variable sort_by_key : list (Z * Z) → list (Z * Z).
Hypothesis Hwg : 0 < wg.
Hypothesis Hsort_perm : ∀ l, sort_by_key l ≡ₚ l.
Hypothesis Hsort_sorted : ∀ l, Sorted Z.le (sort_by_key l).*1.


End RoundTrip.
End RoundTripTheorems.

Import PSTL.

(** ** What the embedding-bag entry points reject, and what they do not *)
Module ChecksTheorems.

Section Backward.
Context {T : Type} `{Scalar T}.
Variables (wg : Z) (uninit : nat → Z) (uninit_s : nat → T).
Variable sort_by_key : list (Z * Z) → list (Z * Z).
Hypothesis Hsort_perm : ∀ l, sort_by_key l ≡ₚ l.

(** X12: how the sum and mean backward fails.  Built without oneDPL it throws
    for every input, the empty index stream included, and launches nothing.
    Built with oneDPL, a gradient of an element type other than float, double
    and bfloat16 is rejected by the dispatch only after the two kernels of
    the partial-segment splitting were launched, and is not rejected at all
    for an empty index stream, where the zero gradient is returned. *)
Theorem sum_avg_backward_failures (grad : Tensor T) (indices offsets : list Z)
    (offset2bag : option (list Z)) (bag_size : list Z) (num_weights : Z)
    (scale_grad_by_freq : bool) (mode : Z)
    (per_sample_weights : option (Tensor T)) :
  let call USE_ONEDPL :=
    embedding_bag_backward_dpcpp_sum_avg wg USE_ONEDPL uninit uninit_s
      sort_by_key grad indices offsets offset2bag bag_size num_weights
      scale_grad_by_freq mode per_sample_weights in
  call false = ([], inl no_onedpl)
  ∧ (indices = [] →
     call true = ([], inr (zeros (dtype grad) num_weights (size1 grad))))
  ∧ (indices ≠ [] → Z.of_nat (length indices) ≤ INT_MAX →
     ¬ backward_dtype (dtype grad) →
     call true
     = ([K_partials_per_segment; K_partial_segment_offset],
        inl (NotImplemented "embedding_bag_backward_dpcpp_compute_grad_weight"
               (dtype grad)))).
Proof.
  cbv zeta. split; [done|]. split; [by intros ->|].
  intros Hne Hsmall Hdt.
  unfold embedding_bag_backward_dpcpp_sum_avg. cbn [negb].
  rewrite decide_False by (destruct indices; [done | simpl; lia]).
  set (zipped := sort_by_key (zip indices (iota (Z.of_nat (length indices)) 0))).
  assert (Hperm : zipped ≡ₚ zip indices (seqZ 0 (Z.of_nat (length indices))))
    by apply Hsort_perm.
  pose proof (sorted_nonempty indices zipped Hperm Hne) as Hsne.
  pose proof (length_sorted indices zipped Hperm) as Hlen.
  unfold embedding_bag_backward_dpcpp_kernel, embedding_bag_backward_dpcpp_run.
  cbn [negb]. rewrite segment_discovery_eq by done. rewrite bind_mret.
  pose proof (boundaries_segmentation zipped.*1
                (drop (length (boundaries zipped.*1))
                   (empty1 uninit (Z.of_nat (length zipped.*1)))) Hsne) as Hseg.
  assert (Hsmall' : Z.of_nat (length zipped.*1) ≤ INT_MAX) .
  { by rewrite Hlen. }
  destruct (partial_segments_spec uninit _ _ _ Hseg Hsmall') as (p & Hp & _).
  rewrite (bind_ok _ _ _ _ Hp).
  unfold IPEX_DISPATCH_FLOATING_TYPES_AND. rewrite (decide_False
     (P := dtype grad = Float ∨ dtype grad = Double ∨ dtype grad = BFloat16))
    by exact Hdt.
  done.
Qed.

End Backward.

Section Forward.
Context {T : Type} `{Scalar T}.
Variables (uninit : nat → Z) (uninit_s : nat → T) (uninit_max : T).


End Forward.
End ChecksTheorems.

(** ** The forward pass, the reductions and the scaled backward at concrete
    inputs *)
Module PoolingInstances.
Import Reduce ReduceOpAminmax ReduceOpLogical MinMaxTerms LogicalTerms.
Import Frequency Scaling.

(** Three bags over a table of four rows: lookups 0..3, no lookup, lookup 4. *)
Lemma sum_pooling_forward_witness :
  forward_dtype Float
  ∧ ∃ output offset2bag,
      _embedding_bag_dpcpp (λ _, 0) (λ _, 0) 0
        (mkTensor Float 4 2 2 1 [1; 5; 9; 5; 9; 2; 3; 5])
        [0; 1; 2; 3; 1] [0; 4; 4] false MODE_SUM false None
      = ([K_updateOutput],
         inr (output, offset2bag, empty1 (λ _, 0) 3, empty1 (λ _, 0) (3 * 2)))
      ∧ ld 0 (data output) (1 * 2 + 0) = 0.
Proof.
  assert (Hdt : forward_dtype Float) by (by left).
  split; [exact Hdt|].
  destruct (ForwardTheorems.sum_pooling_forward (T := Z) (λ _, 0) (λ _, 0) 0
              (mkTensor Float 4 2 2 1 [1; 5; 9; 5; 9; 2; 3; 5])
              [0; 1; 2; 3; 1] [0; 4; 4] false false None
              Hdt I ltac:(cbn; lia))
    as (output & o2b & Heq & _ & Hcells).
  exists output, o2b. split; [exact Heq|].
  destruct (Hcells 1 0 ltac:(cbn; lia) ltac:(cbn; lia)) as [_ Hempty].
  apply Hempty. by vm_compute.
Defined.

Lemma mean_pooling_forward_witness :
  forward_dtype Float
  ∧ ∃ output offset2bag bag_size,
      _embedding_bag_dpcpp (λ _, 0) (λ _, 0) 0
        (mkTensor Float 4 2 2 1 [1; 5; 9; 5; 9; 2; 3; 5])
        [0; 1; 2; 3; 1] [0; 4; 4] false MODE_MEAN false None
      = ([K_updateOutput],
         inr (output, offset2bag, bag_size, empty1 (λ _, 0) (3 * 2)))
      ∧ ld 0 bag_size 0 = 4
      ∧ ld 0 (data output) (1 * 2 + 1) = 0.
Proof.
  assert (Hdt : forward_dtype Float) by (by left).
  split; [exact Hdt|].
  destruct (ForwardTheorems.mean_pooling_forward (T := Z) (λ _, 0) (λ _, 0) 0
              (mkTensor Float 4 2 2 1 [1; 5; 9; 5; 9; 2; 3; 5])
              [0; 1; 2; 3; 1] [0; 4; 4] false false None
              Hdt I ltac:(cbn; lia))
    as (output & o2b & bs & Heq & Hbags).
  exists output, o2b, bs. split; [exact Heq|]. split.
  - etrans; [exact (proj1 (Hbags 0 ltac:(cbn; lia)))|]. by vm_compute.
  - destruct (Hbags 1 ltac:(cbn; lia)) as [_ Hcells].
    destruct (Hcells 1 ltac:(cbn; lia)) as [Hempty _].
    apply Hempty. by vm_compute.
Defined.

Lemma forward_offset2bag_witness :
  forward_dtype Float
  ∧ ∃ output offset2bag bag_size max_indices,
      _embedding_bag_dpcpp (λ _, 0) (λ _, 0) 0
        (mkTensor Float 4 2 2 1 [1; 5; 9; 5; 9; 2; 3; 5])
        [0; 1; 2; 3; 1] [0; 4; 4] false MODE_SUM false None
      = ([K_updateOutput], inr (output, offset2bag, bag_size, max_indices))
      ∧ length offset2bag = 5%nat
      ∧ ld 0 offset2bag 4 = 2.
Proof.
  assert (Hdt : forward_dtype Float) by (by left).
  split; [exact Hdt|].
  destruct (ForwardTheorems.forward_offset2bag (T := Z) (λ _, 0) (λ _, 0) 0
              (mkTensor Float 4 2 2 1 [1; 5; 9; 5; 9; 2; 3; 5])
              [0; 1; 2; 3; 1] [0; 4; 4] false false MODE_SUM None
              Hdt I ltac:(cbn; lia))
    as (output & o2b & bs & mi & Heq & Hlen & Hin & _).
  exists output, o2b, bs, mi. split; [exact Heq|]. split; [exact Hlen|].
  clear Heq Hlen.
  apply (Hin 2 4); [cbn; lia | cbn; lia | vm_compute; split; [discriminate | reflexivity] |].
  intros bag' Hbag' Hinside.
  assert (bag' = 0 ∨ bag' = 1 ∨ bag' = 2) as [->|[->| ->]] by (simpl in Hbag'; lia);
    [vm_compute in Hinside; by destruct Hinside | vm_compute in Hinside; by destruct Hinside | done].
Defined.

Lemma max_pooling_output_witness :
  forward_dtype Float
  ∧ ∃ output offset2bag bag_size max_indices,
      _embedding_bag_dpcpp (λ _, 0) (λ _, 0) 0
        (mkTensor Float 4 2 2 1 [1; 5; 9; 5; 9; 2; 3; 5])
        [0; 1; 2; 3; 1] [0; 4; 4] false MODE_MAX false None
      = ([K_updateOutput], inr (output, offset2bag, bag_size, max_indices))
      ∧ ld 0 (data output) (1 * 2 + 0) = 0.
Proof.
  assert (Hdt : forward_dtype Float) by (by left).
  split; [exact Hdt|].
  destruct (ForwardTheorems.max_pooling_output (T := Z) (λ _, 0) (λ _, 0) 0
              (mkTensor Float 4 2 2 1 [1; 5; 9; 5; 9; 2; 3; 5])
              [0; 1; 2; 3; 1] [0; 4; 4] false false None
              Hdt I ltac:(cbn; lia))
    as (output & o2b & bs & mi & Heq & _ & Hcells).
  exists output, o2b, bs, mi. split; [exact Heq|].
  destruct (Hcells 1 0 ltac:(cbn; lia) ltac:(cbn; lia)) as [Hempty _].
  apply Hempty. by vm_compute.
Defined.

Lemma feeds_all_two_halves {A} : feeds_all (@two_halves A).
Proof. intros l. by rewrite ReduceFacts.elements_two_halves. Qed.

Lemma all_reduction_witness :
  feeds_all (@two_halves Z)
  ∧ numel (mkIter Long [[3; 0]; [2; 5]]) ≠ 0
  ∧ _all two_halves [7; 7] (mkIter Long [[3; 0]; [2; 5]])
    = ([K_reduce_and], inr [0; 1]).
Proof.
  assert (Hnumel : numel (mkIter Long [[3; 0]; [2; 5]]) ≠ 0) by done.
  split; [exact feeds_all_two_halves|]. split; [exact Hnumel|].
  exact (proj1 (LogicalFacts.all_reduction two_halves feeds_all_two_halves
                  [7; 7] (mkIter Long [[3; 0]; [2; 5]]) Hnumel)).
Defined.

Lemma any_reduction_witness :
  feeds_all (@two_halves Z)
  ∧ numel (mkIter Long [[0; 0]; [0; 5]]) ≠ 0
  ∧ _any two_halves [7; 7] (mkIter Long [[0; 0]; [0; 5]])
    = ([K_reduce_or], inr [0; 1]).
Proof.
  assert (Hnumel : numel (mkIter Long [[0; 0]; [0; 5]]) ≠ 0) by done.
  split; [exact feeds_all_two_halves|]. split; [exact Hnumel|].
  exact (proj1 (LogicalFacts.any_reduction two_halves feeds_all_two_halves
                  [7; 7] (mkIter Long [[0; 0]; [0; 5]]) Hnumel)).
Defined.

Lemma integers_example x :
  x ∈ [3; -1; 7] → numeric_lowest ≤ x ≤ numeric_max.
Proof.
  intros Hx. repeat (apply elem_of_cons in Hx as [->|Hx]; [by vm_compute|]).
  by apply elem_of_nil in Hx.
Qed.

Lemma aminmax_integers_witness :
  feeds_all (@two_halves Z)
  ∧ [3; -1; 7] ≠ []
  ∧ (∀ x, x ∈ [3; -1; 7] → numeric_lowest ≤ x ≤ numeric_max)
  ∧ ∃ mn mx,
      _aminmax two_halves Long [3; -1; 7] = ([K_reduce_minmax], inr (mn, mx))
      ∧ mn ∈ [3; -1; 7] ∧ mx ∈ [3; -1; 7]
      ∧ ∀ x, x ∈ [3; -1; 7] → mn ≤ x ≤ mx.
Proof.
  assert (Hne : [3; -1; 7] ≠ []) by done.
  split; [exact feeds_all_two_halves|]. split; [exact Hne|].
  split; [exact integers_example|].
  exact (AminmaxFacts.aminmax_integers two_halves feeds_all_two_halves
           [3; -1; 7] Hne integers_example).
Defined.

(** The stream of the comment in the code. *)
Lemma frequency_count_occurrences_witness :
  Sorted Z.le [2; 5; 5; 5; 7; 7; 8; 9; 9]
  ∧ ld 0 (frequency_count [2; 5; 5; 5; 7; 7; 8; 9; 9]) 2 = 3.
Proof.
  assert (Hsorted : Sorted Z.le [2; 5; 5; 5; 7; 7; 8; 9; 9])
    by (repeat constructor; lia).
  split; [exact Hsorted|].
  etrans; [exact (proj2 (FrequencyFacts.frequency_count_occurrences
                           [2; 5; 5; 5; 7; 7; 8; 9; 9] Hsorted) 2
                    ltac:(cbn; lia))|].
  by vm_compute.
Defined.

Lemma stream_example x : x ∈ [3; 1; 3; 1; 3] → 0 ≤ x < 5.
Proof.
  intros Hx. repeat (apply elem_of_cons in Hx as [->|Hx]; [lia|]).
  by apply elem_of_nil in Hx.
Qed.

Lemma bags_example q : 0 ≤ q < 5 → 0 ≤ ld 0 [0; 0; 1; 1; 2] q < 3.
Proof.
  intros Hq.
  assert (q = 0 ∨ q = 1 ∨ q = 2 ∨ q = 3 ∨ q = 4) as [->|[->|[->|[->| ->]]]]
    by lia; by vm_compute.
Qed.

(** Mean mode over three bags of sizes 2, 2 and 1 whose gradient rows hold 6:
    row 3 is looked up once in each bag. *)
Lemma scaled_gradient_cells_witness :
  (∀ x, x ∈ [3; 1; 3; 1; 3] → 0 ≤ x < 5)
  ∧ 5 * stride_warped_of 64 2 ≤ INT_MAX
  ∧ (∀ q, 0 ≤ q < 5 → 0 ≤ ld 0 [0; 0; 1; 1; 2] q < 3)
  ∧ ∃ grad_weight,
      outcome (embedding_bag_backward_dpcpp_sum_avg 64 true (λ _, 0) (λ _, 0)
                 InsertionSort.sort_by_key
                 (mkTensor Float 3 2 2 1 (replicate 6 6))
                 [3; 1; 3; 1; 3] [0; 2; 4] (Some [0; 0; 1; 1; 2]) [2; 2; 1] 5
                 false MODE_MEAN None)
      = inr grad_weight
      ∧ ld 0 (data grad_weight) (3 * 2 + 1) = 12.
Proof.
  assert (Hsmall : 5 * stride_warped_of 64 2 ≤ INT_MAX) by (by vm_compute).
  split; [exact stream_example|]. split; [exact Hsmall|].
  split; [exact bags_example|].
  destruct (ScaledBackwardTheorems.scaled_gradient_cells (T := Z) 64 (λ _, 0)
              (λ _, 0) InsertionSort.sort_by_key ltac:(lia)
              InsertionSortFacts.sort_by_key_Permutation
              InsertionSortFacts.sort_by_key_Sorted
              (mkTensor Float 3 2 2 1 (replicate 6 6))
              [3; 1; 3; 1; 3] [0; 2; 4] (Some [0; 0; 1; 1; 2]) [2; 2; 1] 5
              false MODE_MEAN
              stream_example ltac:(cbn; lia) Hsmall (or_introl eq_refl)
              (conj bags_example ltac:(by vm_compute)))
    as (grad_weight & Hcall & _ & _ & Hcells).
  exists grad_weight. split; [exact Hcall|].
  etrans; [exact (Hcells 3 1 ltac:(lia) ltac:(cbn; lia))|]. by vm_compute.
Defined.




Lemma sum_avg_backward_failures_witness :
  (∀ l, InsertionSort.sort_by_key l ≡ₚ l)
  ∧ ¬ backward_dtype Half
  ∧ embedding_bag_backward_dpcpp_sum_avg 64 true (λ _, 0) (λ _, 0)
      InsertionSort.sort_by_key (mkTensor Half 2 2 2 1 [1; 2; 3; 4])
      [3; 1] [0; 1] None [] 5 false MODE_SUM None
    = ([K_partials_per_segment; K_partial_segment_offset],
       inl (NotImplemented "embedding_bag_backward_dpcpp_compute_grad_weight"
              Half)).
Proof.
  assert (Hdt : ¬ backward_dtype Half) by (by intros [?|[?|?]]).
  split; [exact InsertionSortFacts.sort_by_key_Permutation|].
  split; [exact Hdt|].
  exact (proj2 (proj2 (ChecksTheorems.sum_avg_backward_failures (T := Z) 64
                         (λ _, 0) (λ _, 0) InsertionSort.sort_by_key
                         InsertionSortFacts.sort_by_key_Permutation
                         (mkTensor Half 2 2 2 1 [1; 2; 3; 4])
                         [3; 1] [0; 1] None [] 5 false MODE_SUM None))
           ltac:(done) ltac:(by vm_compute) Hdt).
Defined.

End PoolingInstances.
